(** * bsh: the command execution core

    A shallow embedding of [cmd.go] (the [Command] builder, the two
    execution strategies [run] and [bash], the eight runners and
    [extractExitStatus]) and of the error handler of the owning [Bsh]
    context ([SetErrorHandler], [Panic], [Verbosef], [Warnf]).

    Go values are represented as follows.
    - [int] is [Z]; no arithmetic is performed on exit codes.
    - an [error] interface value is [option error]; [None] is [nil].
    - [*Command], [*int] and [*strings.Builder] are addresses into the
      stores of a [World]; two bindings to one address alias.
    - the runtime's [panic] is the [Fault] result of the [Act] monad; the
      store reached when the fault was raised is kept.
    - the operating system (process creation and wait), the tokenizer
      [commandline.Parse] and [os.ExpandEnv] are variables of the section.

    The development also covers the console ([echo] and its filters, the
    verbosity switch) and the file helpers of [fs.go], [fscopy.go] and
    [fsfile.go], whose calls to the operating system are recorded in
    order beside the world. *)

From Stdlib Require Import ZArith Ascii String List Lia DecimalString.
From stdpp Require Import base gmap strings list.
Import ListNotations.

Local Open Scope Z_scope.

(** ** Errors *)

(** The shapes of error the runners meet: an [*exec.ExitError] (its field
    is the value of its [ExitCode()] method: the exit code of a process
    that exited, and -1 for one that was terminated by a signal), any other
    error, and an error wrapping another one (seen through by
    [errors.As]). *)
Inductive error : Type :=
| ExitError (code : Z)
| PlainError (msg : string)
| WrapError (msg : string) (inner : error).

Definition goerror : Type := option error.

(** [errors.As(err, &ee)] with [ee : *exec.ExitError]: the first
    [*exec.ExitError] of the chain of [err], if any. *)
Fixpoint errors_As_ExitError (e : error) : option Z :=
  match e with
  | ExitError code => Some code
  | PlainError _ => None
  | WrapError _ inner => errors_As_ExitError inner
  end.

(** [extractExitStatus] *)
Definition extractExitStatus (err : goerror) : Z * goerror :=
  match err with
  | None => (0, None)
  | Some e =>
      match errors_As_ExitError e with
      | None => (-1, Some e)
      | Some code => (code, None)
      end
  end.

(** What [exec.Cmd.Run] reports for a process that was started and ran to
    completion with exit code [n]: [nil] for 0, an [*exec.ExitError]
    carrying [n] otherwise. *)
Definition exited (n : Z) : goerror :=
  if n =? 0 then None else Some (ExitError n).

(** ** Streams, commands and the owning context *)

Inductive Reader : Type :=
| RNil
| os_Stdin
| RBuf (addr : nat).

Inductive Writer : Type :=
| WNil
| os_Stdout
| os_Stderr
| WBuf (addr : nat).

Record Command : Type := mkCommand {
  raw : string;
  dir : string;
  env : list string;
  in_ : Reader;
  out : Writer;
  err : Writer;
  exitStatus : option nat
}.

(** A value panicked with: an error passed to [panic], or a run-time error
    of the Go runtime. *)
Inductive PanicValue : Type :=
| PanicError (e : goerror)
| RuntimeError (msg : string).

(** A function installed with [SetErrorHandler]. It is identified by
    [h_id]; called on an error it either returns ([None]) or panics. Its
    calls are recorded in the log; it is taken not to write to the
    commands, cells and builders of the world. *)
Record Handler : Type := mkHandler {
  h_id : nat;
  h_call : goerror -> option PanicValue
}.

Record Bsh : Type := mkBsh {
  Stdin : Reader;
  Stdout : Writer;
  Stderr : Writer;
  DisableColor : bool;
  fnErr : option Handler;
  echoFilters : list string;
  verboseEnvVar : string
}.

(** [exec.Cmd], as far as the runners fill it in. [cmd_Args] includes the
    program name, as [exec.Command] builds it; [cmd_Env = None] is the nil
    slice (the child inherits the environment). *)
Record exec_Cmd : Type := mkExecCmd {
  cmd_Path : string;
  cmd_Args : list string;
  cmd_Env : option (list string);
  cmd_Dir : string;
  cmd_Stdin : Reader;
  cmd_Stdout : Writer;
  cmd_Stderr : Writer
}.

Inductive echoOpt : Type :=
| ensureNewline
| ignoreFilter
| colorEcho
| colorVerbose
| colorAsk
| colorWarn.

(** What can be observed of an execution, in order. *)
Inductive Event : Type :=
| EvEcho (str : string) (opts : list echoOpt)
| EvRun (cmd : exec_Cmd)
| EvWrite (w : Writer) (text : string)
| EvStore (addr : nat) (n : Z)
| EvHandler (id : nat) (e : goerror).

Record World : Type := mkWorld {
  w_bsh : Bsh;
  w_cmds : list Command;
  w_ints : gmap nat Z;
  w_builders : list string;
  w_environ : list (string * string);
  w_log : list Event
}.

(** What a child process does: the chunks it writes ([true] for stderr,
    [false] for stdout), in order, and the error [exec.Cmd.Run] returns. *)
Record ProcResult : Type := mkProcResult {
  pr_writes : list (bool * string);
  pr_err : goerror
}.

(** ** The monad of Go procedures *)

Inductive Res (A : Type) : Type :=
| Ret (a : A)
| Fault (p : PanicValue).
Arguments Ret {A} a.
Arguments Fault {A} p.

Definition Act (A : Type) : Type := World -> Res A * World.

Definition ret {A} (a : A) : Act A := fun w => (Ret a, w).

Definition bind {A B} (m : Act A) (k : A -> Act B) : Act B :=
  fun w =>
    match m w with
    | (Ret a, w') => k a w'
    | (Fault p, w') => (Fault p, w')
    end.

Definition panic {A} (p : PanicValue) : Act A := fun w => (Fault p, w).

Notation "x <- m ;; k" := (bind m (fun x => k))
  (at level 62, m at next level, right associativity).
Notation "m ;;; k" := (bind m (fun _ => k))
  (at level 62, right associativity).

Definition get_world : Act World := fun w => (Ret w, w).
Definition modify_world (f : World -> World) : Act unit := fun w => (Ret tt, f w).

Definition set_bsh (b : Bsh) (w : World) : World :=
  mkWorld b (w_cmds w) (w_ints w) (w_builders w) (w_environ w) (w_log w).
Definition set_cmds (cs : list Command) (w : World) : World :=
  mkWorld (w_bsh w) cs (w_ints w) (w_builders w) (w_environ w) (w_log w).
Definition set_ints (m : gmap nat Z) (w : World) : World :=
  mkWorld (w_bsh w) (w_cmds w) m (w_builders w) (w_environ w) (w_log w).
Definition set_builders (bs : list string) (w : World) : World :=
  mkWorld (w_bsh w) (w_cmds w) (w_ints w) bs (w_environ w) (w_log w).
Definition set_log (l : list Event) (w : World) : World :=
  mkWorld (w_bsh w) (w_cmds w) (w_ints w) (w_builders w) (w_environ w) l.

Definition emit (ev : Event) : Act unit :=
  modify_world (fun w => set_log (w_log w ++ [ev]) w).

(** ** The environment and the owning context ([Bsh]) *)

Definition mageVerboseEnvVar : string := "MAGEFILE_VERBOSE".

(** [os.LookupEnv], [os.Getenv] and [os.Environ] over the process
    environment, kept as a list of variables with their values. *)
Fixpoint os_LookupEnv (environ : list (string * string)) (key : string)
  : option string :=
  match environ with
  | [] => None
  | (k, v) :: rest => if String.eqb k key then Some v else os_LookupEnv rest key
  end.

Definition os_Getenv (environ : list (string * string)) (key : string) : string :=
  match os_LookupEnv environ key with
  | Some v => v
  | None => ""
  end.

Definition os_Environ (environ : list (string * string)) : list string :=
  map (fun kv => fst kv +:+ "=" +:+ snd kv) environ.

(** [strconv.ParseBool]: the value, and whether the text was accepted. *)
Definition strconv_ParseBool (str : string) : bool * bool :=
  if existsb (String.eqb str) ["1"; "t"; "T"; "TRUE"; "true"; "True"]
  then (true, true)
  else if existsb (String.eqb str) ["0"; "f"; "F"; "FALSE"; "false"; "False"]
  then (false, true)
  else (false, false).

Definition ensureStdin (b : Bsh) : Reader :=
  match Stdin b with
  | RNil => os_Stdin
  | r => r
  end.

Definition ensureStdout (b : Bsh) : Writer :=
  match Stdout b with
  | WNil => os_Stdout
  | wr => wr
  end.

Definition ensureStderr (b : Bsh) : Writer :=
  match Stderr b with
  | WNil => os_Stderr
  | wr => wr
  end.

Definition set_fnErr (h : option Handler) (b : Bsh) : Bsh :=
  mkBsh (Stdin b) (Stdout b) (Stderr b) (DisableColor b) h (echoFilters b)
        (verboseEnvVar b).

Definition set_verboseEnvVar (s : string) (b : Bsh) : Bsh :=
  mkBsh (Stdin b) (Stdout b) (Stderr b) (DisableColor b) (fnErr b)
        (echoFilters b) s.

(** [utf8.DecodeRuneInString]: the width in bytes of the first rune of
    [s]; a byte that starts no well-formed encoding is a rune of width 1. *)
Definition byte_in (lo hi : N) (c : ascii) : bool :=
  (lo <=? N_of_ascii c)%N && (N_of_ascii c <=? hi)%N.

(** The length announced by a first byte and the range accepted for the
    second byte. *)
Definition utf8_first (c : ascii) : nat * (N * N) :=
  let b := N_of_ascii c in
  if (b <? 194)%N then (1%nat, (0, 0)%N)
  else if (b <=? 223)%N then (2%nat, (128, 191)%N)
  else if (b =? 224)%N then (3%nat, (160, 191)%N)
  else if (b <=? 236)%N then (3%nat, (128, 191)%N)
  else if (b =? 237)%N then (3%nat, (128, 159)%N)
  else if (b <=? 239)%N then (3%nat, (128, 191)%N)
  else if (b =? 240)%N then (4%nat, (144, 191)%N)
  else if (b <=? 243)%N then (4%nat, (128, 191)%N)
  else if (b =? 244)%N then (4%nat, (128, 143)%N)
  else (1%nat, (0, 0)%N).

Definition utf8_width (s : string) : nat :=
  match s with
  | EmptyString => 0%nat
  | String c0 rest =>
      let '(size, (lo, hi)) := utf8_first c0 in
      if (size =? 1)%nat then 1%nat
      else if (String.length s <? size)%nat then 1%nat
      else
        match rest with
        | String c1 rest1 =>
            if negb (byte_in lo hi c1) then 1%nat
            else if (size =? 2)%nat then 2%nat
            else
              match rest1 with
              | String c2 rest2 =>
                  if negb (byte_in 128 191 c2) then 1%nat
                  else if (size =? 3)%nat then 3%nat
                  else
                    match rest2 with
                    | String c3 _ =>
                        if negb (byte_in 128 191 c3) then 1%nat else 4%nat
                    | EmptyString => 1%nat
                    end
              | EmptyString => 1%nat
              end
        | EmptyString => 1%nat
        end
  end.

(** [strings.ReplaceAll(s, old, new)] for a non-empty [old]: the
    occurrences of [old] are found from the left, without overlap.
    [skip] counts the bytes of an occurrence still to be passed over. *)
Fixpoint replace_scan (old new s : string) (skip : nat) : string :=
  match s with
  | EmptyString => EmptyString
  | String c rest =>
      match skip with
      | S k => replace_scan old new rest k
      | O =>
          if String.prefix old s
          then new +:+ replace_scan old new rest (String.length old - 1)
          else String c (replace_scan old new rest 0)
      end
  end.

(** For the empty [old], [new] goes before every rune and at the end;
    this puts it after every rune. [more] counts the bytes of the current
    rune that follow those already copied. *)
Fixpoint insert_after_runes (new s : string) (more : nat) : string :=
  match s with
  | EmptyString => EmptyString
  | String c rest =>
      let left := match more with
                  | O => (utf8_width s - 1)%nat
                  | S k => k
                  end in
      String c (match left with
                | O => new +:+ insert_after_runes new rest 0
                | S _ => insert_after_runes new rest left
                end)
  end.

Definition strings_ReplaceAll (s old new : string) : string :=
  if String.eqb old new then s
  else
    match old with
    | EmptyString => new +:+ insert_after_runes new s 0
    | _ => replace_scan old new s 0
    end.

Definition ansiCSI : string := String (ascii_of_nat 27) "[".
Definition ansiReset : string := ansiCSI +:+ "39m".
Definition ansiYellow : string := ansiCSI +:+ "93m".
Definition ansiBlue : string := ansiCSI +:+ "94m".
Definition ansiCyan : string := ansiCSI +:+ "96m".
Definition ansiWhite : string := ansiCSI +:+ "97m".

(** The three settings [echo] reads off its options. *)
Record echoFlags : Type := mkEchoFlags {
  fl_newline : bool;
  fl_filter : bool;
  fl_color : string
}.

Definition echo_flag (fl : echoFlags) (v : echoOpt) : echoFlags :=
  match v with
  | ensureNewline => mkEchoFlags true (fl_filter fl) (fl_color fl)
  | ignoreFilter => mkEchoFlags (fl_newline fl) false (fl_color fl)
  | colorEcho => mkEchoFlags (fl_newline fl) (fl_filter fl) ansiWhite
  | colorVerbose => mkEchoFlags (fl_newline fl) (fl_filter fl) ansiCyan
  | colorAsk => mkEchoFlags (fl_newline fl) (fl_filter fl) ansiBlue
  | colorWarn => mkEchoFlags (fl_newline fl) (fl_filter fl) ansiYellow
  end.

Definition echo_flags (opts : list echoOpt) : echoFlags :=
  fold_left echo_flag opts (mkEchoFlags false true "").

(** The filter loop of [echo]. *)
Definition echo_filtered (filters : list string) (str : string) : string :=
  fold_left (fun s v => strings_ReplaceAll s v "******") filters str.

Fixpoint last_byte (s : string) : option ascii :=
  match s with
  | EmptyString => None
  | String c EmptyString => Some c
  | String _ rest => last_byte rest
  end.

Definition newline : ascii := ascii_of_nat 10.

Definition index_minus_one : PanicValue :=
  RuntimeError "index out of range [-1]".

(** The body of [echo]: the text handed to [fmt.Fprint] for the context's
    stdout, or the run-time error raised before. *)
Definition echo_text (b : Bsh) (environ : list (string * string))
  (str : string) (opts : list echoOpt) : Res string :=
  let fl := echo_flags opts in
  let str1 := if fl_filter fl then echo_filtered (echoFilters b) str else str in
  match (if fl_newline fl
         then match last_byte str1 with
              | None => None
              | Some c =>
                  Some (if Ascii.eqb c newline then str1
                        else str1 +:+ String newline "")
              end
         else Some str1) with
  | None => Fault index_minus_one
  | Some str2 =>
      Ret (if negb (DisableColor b)
              && (0 <? String.length (fl_color fl))%nat
              && negb (bool_decide (is_Some (os_LookupEnv environ "NO_COLOR")))
           then fl_color fl +:+ str2 +:+ ansiReset
           else str2)
  end.

(** [echo]: the line is rendered as [echo_text] has it and printed on the
    stdout of the context, which the log records as the call with its
    message and options. The run-time error of the rendering, if there is
    one, is raised before anything is printed. *)
Definition echo (str : string) (opts : list echoOpt) : Act unit :=
  fun w =>
    match echo_text (w_bsh w) (w_environ w) str opts with
    | Ret _ => emit (EvEcho str opts) w
    | Fault p => (Fault p, w)
    end.

Definition IsVerbose : Act bool :=
  modify_world (fun w =>
    if (String.length (verboseEnvVar (w_bsh w)) =? 0)%nat
    then set_bsh (set_verboseEnvVar mageVerboseEnvVar (w_bsh w)) w
    else w) ;;;
  w <- get_world ;;
  ret (fst (strconv_ParseBool
              (os_Getenv (w_environ w) (verboseEnvVar (w_bsh w))))).

Definition Verbose (str : string) : Act unit :=
  v <- IsVerbose ;;
  if negb v then ret tt else echo str [ensureNewline; colorVerbose].

(** [Verbosef] and [Warnf] take the text [fmt.Sprintf] produces. *)
Definition Verbosef (msg : string) : Act unit :=
  v <- IsVerbose ;;
  if negb v then ret tt else echo msg [ensureNewline; colorVerbose].

Definition Warnf (msg : string) : Act unit :=
  echo msg [ensureNewline; colorWarn].

(** [SetErrorHandler] *)
Definition SetErrorHandler (fn : option Handler) : Act unit :=
  Verbose "Error handler changed" ;;;
  modify_world (fun w => set_bsh (set_fnErr fn (w_bsh w)) w).

(** [Panic] *)
Definition Panic (e : goerror) : Act unit :=
  w <- get_world ;;
  match fnErr (w_bsh w) with
  | Some h =>
      emit (EvHandler (h_id h) e) ;;;
      match h_call h e with
      | None => ret tt
      | Some p => panic p
      end
  | None => panic (PanicError e)
  end.

(** ** Commands *)

Definition set_raw (s : string) (c : Command) : Command :=
  mkCommand s (dir c) (env c) (in_ c) (out c) (err c) (exitStatus c).
Definition set_dir (s : string) (c : Command) : Command :=
  mkCommand (raw c) s (env c) (in_ c) (out c) (err c) (exitStatus c).
Definition set_env (l : list string) (c : Command) : Command :=
  mkCommand (raw c) (dir c) l (in_ c) (out c) (err c) (exitStatus c).
Definition set_in (r : Reader) (c : Command) : Command :=
  mkCommand (raw c) (dir c) (env c) r (out c) (err c) (exitStatus c).
Definition set_out (wr : Writer) (c : Command) : Command :=
  mkCommand (raw c) (dir c) (env c) (in_ c) wr (err c) (exitStatus c).
Definition set_err (wr : Writer) (c : Command) : Command :=
  mkCommand (raw c) (dir c) (env c) (in_ c) (out c) wr (exitStatus c).
Definition set_exitStatus (n : option nat) (c : Command) : Command :=
  mkCommand (raw c) (dir c) (env c) (in_ c) (out c) (err c) n.

Definition set_cmd_Env (e : option (list string)) (x : exec_Cmd) : exec_Cmd :=
  mkExecCmd (cmd_Path x) (cmd_Args x) e (cmd_Dir x) (cmd_Stdin x)
            (cmd_Stdout x) (cmd_Stderr x).
Definition set_cmd_Dir (d : string) (x : exec_Cmd) : exec_Cmd :=
  mkExecCmd (cmd_Path x) (cmd_Args x) (cmd_Env x) d (cmd_Stdin x)
            (cmd_Stdout x) (cmd_Stderr x).
Definition set_cmd_Stdin (r : Reader) (x : exec_Cmd) : exec_Cmd :=
  mkExecCmd (cmd_Path x) (cmd_Args x) (cmd_Env x) (cmd_Dir x) r
            (cmd_Stdout x) (cmd_Stderr x).
Definition set_cmd_Stdout (wr : Writer) (x : exec_Cmd) : exec_Cmd :=
  mkExecCmd (cmd_Path x) (cmd_Args x) (cmd_Env x) (cmd_Dir x) (cmd_Stdin x)
            wr (cmd_Stderr x).
Definition set_cmd_Stderr (wr : Writer) (x : exec_Cmd) : exec_Cmd :=
  mkExecCmd (cmd_Path x) (cmd_Args x) (cmd_Env x) (cmd_Dir x) (cmd_Stdin x)
            (cmd_Stdout x) wr.

(** The run-time errors of Go that the runners can raise. *)
Definition nil_dereference : PanicValue :=
  RuntimeError "invalid memory address or nil pointer dereference".

(** [exec.Command(args[0], args[1:]...)] on an empty [args]: the slice
    [args[1:]] is what fails. *)
Definition slice_bounds_out_of_range : PanicValue :=
  RuntimeError "slice bounds out of range [1:0]".

(** Reading and writing through a [*Command]; a pointer that addresses no
    command is the nil pointer. *)
Definition deref (c : nat) : Act Command :=
  fun w =>
    match w_cmds w !! c with
    | Some this => (Ret this, w)
    | None =>
        (Fault nil_dereference, w)
    end.

Definition assign (c : nat) (f : Command -> Command) : Act unit :=
  this <- deref c ;;
  modify_world (fun w => set_cmds (<[c := f this]> (w_cmds w)) w).

(** [*n = v] *)
Definition store (n : nat) (v : Z) : Act unit :=
  modify_world (fun w => set_ints (<[n := v]> (w_ints w)) w) ;;;
  emit (EvStore n v).

(** [var b strings.Builder], [b.String()] *)
Definition new_Builder : Act nat :=
  fun w => (Ret (length (w_builders w)), set_builders (w_builders w ++ [""]) w).

Definition Builder_String (b : nat) : Act string :=
  fun w =>
    match w_builders w !! b with
    | Some s => (Ret s, w)
    | None =>
        (Fault nil_dereference, w)
    end.

(** [fmt.Sprintf("%v", l)] for a slice of strings *)
Definition fmt_v (l : list string) : string :=
  "[" +:+ String.concat " " l +:+ "]".

(** [exec.Command(name, arg...)] *)
Definition exec_Command (name : string) (arg : list string) : exec_Cmd :=
  mkExecCmd name (name :: arg) None "" RNil WNil WNil.

(** A chunk written by the child reaches the stream bound to it: a
    builder accumulates it, a standard stream shows it, nil discards it. *)
Definition deliver (wr : Writer) (text : string) (w : World) : World :=
  match wr with
  | WNil => w
  | WBuf a => set_builders (alter (fun s => s +:+ text) a (w_builders w)) w
  | _ => set_log (w_log w ++ [EvWrite wr text]) w
  end.

Definition deliver_all (x : exec_Cmd) (chunks : list (bool * string))
  (w : World) : World :=
  fold_left
    (fun w' (chunk : bool * string) =>
       deliver (if fst chunk then cmd_Stderr x else cmd_Stdout x) (snd chunk) w')
    chunks w.

Section Runners.

(** [commandline.Parse]: the tokens and the error. *)
Variable commandline_Parse : string -> list string * goerror.

(** [os.ExpandEnv], given the environment. *)
Variable os_ExpandEnv : list (string * string) -> string -> string.

(** The operating system: what the process described by an [exec.Cmd]
    does when started in a given world. *)
Variable os_run : World -> exec_Cmd -> ProcResult.

(** [exec.Cmd.Run]: start the process, let it write, wait for it. *)
Definition exec_Run (x : exec_Cmd) : Act goerror :=
  fun w =>
    let r := os_run w x in
    (Ret (pr_err r),
     deliver_all x (pr_writes r) (set_log (w_log w ++ [EvRun x]) w)).

(** *** Starters *)

Definition Cmd (command : string) : Act nat :=
  fun w =>
    let b := w_bsh w in
    (Ret (length (w_cmds w)),
     set_cmds (w_cmds w ++ [mkCommand command "" [] (ensureStdin b)
                              (ensureStdout b) (ensureStderr b) None]) w).

(** *** Modifiers *)

Definition In (c : nat) (r : Reader) : Act nat :=
  assign c (set_in r) ;;; ret c.

Definition Out (c : nat) (wr : Writer) : Act nat :=
  assign c (set_out wr) ;;; ret c.

Definition Err (c : nat) (wr : Writer) : Act nat :=
  assign c (set_err wr) ;;; ret c.

Definition OutErr (c : nat) (wr : Writer) : Act nat :=
  assign c (set_out wr) ;;; assign c (set_err wr) ;;; ret c.

Definition ExitStatus (c : nat) (n : option nat) : Act nat :=
  assign c (set_exitStatus n) ;;; ret c.

Definition ExpandEnv (c : nat) : Act nat :=
  w <- get_world ;;
  assign c (fun this => set_raw (os_ExpandEnv (w_environ w) (raw this)) this) ;;;
  ret c.

Definition Env (c : nat) (vars : list string) : Act nat :=
  assign c (fun this => set_env (env this ++ vars) this) ;;; ret c.

Definition Dir (c : nat) (d : string) : Act nat :=
  assign c (set_dir d) ;;; ret c.

(** *** Helpers *)

(** The lines [run] and [bash] share: filling in the [exec.Cmd] from the
    command ... *)
Definition fill (this : Command) (x : exec_Cmd) : Act exec_Cmd :=
  x1 <- (if (0 <? length (env this))%nat
         then Verbosef ("+Env: " +:+ fmt_v (env this)) ;;;
              w <- get_world ;;
              ret (set_cmd_Env (Some (os_Environ (w_environ w) ++ env this)) x)
         else ret x) ;;
  ret (set_cmd_Stderr (err this)
         (set_cmd_Stdout (out this)
            (set_cmd_Stdin (in_ this)
               (set_cmd_Dir (dir this) x1)))).

(** ... and storing the exit status once the process was waited for. *)
Definition storeExitStatus (this : Command) (e : goerror) : Act unit :=
  match exitStatus this with
  | Some n =>
      match extractExitStatus e with
      | (code, None) => store n code
      | (_, Some _) => ret tt
      end
  | None => ret tt
  end.

Definition run (c : nat) : Act goerror :=
  this <- deref c ;;
  match commandline_Parse (raw this) with
  | (_, Some e) => ret (Some e)
  | (args, None) =>
      Verbosef ("Exec: " +:+ raw this) ;;;
      match args with
      | [] => panic slice_bounds_out_of_range
      | name :: rest =>
          x <- fill this (exec_Command name rest) ;;
          e <- exec_Run x ;;
          storeExitStatus this e ;;;
          ret e
      end
  end.

Definition bash (c : nat) : Act goerror :=
  this <- deref c ;;
  Verbosef ("Bash: " +:+ raw this) ;;;
  x <- fill this (exec_Command "bash" ["-c"; raw this]) ;;
  e <- exec_Run x ;;
  storeExitStatus this e ;;;
  ret e.

(** *** Runners *)

(** The lines every escalating runner ends with: on an error, warn and
    hand it to the error handler of the context. *)
Definition escalate (c : nat) (prefix : string) (e : goerror) : Act unit :=
  match e with
  | None => ret tt
  | Some _ =>
      this <- deref c ;;
      Warnf (prefix +:+ raw this) ;;;
      Panic e
  end.

Definition Run (c : nat) : Act unit :=
  e <- run c ;;
  escalate c "unexpected error in " e.

Definition RunStr (c : nat) : Act string :=
  b <- new_Builder ;;
  assign c (set_out (WBuf b)) ;;;
  assign c (set_err (WBuf b)) ;;;
  e <- run c ;;
  escalate c "unexpected error in " e ;;;
  Builder_String b.

Definition RunErr (c : nat) : Act goerror :=
  run c.

Definition RunExitStatus (c : nat) : Act Z :=
  e <- run c ;;
  let (n, e') := extractExitStatus e in
  escalate c "unexpected error in " e' ;;;
  ret n.

Definition Bash (c : nat) : Act unit :=
  e <- bash c ;;
  escalate c "unexpected error in bash -c " e.

Definition BashStr (c : nat) : Act string :=
  b <- new_Builder ;;
  assign c (set_out (WBuf b)) ;;;
  assign c (set_err (WBuf b)) ;;;
  e <- bash c ;;
  escalate c "unexpected error in bash -c " e ;;;
  Builder_String b.

Definition BashErr (c : nat) : Act goerror :=
  bash c.

Definition BashExitStatus (c : nat) : Act Z :=
  e <- bash c ;;
  let (n, e') := extractExitStatus e in
  escalate c "unexpected error in bash -c " e' ;;;
  ret n.

End Runners.

(** ** Observations on the log *)

(** The writes through [*int] pointers, the processes run and the calls of
    the error handler that a log records, in order. *)
Definition stores (l : list Event) : list (nat * Z) :=
  omap (fun ev => match ev with EvStore a n => Some (a, n) | _ => None end) l.

Definition runs (l : list Event) : list exec_Cmd :=
  omap (fun ev => match ev with EvRun x => Some x | _ => None end) l.

Definition handled (l : list Event) : list (nat * goerror) :=
  omap (fun ev => match ev with EvHandler i e => Some (i, e) | _ => None end) l.

(** The text a process writes, stdout and stderr interleaved as written. *)
Definition output (r : ProcResult) : string :=
  fold_right String.append "" (map snd (pr_writes r)).

(** [quiet w w']: going from [w] to [w'] only echoed lines on the console
    (and possibly fixed the name of the verbosity variable). *)
Record quiet (w w' : World) : Prop := mkQuiet {
  q_cmds : w_cmds w' = w_cmds w;
  q_ints : w_ints w' = w_ints w;
  q_builders : w_builders w' = w_builders w;
  q_environ : w_environ w' = w_environ w;
  q_fnErr : fnErr (w_bsh w') = fnErr (w_bsh w);
  q_stores : stores (w_log w') = stores (w_log w);
  q_runs : runs (w_log w') = runs (w_log w);
  q_handled : handled (w_log w') = handled (w_log w)
}.

(** The eight runners, and the world each leaves behind. *)
Inductive Runner : Type :=
| rRun | rRunStr | rRunErr | rRunExitStatus
| rBash | rBashStr | rBashErr | rBashExitStatus.

Definition is_direct (r : Runner) : bool :=
  match r with
  | rRun | rRunStr | rRunErr | rRunExitStatus => true
  | _ => false
  end.

Definition world_after
  (parse : string -> list string * goerror)
  (os : World -> exec_Cmd -> ProcResult)
  (r : Runner) (c : nat) (w : World) : World :=
  match r with
  | rRun => snd (Run parse os c w)
  | rRunStr => snd (RunStr parse os c w)
  | rRunErr => snd (RunErr parse os c w)
  | rRunExitStatus => snd (RunExitStatus parse os c w)
  | rBash => snd (Bash os c w)
  | rBashStr => snd (BashStr os c w)
  | rBashErr => snd (BashErr os c w)
  | rBashExitStatus => snd (BashExitStatus os c w)
  end.

(** ** Fields of a command, for the frame of the modifiers *)

Inductive Field : Type :=
| f_raw | f_dir | f_env | f_in | f_out | f_err | f_exitStatus.

#[global] Instance Reader_eq_dec : EqDecision Reader.
Proof. solve_decision. Defined.
#[global] Instance Writer_eq_dec : EqDecision Writer.
Proof. solve_decision. Defined.
#[global] Instance Field_eq_dec : EqDecision Field.
Proof. solve_decision. Defined.

(** The fields on which two commands differ. *)
Definition changed (a b : Command) : list Field :=
  (if bool_decide (raw a = raw b) then [] else [f_raw]) ++
  (if bool_decide (dir a = dir b) then [] else [f_dir]) ++
  (if bool_decide (env a = env b) then [] else [f_env]) ++
  (if bool_decide (in_ a = in_ b) then [] else [f_in]) ++
  (if bool_decide (out a = out b) then [] else [f_out]) ++
  (if bool_decide (err a = err b) then [] else [f_err]) ++
  (if bool_decide (exitStatus a = exitStatus b) then [] else [f_exitStatus]).

Inductive Modifier : Type :=
| mIn (r : Reader)
| mOut (wr : Writer)
| mErr (wr : Writer)
| mOutErr (wr : Writer)
| mExitStatus (n : option nat)
| mExpandEnv
| mEnv (vars : list string)
| mDir (d : string).

Definition modify
  (expand : list (string * string) -> string -> string)
  (m : Modifier) (c : nat) : Act nat :=
  match m with
  | mIn r => In c r
  | mOut wr => Out c wr
  | mErr wr => Err c wr
  | mOutErr wr => OutErr c wr
  | mExitStatus n => ExitStatus c n
  | mExpandEnv => ExpandEnv expand c
  | mEnv vars => Env c vars
  | mDir d => Dir c d
  end.

(** The fields a modifier assigns to, as written in its body. *)
Definition assigned (m : Modifier) : list Field :=
  match m with
  | mIn _ => [f_in]
  | mOut _ => [f_out]
  | mErr _ => [f_err]
  | mOutErr _ => [f_out; f_err]
  | mExitStatus _ => [f_exitStatus]
  | mExpandEnv => [f_raw]
  | mEnv _ => [f_env]
  | mDir _ => [f_dir]
  end.

(** ** The shape of an execution *)

(** The [exec.Cmd] that [fill] returns, given the environment. *)
Definition filled (this : Command) (environ : list (string * string))
  (x : exec_Cmd) : exec_Cmd :=
  set_cmd_Stderr (err this)
    (set_cmd_Stdout (out this)
       (set_cmd_Stdin (in_ this)
          (set_cmd_Dir (dir this)
             (if (0 <? length (env this))%nat
              then set_cmd_Env (Some (os_Environ environ ++ env this)) x
              else x)))).

(** How a strategy gets to the program it starts: [run] tokenizes [raw],
    which can fail or give no token at all; [bash] always starts the
    interpreter. *)
Inductive Launch : Type :=
| ParseFailed (e : error)
| NoProgram
| Start (name : string) (arg : list string).

Definition launch (parse : string -> list string * goerror) (direct : bool)
  (this : Command) : Launch :=
  if direct then
    match parse (raw this) with
    | (_, Some e) => ParseFailed e
    | ([], None) => NoProgram
    | (name :: rest, None) => Start name rest
    end
  else Start "bash" ["-c"; raw this].

Definition strategy
  (parse : string -> list string * goerror)
  (os : World -> exec_Cmd -> ProcResult)
  (direct : bool) (c : nat) : Act goerror :=
  if direct then run parse os c else bash os c.

(** The world right after the process described by [x] was started in
    [w1], wrote its output and was waited for, and the exit status was
    stored through the sink of [this]. *)
Definition finished (os : World -> exec_Cmd -> ProcResult)
  (this : Command) (x : exec_Cmd) (w1 : World) : World :=
  snd (storeExitStatus this (pr_err (os w1 x))
         (deliver_all x (pr_writes (os w1 x))
            (set_log (w_log w1 ++ [EvRun x]) w1))).

(** [kept w w']: from [w] to [w'] nothing changed but the console and the
    record of handler calls. *)
Record kept (w w' : World) : Prop := mkKept {
  k_cmds : w_cmds w' = w_cmds w;
  k_ints : w_ints w' = w_ints w;
  k_builders : w_builders w' = w_builders w;
  k_environ : w_environ w' = w_environ w;
  k_fnErr : fnErr (w_bsh w') = fnErr (w_bsh w);
  k_stores : stores (w_log w') = stores (w_log w);
  k_runs : runs (w_log w') = runs (w_log w)
}.

(** The world [RunStr] and [BashStr] hand to their strategy: a new, empty
    builder, bound to both output streams of the command. *)
Definition captured (c : nat) (this : Command) (w : World) : World :=
  let b := length (w_builders w) in
  set_cmds (<[c := set_err (WBuf b) (set_out (WBuf b) this)]> (w_cmds w))
           (set_builders (w_builders w ++ [""]) w).

(** An error carries an exit code when an [*exec.ExitError] lies on its
    chain of wrapped errors; the code is that of the outermost one. *)
Inductive carries : error -> Z -> Prop :=
| carries_exit code : carries (ExitError code) code
| carries_wrap msg inner code :
    carries inner code -> carries (WrapError msg inner) code.

(** The world in which a runner starts its strategy, and the command
    found there. *)
Definition rebinds (r : Runner) : bool :=
  match r with
  | rRunStr | rBashStr => true
  | _ => false
  end.

Definition start_world (r : Runner) (c : nat) (this : Command) (w : World)
  : World :=
  if rebinds r then captured c this w else w.

Definition start_Command (r : Runner) (this : Command) (w : World) : Command :=
  if rebinds r
  then set_err (WBuf (length (w_builders w)))
         (set_out (WBuf (length (w_builders w))) this)
  else this.

(** ** A small instance, for the examples *)

(** A tokenizer in the manner of [commandline.Parse]: words are separated
    by spaces, single quotes group, and a quote left open is an error. *)
Fixpoint sample_words (s : string) (quoted : bool) (word : string)
  (done : list string) : list string * goerror :=
  match s with
  | EmptyString =>
      if quoted then ([], Some (PlainError "unterminated quote"))
      else (rev (if String.eqb word "" then done else word :: done), None)
  | String ch rest =>
      if Ascii.eqb ch "'"%char then sample_words rest (negb quoted) word done
      else if Ascii.eqb ch " "%char && negb quoted
      then sample_words rest false ""
             (if String.eqb word "" then done else word :: done)
      else sample_words rest quoted (word +:+ String ch "") done
  end.

Definition sample_Parse (s : string) : list string * goerror :=
  sample_words s false "" [].

Definition sample_ExpandEnv (environ : list (string * string)) (s : string)
  : string :=
  if String.eqb s "$HOME" then os_Getenv environ "HOME" else s.

(** An operating system with three programs: [fail] writes on both streams
    and exits with 3, [killed] ends on a signal (its [ExitCode()] is -1),
    [bash] greets and exits with 0; nothing else can be started. *)
Definition sample_os (w : World) (x : exec_Cmd) : ProcResult :=
  if String.eqb (cmd_Path x) "fail"
  then mkProcResult [(false, "out;"); (true, "err;")] (exited 3)
  else if String.eqb (cmd_Path x) "killed"
  then mkProcResult [] (Some (ExitError (-1)))
  else if String.eqb (cmd_Path x) "bash"
  then mkProcResult [(false, "hi")] (exited 0)
  else mkProcResult [] (Some (PlainError "executable file not found in $PATH")).

Definition sample_handler : Handler := mkHandler 7 (fun _ => None).

Definition sample_Command (command : string) : Command :=
  mkCommand command "" [] os_Stdin os_Stdout os_Stderr (Some 5%nat).

(** A world with one command at address 0, whose sink is the cell 5
    (holding 42), and the error handler [fn]. *)
Definition sample_world (command : string) (fn : option Handler) : World :=
  mkWorld (mkBsh RNil WNil WNil false fn [] "")
          [sample_Command command] (<[5%nat := 42]> ∅) []
          [("HOME", "/root")] [].

(** An operating system on which every process writes a line and exits
    with [N], and one on which nothing can be started. *)
Definition sample_exits (N : Z) (w : World) (x : exec_Cmd) : ProcResult :=
  mkProcResult [(false, "out;")] (exited N).

Definition sample_absent (w : World) (x : exec_Cmd) : ProcResult :=
  mkProcResult [] (Some (PlainError "executable file not found in $PATH")).

(** The runner that captures the text, for each strategy, and the prefix
    of its warning. *)
Definition Str_runner
  (parse : string -> list string * goerror)
  (os : World -> exec_Cmd -> ProcResult)
  (direct : bool) (c : nat) : Act string :=
  if direct then RunStr parse os c else BashStr os c.

Definition warning_prefix (direct : bool) : string :=
  if direct then "unexpected error in " else "unexpected error in bash -c ".

(** * The rest of the command and of the context *)

(** ** Reading a command back *)

Definition StdIn (c : nat) : Act Reader :=
  this <- deref c ;; ret (in_ this).

Definition StdOut (c : nat) : Act Writer :=
  this <- deref c ;; ret (out this).

Definition StdErr (c : nat) : Act Writer :=
  this <- deref c ;; ret (err this).

(** ** The echo filters *)

Definition set_echoFilters (l : list string) (b : Bsh) : Bsh :=
  mkBsh (Stdin b) (Stdout b) (Stderr b) (DisableColor b) (fnErr b) l
        (verboseEnvVar b).

Definition slice_out_of_range : PanicValue :=
  RuntimeError "slice bounds out of range [:-1]".

Definition PushEchoFilter (str : string) : Act unit :=
  modify_world (fun w =>
    set_bsh (set_echoFilters (echoFilters (w_bsh w) ++ [str]) (w_bsh w)) w).

(** [b.echoFilters[:len(b.echoFilters)-1]]: a run-time error on the empty
    slice. *)
Definition PopEchoFilter : Act unit :=
  fun w =>
    match echoFilters (w_bsh w) with
    | [] => (Fault slice_out_of_range, w)
    | l =>
        (Ret tt,
         set_bsh (set_echoFilters (take (length l - 1) l) (w_bsh w)) w)
    end.

(** ** Verbosity *)

(** [os.Setenv] on Unix: a key that is empty or holds [=] or a NUL byte,
    and a value that holds a NUL byte, are refused; otherwise the variable
    is overwritten where it stands, or added at the end. *)
Fixpoint has_byte (c : ascii) (s : string) : bool :=
  match s with
  | EmptyString => false
  | String c' rest => Ascii.eqb c' c || has_byte c rest
  end.

Definition valid_env_key (key : string) : bool :=
  negb (String.eqb key "") && negb (has_byte "="%char key)
  && negb (has_byte "000"%char key).

Fixpoint env_set (environ : list (string * string)) (key value : string)
  : list (string * string) :=
  match environ with
  | [] => [(key, value)]
  | (k, v) :: rest =>
      if String.eqb k key then (key, value) :: rest
      else (k, v) :: env_set rest key value
  end.

Definition set_environ (l : list (string * string)) (w : World) : World :=
  mkWorld (w_bsh w) (w_cmds w) (w_ints w) (w_builders w) l (w_log w).

Definition os_Setenv (key value : string) : Act goerror :=
  fun w =>
    if valid_env_key key && negb (has_byte "000"%char value)
    then (Ret None, set_environ (env_set (w_environ w) key value) w)
    else (Ret (Some (PlainError "setenv: invalid argument")), w).

Definition strconv_FormatBool (v : bool) : string :=
  if v then "true" else "false".

Definition SetVerbose (v : bool) : Act unit :=
  modify_world (fun w =>
    if (String.length (verboseEnvVar (w_bsh w)) =? 0)%nat
    then set_bsh (set_verboseEnvVar mageVerboseEnvVar (w_bsh w)) w
    else w) ;;;
  w <- get_world ;;
  os_Setenv (verboseEnvVar (w_bsh w)) (strconv_FormatBool v) ;;;
  ret tt.

Definition SetVerboseEnvVarName (s : string) : Act unit :=
  wasVerbose <- IsVerbose ;;
  modify_world (fun w => set_bsh (set_verboseEnvVar s (w_bsh w)) w) ;;;
  SetVerbose wasVerbose.

(** ** Lines on the console *)

Definition Echo (str : string) : Act unit :=
  echo str [ensureNewline; colorEcho].

Definition Warn (str : string) : Act unit :=
  echo str [ensureNewline; colorWarn].

(** [v] occurs in [s] as a run of consecutive bytes. *)
Fixpoint occurs (v s : string) : bool :=
  String.prefix v s ||
  match s with
  | EmptyString => false
  | String _ rest => occurs v rest
  end.


(** [t] is [s] with some runs of bytes, possibly empty ones, replaced by
    [new]. *)
Inductive censored (new : string) : string -> string -> Prop :=
| censored_nil : censored new "" ""
| censored_keep c s t :
    censored new s t -> censored new (String c s) (String c t)
| censored_cut u s t :
    censored new s t -> censored new (u +:+ s) (new +:+ t).

Fixpoint string_drop (n : nat) (s : string) : string :=
  match n, s with
  | O, _ => s
  | S k, String _ rest => string_drop k rest
  | S _, EmptyString => EmptyString
  end.

Definition star_free (v : string) : bool := negb (has_byte "*"%char v).


(** ** Sequences of calls and their outcome *)

(** Pushing the filters of a list, first to last, and popping [n] times. *)
Fixpoint push_all (l : list string) : Act unit :=
  match l with
  | [] => ret tt
  | s :: rest => PushEchoFilter s ;;; push_all rest
  end.

Fixpoint pop_n (n : nat) : Act unit :=
  match n with
  | O => ret tt
  | S k => PopEchoFilter ;;; pop_n k
  end.

(** How a call ended: it returned ([None]) or panicked. *)
Definition outcome {A} (x : Res A * World) : option PanicValue :=
  match fst x with
  | Ret _ => None
  | Fault p => Some p
  end.

Definition runner_outcome
  (parse : string -> list string * goerror)
  (os : World -> exec_Cmd -> ProcResult)
  (r : Runner) (c : nat) (w : World) : option PanicValue :=
  match r with
  | rRun => outcome (Run parse os c w)
  | rRunStr => outcome (RunStr parse os c w)
  | rRunErr => outcome (RunErr parse os c w)
  | rRunExitStatus => outcome (RunExitStatus parse os c w)
  | rBash => outcome (Bash os c w)
  | rBashStr => outcome (BashStr os c w)
  | rBashErr => outcome (BashErr os c w)
  | rBashExitStatus => outcome (BashExitStatus os c w)
  end.


#[global] Instance echoOpt_eq_dec : EqDecision echoOpt.
Proof. solve_decision. Defined.

(** The warnings a log records, in order. *)
Definition warnings (l : list Event) : list string :=
  omap (fun ev =>
          match ev with
          | EvEcho str opts =>
              if bool_decide (opts = [ensureNewline; colorWarn])
              then Some str else None
          | _ => None
          end) l.

(** [m] leaves the observation [f] of the world as it is. *)
Definition preserves {A X} (f : World -> X) (m : Act A) : Prop :=
  forall w, f (snd (m w)) = f w.


(** A call with its value forgotten: what is left is its outcome and its
    world. *)
Definition forget {A} (m : Act A) : Act unit :=
  fun w =>
    match m w with
    | (Ret _, w') => (Ret tt, w')
    | (Fault p, w') => (Fault p, w')
    end.

Definition runner
  (parse : string -> list string * goerror)
  (os : World -> exec_Cmd -> ProcResult)
  (r : Runner) (c : nat) : Act unit :=
  match r with
  | rRun => forget (Run parse os c)
  | rRunStr => forget (RunStr parse os c)
  | rRunErr => forget (RunErr parse os c)
  | rRunExitStatus => forget (RunExitStatus parse os c)
  | rBash => forget (Bash os c)
  | rBashStr => forget (BashStr os c)
  | rBashErr => forget (BashErr os c)
  | rBashExitStatus => forget (BashExitStatus os c)
  end.

(** What a runner does with the error of its strategy; [b] is the builder
    of the runners that capture the text. *)
Definition runner_tail (r : Runner) (c b : nat) (e : goerror) : Act unit :=
  match r with
  | rRun | rBash => escalate c (warning_prefix (is_direct r)) e
  | rRunStr | rBashStr =>
      escalate c (warning_prefix (is_direct r)) e ;;;
      forget (Builder_String b)
  | rRunErr | rBashErr => ret tt
  | rRunExitStatus | rBashExitStatus =>
      escalate c (warning_prefix (is_direct r)) (snd (extractExitStatus e))
  end.


(** What a modifier makes of the command it is called on. *)
Definition effect
  (expand : list (string * string) -> string -> string)
  (environ : list (string * string)) (m : Modifier) (this : Command)
  : Command :=
  match m with
  | mIn r => set_in r this
  | mOut wr => set_out wr this
  | mErr wr => set_err wr this
  | mOutErr wr => set_err wr (set_out wr this)
  | mExitStatus n => set_exitStatus n this
  | mExpandEnv => set_raw (expand environ (raw this)) this
  | mEnv vars => set_env (env this ++ vars) this
  | mDir d => set_dir d this
  end.

(** Two modifiers that assign no common field. *)
Definition independent (m1 m2 : Modifier) : bool :=
  forallb (fun f => negb (bool_decide (f ∈ assigned m2))) (assigned m1).


(** * Files and folders *)

(** The file helpers of [fs.go], [fscopy.go] and [fsfile.go] call the
    operating system. Its answers are variables of the section below, and
    each may depend on the calls made so far; the calls are recorded, in
    order, beside the world. Of the two versions [fs.go] holds, the first
    is embedded: its [InDir] looks the folder up before making it and
    defers the change back. A [[]byte] is a [string], as the bytes of a
    Go string are. *)

Inductive Errno : Type :=
| ENOENT | EACCES | EEXIST | EISDIR | ENOTDIR | ENOSPC | EIO.

(** The errors of the file helpers: an error of the os package, which
    names the operation, the path and the cause; an error made by
    [fmt.Errorf] with no [%w]; one made with [%w] around another error
    ([msg] is the text before it). *)
Inductive fs_error : Type :=
| PathError (op path : string) (errno : Errno)
| Errorf (msg : string)
| Errorf_w (msg : string) (inner : fs_error).

(** [os.IsNotExist]: it looks into the errors of the os package only, not
    into what [fmt.Errorf] wraps. *)
Definition os_IsNotExist (e : fs_error) : bool :=
  match e with
  | PathError _ _ ENOENT => true
  | _ => false
  end.

Definition errno_text (e : Errno) : string :=
  match e with
  | ENOENT => "no such file or directory"
  | EACCES => "permission denied"
  | EEXIST => "file exists"
  | EISDIR => "is a directory"
  | ENOTDIR => "not a directory"
  | ENOSPC => "no space left on device"
  | EIO => "input/output error"
  end.

(** The same error as a value of [error], to hand it to [Panic]. *)
Fixpoint as_error (e : fs_error) : error :=
  match e with
  | PathError op path errno =>
      PlainError (op +:+ " " +:+ path +:+ ": " +:+ errno_text errno)
  | Errorf msg => PlainError msg
  | Errorf_w msg inner => WrapError msg (as_error inner)
  end.

Record FileInfo : Type := mkFileInfo {
  fi_IsDir : bool;
  fi_IsRegular : bool;
  fi_Size : Z
}.

(** An entry of a folder, as [os.ReadDir] gives it, and an entry of the
    list [CopyContents] works through. *)
Record DirEntry : Type := mkDirEntry {
  de_Name : string;
  de_IsDir : bool
}.

Record copyEntry : Type := mkCopyEntry {
  srcPath : string;
  dstPath : string;
  isDir : bool
}.

Inductive Syscall : Type :=
| SysStat (path : string)
| SysOpen (path : string) (ok : bool)
| SysFstat (path : string)
| SysCreate (path : string) (ok : bool)
| SysOpenAppend (path : string) (ok : bool)
| SysCopy (dst src : string)
| SysWrite (path : string) (data : string)
| SysClose (path : string)
| SysGetwd
| SysChdir (dir : string)
| SysMkdirAll (dir : string)
| SysReadDir (path : string)
| SysMkdirTemp (dir pattern : string)
| SysRemoveAll (dir : string).

Record Sys : Type := mkSys {
  sys_world : World;
  sys_calls : list Syscall
}.

Definition SAct (A : Type) : Type := Sys -> Res A * Sys.

Definition sret {A} (a : A) : SAct A := fun s => (Ret a, s).

Definition sbind {A B} (m : SAct A) (k : A -> SAct B) : SAct B :=
  fun s =>
    match m s with
    | (Ret a, s') => k a s'
    | (Fault p, s') => (Fault p, s')
    end.

Notation "x <~ m ;; k" := (sbind m (fun x => k))
  (at level 62, m at next level, right associativity).
Notation "m ;;~ k" := (sbind m (fun _ => k))
  (at level 62, right associativity).

(** A procedure of the context, run beside the record of calls. *)
Definition lift {A} (m : Act A) : SAct A :=
  fun s =>
    match m (sys_world s) with
    | (r, w') => (r, mkSys w' (sys_calls s))
    end.

(** A call of the operating system: its answer, and its record. *)
Definition syscall {R} (answer : list Syscall -> R) (record : R -> Syscall)
  : SAct R :=
  fun s =>
    let r := answer (sys_calls s) in
    (Ret r, mkSys (sys_world s) (sys_calls s ++ [record r])).

(** [defer d] before [body]: [d] runs when [body] is left, by a return or
    by a panic; a panic of [d] takes the place of the one under way. *)
Definition defer {A} (d : SAct unit) (body : SAct A) : SAct A :=
  fun s =>
    match body s with
    | (r, s1) =>
        match d s1 with
        | (Ret _, s2) => (r, s2)
        | (Fault q, s2) => (Fault q, s2)
        end
    end.

Definition is_ok {E} (r : option E) : bool :=
  match r with
  | None => true
  | Some _ => false
  end.

Definition path_error (op path : string) (r : option Errno) : option fs_error :=
  match r with
  | None => None
  | Some errno => Some (PathError op path errno)
  end.

Definition sPanic (e : fs_error) : SAct unit :=
  lift (Panic (Some (as_error e))).

(** [fmt.Sprintf("%d", n)] *)
Definition fmt_d (n : Z) : string := NilZero.string_of_int (Z.to_int n).

Section Files.

Variable os_Stat : list Syscall -> string -> Errno + FileInfo.
Variable os_Open : list Syscall -> string -> option Errno.
Variable file_Stat : list Syscall -> string -> Errno + FileInfo.
Variable os_Create : list Syscall -> string -> option Errno.
Variable os_OpenFile : list Syscall -> string -> option Errno.
Variable io_Copy : list Syscall -> string -> string -> Z * option Errno.
Variable io_Write : list Syscall -> string -> string -> option Errno.
Variable os_Getwd : list Syscall -> string * option Errno.
Variable os_Chdir : list Syscall -> string -> option Errno.
Variable os_MkdirAll : list Syscall -> string -> option Errno.

(** [os.ReadDir] gives the entries it could read, beside the error if
    there is one. *)
Variable os_ReadDir : list Syscall -> string -> list DirEntry * option Errno.

Variable filepath_Join : string -> string -> string.

(** [os.TempDir] reads the environment; [os.MkdirTemp] gives the path of
    the folder it made. *)
Variable os_TempDir : list (string * string) -> string.
Variable os_MkdirTemp :
  list Syscall -> string -> string -> string * option Errno.
Variable os_RemoveAll : list Syscall -> string -> option Errno.

Definition Close (path : string) : SAct unit :=
  syscall (fun _ => tt) (fun _ => SysClose path).

(** *** fs.go *)

Definition Getwd : SAct string :=
  r <~ syscall os_Getwd (fun _ => SysGetwd) ;;
  match snd r with
  | Some errno => sPanic (PathError "getwd" "" errno)
  | None => sret tt
  end ;;~
  sret (fst r).

Definition Chdir (dir : string) : SAct unit :=
  lift (Verbosef ("Chdir: " +:+ dir)) ;;~
  r <~ syscall (fun h => os_Chdir h dir) (fun _ => SysChdir dir) ;;
  match r with
  | Some errno => sPanic (PathError "chdir" dir errno)
  | None => sret tt
  end.

Definition MkdirAll (dir : string) : SAct unit :=
  lift (Verbosef ("MkdirAll: " +:+ dir)) ;;~
  r <~ syscall (fun h => os_MkdirAll h dir) (fun _ => SysMkdirAll dir) ;;
  match r with
  | Some errno => sPanic (PathError "mkdir" dir errno)
  | None => sret tt
  end.

(** The first lines of [Exists], [IsFile] and [IsDir]: the answer of
    [os.Stat], an error other than "does not exist" being handed to
    [Panic]. *)
Definition Stat_quietly (path : string) : SAct (option FileInfo) :=
  r <~ syscall (fun h => os_Stat h path) (fun _ => SysStat path) ;;
  match r with
  | inl errno =>
      (if negb (os_IsNotExist (PathError "stat" path errno))
       then sPanic (PathError "stat" path errno)
       else sret tt) ;;~
      sret None
  | inr fi => sret (Some fi)
  end.

Definition Exists (path : string) : SAct bool :=
  r <~ Stat_quietly path ;;
  match r with
  | None => sret false
  | Some _ => sret true
  end.

Definition IsFile (path : string) : SAct bool :=
  r <~ Stat_quietly path ;;
  match r with
  | None => sret false
  | Some fi => sret (negb (fi_IsDir fi))
  end.

Definition IsDir (path : string) : SAct bool :=
  r <~ Stat_quietly path ;;
  match r with
  | None => sret false
  | Some fi => sret (fi_IsDir fi)
  end.

Definition InDir (path : string) (fn : SAct unit) : SAct unit :=
  prev <~ Getwd ;;
  there <~ Exists path ;;
  (if negb there then MkdirAll path else sret tt) ;;~
  Chdir path ;;~
  defer (Chdir prev) fn.

Definition RemoveAll (dir : string) : SAct unit :=
  lift (Verbosef ("RemoveAll: " +:+ dir)) ;;~
  r <~ syscall (fun h => os_RemoveAll h dir) (fun _ => SysRemoveAll dir) ;;
  match r with
  | Some errno => sPanic (PathError "unlinkat" dir errno)
  | None => sret tt
  end.

(** [MkdirTemp] returns the path and the function that cleans up. *)
Definition MkdirTemp : SAct (string * SAct unit) :=
  fun s =>
    let ostmp := os_TempDir (w_environ (sys_world s)) in
    (r <~ syscall (fun h => os_MkdirTemp h ostmp "bsh_*")
                  (fun _ => SysMkdirTemp ostmp "bsh_*") ;;
     match snd r with
     | Some errno => sPanic (PathError "mkdir" ostmp errno)
     | None => sret tt
     end ;;~
     lift (Verbosef ("MkdirTemp: " +:+ fst r)) ;;~
     sret (fst r, RemoveAll (fst r))) s.

Definition InTempDir (fn : SAct unit) : SAct unit :=
  made <~ MkdirTemp ;;
  defer (snd made) (InDir (fst made) fn).

(** *** fscopy.go *)

Definition copyImpl (src dst : string) : SAct (option fs_error) :=
  lift (Verbosef ("Copy: " +:+ src +:+ " => " +:+ dst)) ;;~
  opened <~ syscall (fun h => os_Open h src) (fun r => SysOpen src (is_ok r)) ;;
  match opened with
  | Some errno =>
      if os_IsNotExist (PathError "open" src errno)
      then sret (Some (PathError "open" src errno))
      else sret (Some (Errorf_w ("error opening src " +:+ src)
                                (PathError "open" src errno)))
  | None =>
      defer (Close src)
        (info <~ syscall (fun h => file_Stat h src) (fun _ => SysFstat src) ;;
         match info with
         | inl errno =>
             sret (Some (Errorf_w ("error reading src " +:+ src)
                                  (PathError "stat" src errno)))
         | inr fi =>
             if negb (fi_IsRegular fi)
             then sret (Some (Errorf (src +:+ " is not a regular file")))
             else
               created <~ syscall (fun h => os_Create h dst)
                                  (fun r => SysCreate dst (is_ok r)) ;;
               match created with
               | Some errno =>
                   sret (Some (Errorf_w ("error creating dst " +:+ dst)
                                        (PathError "open" dst errno)))
               | None =>
                   defer (Close dst)
                     (copied <~ syscall (fun h => io_Copy h dst src)
                                        (fun _ => SysCopy dst src) ;;
                      match snd copied with
                      | Some errno =>
                          sret (Some (Errorf_w
                                        ("error copying from src " +:+ src
                                         +:+ " to dst " +:+ dst)
                                        (PathError "write" dst errno)))
                      | None =>
                          if negb (fst copied =? fi_Size fi)
                          then sret (Some (Errorf
                                 (src +:+ " has " +:+ fmt_d (fi_Size fi)
                                  +:+ " byte(s), but the copy " +:+ dst
                                  +:+ " only has " +:+ fmt_d (fst copied)
                                  +:+ " byte(s)")))
                          else sret None
                      end)
               end
         end)
  end.

Definition Copy (src dst : string) : SAct bool :=
  e <~ copyImpl src dst ;;
  match e with
  | Some e' =>
      if os_IsNotExist e' then sret false
      else sPanic e' ;;~ sret true
  | None => sret true
  end.

Definition MustCopy (src dst : string) : SAct unit :=
  e <~ copyImpl src dst ;;
  match e with
  | Some e' => sPanic e'
  | None => sret tt
  end.

(** The loop of [buildCopyList] over the entries of one folder; [rec] is
    [buildCopyList] itself, called on the folders among them. *)
Fixpoint walk
  (rec : string -> string -> list copyEntry -> SAct (option (list copyEntry)))
  (src dst : string) (contents : list DirEntry) (files : list copyEntry)
  : SAct (option (list copyEntry)) :=
  match contents with
  | [] => sret (Some files)
  | entry :: rest =>
      let srcPath := filepath_Join src (de_Name entry) in
      let dstPath := filepath_Join dst (de_Name entry) in
      let files1 := files ++ [mkCopyEntry srcPath dstPath (de_IsDir entry)] in
      if de_IsDir entry
      then r <~ rec srcPath dstPath files1 ;;
           match r with
           | None => sret None
           | Some files2 => walk rec src dst rest files2
           end
      else walk rec src dst rest files1
  end.

(** [buildCopyList], which recurses into the folders it meets, with a
    bound [fuel] on the depth; [None] is returned when the bound is
    reached. *)
Fixpoint buildCopyList (fuel : nat) (src dst : string)
  (files : list copyEntry) : SAct (option (list copyEntry)) :=
  match fuel with
  | O => sret None
  | S fuel' =>
      r <~ syscall (fun h => os_ReadDir h src) (fun _ => SysReadDir src) ;;
      match snd r with
      | Some errno => sPanic (PathError "open" src errno)
      | None => sret tt
      end ;;~
      walk (buildCopyList fuel') src dst (fst r) files
  end.

(** The loop of [CopyContents]. *)
Fixpoint copy_entries (toCopy : list copyEntry) : SAct unit :=
  match toCopy with
  | [] => sret tt
  | entry :: rest =>
      (if isDir entry
       then MkdirAll (dstPath entry)
       else MustCopy (srcPath entry) (dstPath entry)) ;;~
      copy_entries rest
  end.

Definition CopyContents (fuel : nat) (src dst : string)
  : SAct (option unit) :=
  is_dir <~ IsDir src ;;
  (if negb is_dir
   then sPanic (Errorf ("src " +:+ src
                        +:+ " is not a folder or does not exist"))
   else sret tt) ;;~
  is_dir <~ IsDir dst ;;
  (if negb is_dir
   then sPanic (Errorf ("dst " +:+ dst
                        +:+ " is not a folder or does not exist"))
   else sret tt) ;;~
  toCopy <~ buildCopyList fuel src dst [] ;;
  match toCopy with
  | None => sret None
  | Some entries => copy_entries entries ;;~ sret (Some tt)
  end.

(** *** fsfile.go *)

Definition should_never_happen : fs_error :=
  Errorf "this should never happen: writeImpl has both string and []byte".

Definition writeImpl (path str data : string) (append : bool)
  : SAct (option fs_error) :=
  if (0 <? String.length str)%nat && (0 <? String.length data)%nat
  then sret (Some should_never_happen)
  else
    opened <~ (if append
               then lift (Verbosef ("Append to file: " +:+ path)) ;;~
                    syscall (fun h => os_OpenFile h path)
                            (fun r => SysOpenAppend path (is_ok r))
               else lift (Verbosef ("Write to file: " +:+ path)) ;;~
                    syscall (fun h => os_Create h path)
                            (fun r => SysCreate path (is_ok r))) ;;
    match opened with
    | Some errno => sret (Some (PathError "open" path errno))
    | None =>
        defer (Close path)
          (written <~ (if (0 <? String.length str)%nat
                       then syscall (fun h => io_Write h path str)
                                    (fun _ => SysWrite path str)
                       else syscall (fun h => io_Write h path data)
                                    (fun _ => SysWrite path data)) ;;
           match written with
           | Some errno => sret (Some (PathError "write" path errno))
           | None => sret None
           end)
    end.

(** The line every panicking writer ends with. *)
Definition or_panic (e : option fs_error) : SAct unit :=
  match e with
  | Some e' => sPanic e'
  | None => sret tt
  end.

Definition Write (path contents : string) : SAct unit :=
  e <~ writeImpl path contents "" false ;; or_panic e.

Definition WriteErr (path contents : string) : SAct (option fs_error) :=
  writeImpl path contents "" false.

Definition WriteBytes (path data : string) : SAct unit :=
  e <~ writeImpl path "" data false ;; or_panic e.

Definition WriteBytesErr (path data : string) : SAct (option fs_error) :=
  writeImpl path "" data false.

Definition Append (path contents : string) : SAct unit :=
  e <~ writeImpl path contents "" true ;; or_panic e.

Definition AppendErr (path contents : string) : SAct (option fs_error) :=
  writeImpl path contents "" true.

Definition AppendBytes (path data : string) : SAct unit :=
  e <~ writeImpl path "" data true ;; or_panic e.

Definition AppendBytesErr (path data : string) : SAct (option fs_error) :=
  writeImpl path "" data true.

End Files.

(** The successful opens of a record of calls, and its closes. *)
Definition opens (l : list Syscall) : list string :=
  omap (fun ev =>
          match ev with
          | SysOpen path true | SysCreate path true
          | SysOpenAppend path true => Some path
          | _ => None
          end) l.

Definition closes (l : list Syscall) : list string :=
  omap (fun ev => match ev with SysClose path => Some path | _ => None end) l.

Definition creations (l : list Syscall) : list string :=
  omap (fun ev => match ev with SysCreate path _ => Some path | _ => None end) l.


(** The calls a procedure adds to the record. *)
Definition new_calls {A} (m : SAct A) (s : Sys) : list Syscall :=
  drop (length (sys_calls s)) (sys_calls (snd (m s))).

(** [readable h src]: after the calls [h], [src] can be opened and is a
    regular file. *)
Definition readable
  (os_Open : list Syscall -> string -> option Errno)
  (file_Stat : list Syscall -> string -> Errno + FileInfo)
  (h : list Syscall) (src : string) : bool :=
  match os_Open h src with
  | Some _ => false
  | None =>
      match file_Stat (h ++ [SysOpen src true]) src with
      | inl _ => false
      | inr fi => fi_IsRegular fi
      end
  end.

(** A file system for the examples: the regular file [a.txt] of three
    bytes, the folder [dir], the unreadable [locked], and nothing else;
    the working directory is [/home] and every write succeeds. *)
Definition sample_Stat (h : list Syscall) (path : string) : Errno + FileInfo :=
  if String.eqb path "a.txt" then inr (mkFileInfo false true 3)
  else if String.eqb path "dir" then inr (mkFileInfo true false 0)
  else if String.eqb path "locked" then inl EACCES
  else inl ENOENT.

Definition sample_Open (h : list Syscall) (path : string) : option Errno :=
  match sample_Stat h path with
  | inl errno => Some errno
  | inr _ => None
  end.

Definition sample_Create (h : list Syscall) (path : string) : option Errno :=
  if String.eqb path "dir" then Some EISDIR else None.

Definition sample_io_Copy (h : list Syscall) (dst src : string)
  : Z * option Errno := (3, None).

Definition sample_io_Write (h : list Syscall) (path data : string)
  : option Errno := None.

Definition sample_Getwd (h : list Syscall) : string * option Errno :=
  ("/home", None).

Definition sample_Chdir (h : list Syscall) (dir : string) : option Errno :=
  None.

Definition sample_sys (fn : option Handler) : Sys :=
  mkSys (sample_world "" fn) [].

(** A procedure that panics, as a [fn] for [InDir]. *)
Definition sample_crash : SAct unit :=
  fun s => (Fault (RuntimeError "boom"), s).


(** [balanced m s]: among the calls [m] adds to the record of [s], every
    file opened is closed, the last opened first. *)
Definition balanced {A} (m : SAct A) (s : Sys) : Prop :=
  closes (new_calls m s) = rev (opens (new_calls m s)).

(** [listing rd join h src dst l h']: [l] lists what is under the folder
    [src] as [rd] ([os.ReadDir]) answers it, read after the calls [h]:
    the entries [rd] gives for [src], in its order, each with its path
    under [src] and the path of its copy under [dst], and every folder
    followed at once by the listing of that folder, read in its turn.
    [h'] is the record of calls when all is read. [listing_entries] is the
    same for the entries [contents] of a folder already read. *)
Inductive listing
  (rd : list Syscall -> string -> list DirEntry * option Errno)
  (join : string -> string -> string)
  : list Syscall -> string -> string -> list copyEntry -> list Syscall
    -> Prop :=
| listing_folder h src dst l h' :
    listing_entries rd join src dst (h ++ [SysReadDir src]) (fst (rd h src))
      l h' ->
    listing rd join h src dst l h'
with listing_entries
  (rd : list Syscall -> string -> list DirEntry * option Errno)
  (join : string -> string -> string)
  : string -> string -> list Syscall -> list DirEntry -> list copyEntry
    -> list Syscall -> Prop :=
| listing_done src dst h : listing_entries rd join src dst h [] [] h
| listing_file src dst h name rest l h' :
    listing_entries rd join src dst h rest l h' ->
    listing_entries rd join src dst h (mkDirEntry name false :: rest)
      (mkCopyEntry (join src name) (join dst name) false :: l) h'
| listing_subfolder src dst h name rest inside h1 l h' :
    listing rd join h (join src name) (join dst name) inside h1 ->
    listing_entries rd join src dst h1 rest l h' ->
    listing_entries rd join src dst h (mkDirEntry name true :: rest)
      (mkCopyEntry (join src name) (join dst name) true :: inside ++ l) h'.

(** The calls that only look at the file system. *)
Definition is_lookup (c : Syscall) : bool :=
  match c with
  | SysStat _ | SysReadDir _ => true
  | _ => false
  end.

(** [appends P m]: whatever happens, [m] only adds calls to the record,
    and those satisfy [P]. [phased m]: the calls [m] adds that look at the
    file system all come before the others. *)
Definition appends {A} (P : Syscall -> bool) (m : SAct A) : Prop :=
  forall s, exists l,
    sys_calls (snd (m s)) = sys_calls s ++ l /\ forallb P l = true.

Definition phased {A} (m : SAct A) : Prop :=
  forall s, exists l1 l2,
    sys_calls (snd (m s)) = sys_calls s ++ l1 ++ l2 /\
    forallb is_lookup l1 = true /\
    forallb (fun c => negb (is_lookup c)) l2 = true.

(** A folder tree for the examples: [dir] holds the file [f] and the
    folder [sub], which holds the file [g]. *)
Definition sample_Join (dir name : string) : string :=
  dir +:+ "/" +:+ name.

Definition sample_ReadDir (h : list Syscall) (path : string)
  : list DirEntry * option Errno :=
  if String.eqb path "dir"
  then ([mkDirEntry "f" false; mkDirEntry "sub" true], None)
  else if String.eqb path "dir/sub"
  then ([mkDirEntry "g" false], None)
  else ([], Some ENOENT).

Definition sample_MkdirTemp (h : list Syscall) (dir pattern : string)
  : string * option Errno :=
  (dir +:+ "/bsh_1", None).

Definition sample_rank (path : string) : nat :=
  if String.eqb path "dir" then 1%nat else 0%nat.

(** * Properties *)

(** ** Strings, lists and logs *)

Lemma string_app_cons ch (a b : string) :
  String ch a +:+ b = String ch (a +:+ b).
Proof. reflexivity. Qed.

Lemma string_app_assoc (a b c : string) : (a +:+ b) +:+ c = a +:+ (b +:+ c).
Proof.
  induction a as [|ch a IH]; [reflexivity |].
  rewrite !string_app_cons. f_equal. exact IH.
Qed.

Lemma string_app_nil_r (a : string) : a +:+ "" = a.
Proof.
  induction a as [|ch a IH]; [reflexivity |].
  rewrite string_app_cons. f_equal. exact IH.
Qed.

Lemma list_alter_twice {A} (f g : A -> A) (l : list A) (i : nat) :
  alter f i (alter g i l) = alter (fun x => f (g x)) i l.
Proof.
  revert i. induction l as [|a l IH]; intros [|i]; simpl; try reflexivity.
  f_equal. apply IH.
Qed.

Lemma stores_snoc l ev :
  stores (l ++ [ev]) =
  stores l ++ match ev with EvStore a n => [(a, n)] | _ => [] end.
Proof. unfold stores. rewrite omap_app. destruct ev; reflexivity. Qed.

Lemma runs_snoc l ev :
  runs (l ++ [ev]) = runs l ++ match ev with EvRun x => [x] | _ => [] end.
Proof. unfold runs. rewrite omap_app. destruct ev; reflexivity. Qed.

Lemma handled_snoc l ev :
  handled (l ++ [ev]) =
  handled l ++ match ev with EvHandler i e => [(i, e)] | _ => [] end.
Proof. unfold handled. rewrite omap_app. destruct ev; reflexivity. Qed.

Ltac log_simpl :=
  rewrite ?stores_snoc, ?runs_snoc, ?handled_snoc; simpl; rewrite ?app_nil_r.

(** ** The echo filters *)

(** *** Prefixes and occurrences *)

Lemma prefix_nil_l s : String.prefix "" s = true.
Proof. destruct s; reflexivity. Qed.

Lemma prefix_cons a v b s :
  String.prefix (String a v) (String b s) =
  (if Ascii.eqb a b then String.prefix v s else false).
Proof.
  simpl. destruct (ascii_dec a b) as [-> | Hne].
  - now rewrite Ascii.eqb_refl.
  - destruct (Ascii.eqb_spec a b); [contradiction | reflexivity].
Qed.

Lemma prefix_nil_r v : String.prefix v "" = true -> v = "".
Proof. destruct v; [reflexivity | discriminate]. Qed.

Lemma prefix_spec v s :
  String.prefix v s = true <-> exists r, s = v +:+ r.
Proof.
  revert s. induction v as [| a v IH]; intros s.
  - rewrite prefix_nil_l. split; [intros _; now exists s | reflexivity].
  - destruct s as [| b s].
    + split; [discriminate | intros [r Hr]; discriminate].
    + rewrite prefix_cons. destruct (Ascii.eqb_spec a b) as [-> | Hne].
      * rewrite IH. split; intros [r Hr]; exists r.
        -- rewrite string_app_cons. now f_equal.
        -- rewrite string_app_cons in Hr. now injection Hr.
      * split; [discriminate |]. intros [r Hr].
        rewrite string_app_cons in Hr. injection Hr as Hab _.
        now symmetry in Hab.
Qed.

Lemma occurs_unfold v s :
  occurs v s =
  String.prefix v s ||
  match s with EmptyString => false | String _ rest => occurs v rest end.
Proof. destruct s; reflexivity. Qed.

Lemma occurs_nil_r v : v <> "" -> occurs v "" = false.
Proof. destruct v; [congruence | reflexivity]. Qed.

Lemma occurs_app_r v u s : occurs v s = true -> occurs v (u +:+ s) = true.
Proof.
  intros H. induction u as [| c u IH]; [exact H |].
  rewrite string_app_cons, occurs_unfold, IH. apply orb_true_r.
Qed.

(** [occurs] is the usual notion of a substring. *)
Lemma occurs_spec v s :
  occurs v s = true <-> exists a b, s = a +:+ v +:+ b.
Proof.
  split.
  - induction s as [| c s IH]; rewrite occurs_unfold; intros H;
      apply orb_true_iff in H as [H | H].
    + apply prefix_spec in H as [r Hr]. now exists "", r.
    + discriminate.
    + apply prefix_spec in H as [r Hr]. now exists "", r.
    + destruct (IH H) as (a & b & ->). now exists (String c a), b.
  - intros (a & b & ->). apply occurs_app_r.
    rewrite occurs_unfold.
    replace (String.prefix v (v +:+ b)) with true; [reflexivity |].
    symmetry. apply prefix_spec. now exists b.
Qed.

(** *** Replacement only censors *)

Lemma censored_refl new s : censored new s s.
Proof. induction s; constructor; assumption. Qed.

Lemma string_drop_app u s : string_drop (String.length u) (u +:+ s) = s.
Proof. induction u as [| c u IH]; [reflexivity | exact IH]. Qed.

Lemma string_length_app u s :
  String.length (u +:+ s) = (String.length u + String.length s)%nat.
Proof.
  induction u as [| c u IH]; [reflexivity |].
  rewrite string_app_cons. simpl. now rewrite IH.
Qed.

Lemma replace_scan_skip old new s k :
  replace_scan old new s k = replace_scan old new (string_drop k s) 0.
Proof.
  revert k. induction s as [| c s IH]; intros [| k]; try reflexivity.
  simpl. apply IH.
Qed.

Lemma replace_scan_cons old new c rest :
  replace_scan old new (String c rest) 0 =
  if String.prefix old (String c rest)
  then new +:+ replace_scan old new rest (String.length old - 1)
  else String c (replace_scan old new rest 0).
Proof. reflexivity. Qed.

(** One step of the scan at an occurrence of [old]. *)
Lemma replace_scan_match old new r :
  old <> "" ->
  replace_scan old new (old +:+ r) 0 = new +:+ replace_scan old new r 0.
Proof.
  intros Hold. destruct old as [| c old']; [congruence |].
  assert (Hp : String.prefix (String c old') (String c old' +:+ r) = true)
    by (apply prefix_spec; now exists r).
  rewrite string_app_cons in *. rewrite replace_scan_cons, Hp.
  rewrite replace_scan_skip. f_equal. f_equal.
  replace (String.length (String c old') - 1)%nat
    with (String.length old') by (simpl; lia).
  apply string_drop_app.
Qed.

Lemma replace_scan_miss old new c s :
  String.prefix old (String c s) = false ->
  replace_scan old new (String c s) 0 = String c (replace_scan old new s 0).
Proof. intros H. now rewrite replace_scan_cons, H. Qed.

Lemma replace_scan_censored old new s :
  old <> "" -> censored new s (replace_scan old new s 0).
Proof.
  intros Hold.
  assert (H : forall n s, (String.length s <= n)%nat ->
                censored new s (replace_scan old new s 0)).
  { clear s. induction n as [| n IH]; intros s Hlen.
    - destruct s; [constructor | simpl in Hlen; lia].
    - destruct s as [| c s]; [constructor |].
      destruct (String.prefix old (String c s)) eqn:Hp.
      + apply prefix_spec in Hp as [r Hr]. rewrite Hr.
        rewrite (replace_scan_match old new r Hold).
        apply censored_cut, IH.
        assert (Hl : String.length (String c s) =
                     (String.length old + String.length r)%nat)
          by (now rewrite Hr, string_length_app).
        destruct old; [congruence |]. simpl in Hl, Hlen. lia.
      + rewrite (replace_scan_miss old new c s Hp).
        apply censored_keep, IH. simpl in Hlen. lia. }
  apply (H (String.length s)). lia.
Qed.

Lemma insert_after_runes_censored new s more :
  censored new s (insert_after_runes new s more).
Proof.
  revert more. induction s as [| c s IH]; intros more; [constructor |].
  simpl insert_after_runes.
  destruct (match more with O => _ | S k => k end).
  - apply censored_keep. apply (censored_cut new "" s). apply IH.
  - apply censored_keep, IH.
Qed.

Lemma strings_ReplaceAll_censored s old new :
  censored new s (strings_ReplaceAll s old new).
Proof.
  unfold strings_ReplaceAll. destruct (String.eqb old new).
  - apply censored_refl.
  - destruct old as [| c old'].
    + apply (censored_cut new "" s), insert_after_runes_censored.
    + now apply replace_scan_censored.
Qed.

(** What holds of the message and is kept by censoring holds of the
    filtered message. *)
Lemma echo_filtered_ind (P : string -> Prop) filters str :
  P str ->
  (forall s t, censored "******" s t -> P s -> P t) ->
  P (echo_filtered filters str).
Proof.
  intros Hstr Hstep. unfold echo_filtered. revert str Hstr.
  induction filters as [| v filters IH]; intros str Hstr; [exact Hstr |].
  simpl. apply IH. eapply Hstep; [| exact Hstr].
  apply strings_ReplaceAll_censored.
Qed.

(** *** What censoring cannot create *)

Lemma star_free_cons c v :
  star_free (String c v) = true -> c <> "*"%char /\ star_free v = true.
Proof.
  unfold star_free. simpl. destruct (Ascii.eqb_spec c "*"%char); simpl.
  - discriminate.
  - now split.
Qed.

Lemma prefix_stars v t :
  star_free v = true -> v <> "" -> String.prefix v ("******" +:+ t) = false.
Proof.
  intros Hv Hne. destruct v as [| c v]; [congruence |].
  apply star_free_cons in Hv as [Hc _].
  change ("******" +:+ t) with (String "*"%char ("*****" +:+ t)).
  rewrite prefix_cons. destruct (Ascii.eqb_spec c "*"%char); congruence.
Qed.

Lemma occurs_stars v t :
  star_free v = true -> v <> "" ->
  occurs v ("******" +:+ t) = occurs v t.
Proof.
  intros Hv Hne.
  assert (H : forall c w, c = "*"%char ->
                occurs v (String c w) = occurs v w).
  { intros c w ->. rewrite occurs_unfold.
    destruct v as [| a v']; [congruence |].
    apply star_free_cons in Hv as [Ha _]. rewrite prefix_cons.
    destruct (Ascii.eqb_spec a "*"%char); [congruence | reflexivity]. }
  change ("******" +:+ t)
    with (String "*" (String "*" (String "*" (String "*" (String "*"
           (String "*" t)))))).
  now rewrite !H.
Qed.

(** A star-free word that starts the censored text starts the text. *)
Lemma censored_prefix v s t :
  censored "******" s t -> star_free v = true ->
  String.prefix v t = true -> String.prefix v s = true.
Proof.
  intros H. revert v. induction H as [| c s t H IH | u s t H IH]; intros v Hv Hp.
  - exact Hp.
  - destruct v as [| a v]; [apply prefix_nil_l |].
    rewrite prefix_cons in *. destruct (Ascii.eqb a c); [| discriminate].
    apply IH; [| exact Hp]. now apply star_free_cons in Hv.
  - destruct v as [| a v]; [apply prefix_nil_l |].
    rewrite prefix_stars in Hp by (exact Hv || discriminate). discriminate.
Qed.

(** A star-free word that occurs in the censored text occurs in the
    text. *)
Lemma censored_occurs v s t :
  censored "******" s t -> star_free v = true -> v <> "" ->
  occurs v t = true -> occurs v s = true.
Proof.
  intros H Hv Hne. induction H as [| c s t H IH | u s t H IH]; intros Ho.
  - exact Ho.
  - rewrite occurs_unfold in Ho. apply orb_true_iff in Ho as [Hp | Ho].
    + rewrite occurs_unfold.
      rewrite (censored_prefix v (String c s) (String c t)); auto.
      now constructor.
    + rewrite occurs_unfold, (IH Ho). apply orb_true_r.
  - rewrite occurs_stars in Ho by assumption. apply occurs_app_r, IH, Ho.
Qed.

(** Every byte of the censored text is a star or a byte of the text. *)
Lemma has_byte_app c u s :
  has_byte c (u +:+ s) = has_byte c u || has_byte c s.
Proof.
  induction u as [| a u IH]; [reflexivity |].
  rewrite string_app_cons. simpl. now rewrite IH, orb_assoc.
Qed.

Lemma has_byte_cons c a s :
  has_byte c (String a s) = Ascii.eqb a c || has_byte c s.
Proof. reflexivity. Qed.

Lemma has_byte_stars c : c <> "*"%char -> has_byte c "******" = false.
Proof.
  intros Hc.
  assert (H : Ascii.eqb "*"%char c = false)
    by (apply Ascii.eqb_neq; congruence).
  now rewrite !has_byte_cons, H.
Qed.

Lemma censored_has_byte c s t :
  censored "******" s t -> c <> "*"%char ->
  has_byte c t = true -> has_byte c s = true.
Proof.
  intros H Hc. induction H as [| a s t H IH | u s t H IH]; intros Hb.
  - exact Hb.
  - rewrite has_byte_cons in *. apply orb_true_iff in Hb as [Hb | Hb].
    + now rewrite Hb.
    + rewrite (IH Hb). apply orb_true_r.
  - rewrite has_byte_app in *. apply orb_true_iff in Hb as [Hb | Hb].
    + rewrite has_byte_stars in Hb by exact Hc. discriminate Hb.
    + rewrite (IH Hb). apply orb_true_r.
Qed.

(** The censored text of a non-empty text is not empty. *)
Lemma censored_nonempty s t :
  censored "******" s t -> s <> "" -> t <> "".
Proof.
  intros H Hs. destruct H as [| c s t H | u s t H].
  - congruence.
  - intros Heq. discriminate Heq.
  - intros Heq.
    change ("******" +:+ t) with (String "*"%char ("*****" +:+ t)) in Heq.
    discriminate Heq.
Qed.

(** *** A filter removes what it names *)

Lemma replace_scan_removes v s :
  star_free v = true -> v <> "" ->
  occurs v (replace_scan v "******" s 0) = false.
Proof.
  intros Hv Hne.
  assert (H : forall n s, (String.length s <= n)%nat ->
                occurs v (replace_scan v "******" s 0) = false).
  { clear s. induction n as [| n IH]; intros s Hlen.
    - destruct s; [now apply occurs_nil_r | simpl in Hlen; lia].
    - destruct s as [| c s]; [now apply occurs_nil_r |].
      destruct (String.prefix v (String c s)) eqn:Hp.
      + apply prefix_spec in Hp as [r Hr]. rewrite Hr.
        rewrite (replace_scan_match v "******" r Hne).
        rewrite occurs_stars by assumption. apply IH.
        assert (Hl : String.length (String c s) =
                     (String.length v + String.length r)%nat)
          by (now rewrite Hr, string_length_app).
        destruct v; [congruence |]. simpl in Hl, Hlen. lia.
      + rewrite (replace_scan_miss v "******" c s Hp).
        rewrite occurs_unfold.
        rewrite (IH s) by (simpl in Hlen; lia). rewrite orb_false_r.
        destruct (String.prefix v (String c (replace_scan v "******" s 0)))
          eqn:Hq; [| reflexivity].
        rewrite <- Hp. symmetry.
        apply (censored_prefix v (String c s)
                 (String c (replace_scan v "******" s 0))); auto.
        apply censored_keep. now apply replace_scan_censored. }
  apply (H (String.length s)). lia.
Qed.

Lemma star_free_not_stars v : star_free v = true -> String.eqb v "******" = false.
Proof.
  intros Hv. destruct (String.eqb_spec v "******") as [-> |]; [| reflexivity].
  discriminate.
Qed.

Lemma strings_ReplaceAll_removes v s :
  star_free v = true -> v <> "" ->
  occurs v (strings_ReplaceAll s v "******") = false.
Proof.
  intros Hv Hne. unfold strings_ReplaceAll.
  rewrite (star_free_not_stars v Hv).
  destruct v; [congruence |]. now apply replace_scan_removes.
Qed.

(** Once the filters were applied, no star-free filter occurs in the
    message any more. *)
Lemma echo_filtered_removes filters v str :
  v ∈ filters -> star_free v = true -> v <> "" ->
  occurs v (echo_filtered filters str) = false.
Proof.
  intros Hin Hv Hne. revert str.
  induction filters as [| v0 filters IH]; intros str.
  - now apply elem_of_nil in Hin.
  - apply elem_of_cons in Hin as [<- | Hin].
    + change (echo_filtered (v :: filters) str)
        with (echo_filtered filters (strings_ReplaceAll str v "******")).
      apply (echo_filtered_ind (fun s => occurs v s = false)).
      * now apply strings_ReplaceAll_removes.
      * intros s t Hc Hs. destruct (occurs v t) eqn:Ht; [| reflexivity].
        rewrite <- Hs. symmetry. now apply (censored_occurs v s t).
    + apply (IH Hin).
Qed.

(** *** The text [echo] prints *)

Lemma echo_flags_filter opts fl :
  ignoreFilter ∉ opts ->
  fl_filter (fold_left echo_flag opts fl) = fl_filter fl.
Proof.
  revert fl. induction opts as [| v opts IH]; intros fl Hn; [reflexivity |].
  apply not_elem_of_cons in Hn as [Hv Hn]. simpl. rewrite (IH _ Hn).
  destruct v; try reflexivity. congruence.
Qed.

Lemma echo_flags_newline opts fl :
  ensureNewline ∈ opts \/ fl_newline fl = true ->
  fl_newline (fold_left echo_flag opts fl) = true.
Proof.
  revert fl. induction opts as [| v opts IH]; intros fl H.
  - destruct H as [H | H]; [now apply elem_of_nil in H | exact H].
  - simpl. apply IH. destruct H as [H | H].
    + apply elem_of_cons in H as [<- | H]; [now right | now left].
    + right. destruct v; simpl; auto.
Qed.

Lemma last_byte_snoc s c : last_byte (s +:+ String c "") = Some c.
Proof.
  induction s as [| a s IH]; [reflexivity |].
  rewrite string_app_cons. destruct s as [| a' s']; [reflexivity |].
  rewrite string_app_cons in *. exact IH.
Qed.

Lemma last_byte_None s : last_byte s = None -> s = "".
Proof.
  induction s as [| a s IH]; [reflexivity |].
  destruct s as [| a' s']; [discriminate |]. intros H.
  specialize (IH H). discriminate.
Qed.

Lemma echo_filtered_empty filters :
  "" ∉ filters -> echo_filtered filters "" = "".
Proof.
  induction filters as [| v filters IH]; intros Hn; [reflexivity |].
  apply not_elem_of_cons in Hn as [Hv Hn].
  change (echo_filtered (v :: filters) "")
    with (echo_filtered filters (strings_ReplaceAll "" v "******")).
  replace (strings_ReplaceAll "" v "******") with ""; [exact (IH Hn) |].
  unfold strings_ReplaceAll. destruct (String.eqb v "******"); [reflexivity |].
  destruct v; [congruence | reflexivity].
Qed.

Lemma echo_filtered_nonempty filters str :
  str <> "" \/ "" ∈ filters -> echo_filtered filters str <> "".
Proof.
  revert str. induction filters as [| v filters IH]; intros str H.
  - destruct H as [H | H]; [exact H | now apply elem_of_nil in H].
  - change (echo_filtered (v :: filters) str)
      with (echo_filtered filters (strings_ReplaceAll str v "******")).
    destruct H as [H | H].
    + apply IH. left.
      apply (censored_nonempty str); [apply strings_ReplaceAll_censored | exact H].
    + apply elem_of_cons in H as [<- | H]; [| apply IH; now right].
      apply IH. left. unfold strings_ReplaceAll. simpl String.eqb.
      change ("******" +:+ insert_after_runes "******" str 0)
        with (String "*"%char ("*****" +:+ insert_after_runes "******" str 0)).
      discriminate.
Qed.

(** The shape of what [echo] prints: the message, filtered unless told
    otherwise, then a newline if one is asked for and missing, the whole
    between a colour and the reset if colours are on. *)
Lemma echo_text_shape b environ str opts out :
  echo_text b environ str opts = Ret out ->
  exists body,
    let str1 := if fl_filter (echo_flags opts)
                then echo_filtered (echoFilters b) str else str in
    (body = str1 \/
     fl_newline (echo_flags opts) = true /\
     last_byte str1 <> Some newline /\
     body = str1 +:+ String newline "") /\
    (fl_newline (echo_flags opts) = true -> last_byte body = Some newline) /\
    (out = body \/
     DisableColor b = false /\ os_LookupEnv environ "NO_COLOR" = None /\
     out = fl_color (echo_flags opts) +:+ body +:+ ansiReset).
Proof.
  unfold echo_text.
  set (str1 := if fl_filter (echo_flags opts) then _ else str).
  destruct (fl_newline (echo_flags opts)) eqn:Hnl.
  - destruct (last_byte str1) as [c |] eqn:Hlast; [| discriminate].
    intros H. injection H as <-.
    destruct (Ascii.eqb_spec c newline) as [-> | Hc].
    + exists str1. split; [now left |]. split; [auto |].
      destruct (negb (DisableColor b)) eqn:Hd; simpl; [| now left].
      destruct (0 <? String.length (fl_color (echo_flags opts)))%nat;
        simpl; [| now left].
      case_bool_decide as Hno; simpl; [now left |].
      right. destruct (DisableColor b); [discriminate |].
      repeat split. destruct (os_LookupEnv environ "NO_COLOR"); [| reflexivity].
      exfalso. apply Hno. eauto.
    + exists (str1 +:+ String newline ""). split.
      { right. repeat split. congruence. }
      split; [intros _; apply last_byte_snoc |].
      destruct (negb (DisableColor b)) eqn:Hd; simpl; [| now left].
      destruct (0 <? String.length (fl_color (echo_flags opts)))%nat;
        simpl; [| now left].
      case_bool_decide as Hno; simpl; [now left |].
      right. destruct (DisableColor b); [discriminate |].
      repeat split. destruct (os_LookupEnv environ "NO_COLOR"); [| reflexivity].
      exfalso. apply Hno. eauto.
  - intros H. injection H as <-. exists str1.
    split; [now left |]. split; [discriminate |].
    destruct (negb (DisableColor b)) eqn:Hd; simpl; [| now left].
    destruct (0 <? String.length (fl_color (echo_flags opts)))%nat;
      simpl; [| now left].
    case_bool_decide as Hno; simpl; [now left |].
    right. destruct (DisableColor b); [discriminate |].
    repeat split. destruct (os_LookupEnv environ "NO_COLOR"); [| reflexivity].
    exfalso. apply Hno. eauto.
Qed.

Lemma prefix_snoc c v x :
  has_byte c v = false ->
  String.prefix v (x +:+ String c "") = true -> String.prefix v x = true.
Proof.
  revert x. induction v as [| b v IH]; intros x Hc Hp; [apply prefix_nil_l |].
  rewrite has_byte_cons in Hc. apply orb_false_iff in Hc as [Hb Hc].
  destruct x as [| a x].
  - change ("" +:+ String c "") with (String c "") in Hp.
    rewrite prefix_cons, Hb in Hp. discriminate.
  - rewrite string_app_cons in Hp. rewrite prefix_cons in *.
    destruct (Ascii.eqb b a); [| discriminate]. now apply IH.
Qed.

Lemma occurs_snoc c v s :
  has_byte c v = false -> v <> "" ->
  occurs v (s +:+ String c "") = true -> occurs v s = true.
Proof.
  intros Hc Hne. induction s as [| a s IH]; intros Ho.
  - change ("" +:+ String c "") with (String c "") in Ho.
    rewrite occurs_unfold in Ho. rewrite (occurs_nil_r v Hne) in Ho.
    rewrite orb_false_r in Ho.
    apply (prefix_snoc c v "" Hc) in Ho. apply prefix_nil_r in Ho.
    congruence.
  - rewrite string_app_cons, occurs_unfold in Ho.
    apply orb_true_iff in Ho as [Hp | Ho].
    + rewrite occurs_unfold.
      rewrite (prefix_snoc c v (String a s) Hc);
        [reflexivity | now rewrite string_app_cons].
    + rewrite occurs_unfold, (IH Ho). apply orb_true_r.
Qed.

(** A filter that holds no star and no newline does not occur in the
    message part of what [echo] prints. When colours are off that part is
    all there is. *)
Theorem echo_hides_filter b environ str opts v out :
  v ∈ echoFilters b ->
  star_free v = true -> v <> "" -> has_byte newline v = false ->
  ignoreFilter ∉ opts ->
  echo_text b environ str opts = Ret out ->
  exists body,
    occurs v body = false /\
    (out = body \/ out = fl_color (echo_flags opts) +:+ body +:+ ansiReset) /\
    (DisableColor b = true -> out = body).
Proof.
  intros Hin Hv Hne Hnl Hopts Hout.
  destruct (echo_text_shape b environ str opts out Hout)
    as (body & Hbody & _ & Hcol).
  cbn zeta in Hbody.
  assert (Hff : fl_filter (echo_flags opts) = true)
    by (unfold echo_flags; now rewrite echo_flags_filter).
  rewrite Hff in Hbody.
  pose proof (echo_filtered_removes (echoFilters b) v str Hin Hv Hne) as Hrm.
  exists body. split; [| split].
  - destruct Hbody as [Hb | (_ & _ & Hb)]; rewrite Hb; [exact Hrm |].
    destruct (occurs v (echo_filtered (echoFilters b) str +:+ String newline ""))
      eqn:Ho; [| reflexivity].
    rewrite <- Hrm. symmetry. now apply (occurs_snoc newline).
  - destruct Hcol as [-> | (_ & _ & ->)]; [now left | now right].
  - intros Hd. destruct Hcol as [-> | (Hd' & _)]; [reflexivity | congruence].
Qed.

Lemma echo_hides_filter_witness :
  occurs "llama" ("alpha ****** gopher" +:+ String newline "") = false.
Proof.
  destruct (echo_hides_filter
              (mkBsh RNil WNil WNil true None ["llama"] "") []
              "alpha llama gopher" [ensureNewline; colorEcho] "llama"
              ("alpha ****** gopher" +:+ String newline ""))
    as (body & H1 & _ & H3).
  - apply list_elem_of_singleton. reflexivity.
  - reflexivity.
  - discriminate.
  - reflexivity.
  - intros H. apply elem_of_cons in H as [H | H]; [discriminate |].
    apply list_elem_of_singleton in H. discriminate.
  - reflexivity.
  - rewrite (H3 eq_refl). exact H1.
Defined.

(** A line is asked for with its newline: [echo] raises a run-time error
    exactly when the message is empty and no filter is the empty string;
    it raises no other. *)
Theorem echo_panics_on_empty b environ str opts :
  ensureNewline ∈ opts -> ignoreFilter ∉ opts ->
  (echo_text b environ str opts = Fault index_minus_one <->
   str = "" /\ "" ∉ echoFilters b) /\
  (forall p, echo_text b environ str opts = Fault p -> p = index_minus_one).
Proof.
  intros Hnl Hf. unfold echo_text, echo_flags.
  rewrite (echo_flags_filter opts _ Hf).
  rewrite (echo_flags_newline opts _ (or_introl Hnl)). cbn [fl_filter].
  destruct (last_byte (echo_filtered (echoFilters b) str)) as [c |] eqn:Hl.
  - split; [| discriminate]. split; [discriminate |].
    intros [-> Hn]. rewrite (echo_filtered_empty _ Hn) in Hl. discriminate.
  - split; [| intros p H; now injection H].
    split; [| reflexivity]. intros _. apply last_byte_None in Hl.
    split.
    + destruct (String.eqb_spec str "") as [-> | Hs]; [reflexivity |].
      exfalso. now apply (echo_filtered_nonempty (echoFilters b) str); [left |].
    + intros Hin.
      now apply (echo_filtered_nonempty (echoFilters b) str); [right |].
Qed.

Lemma echo_panics_on_empty_witness :
  echo_text (mkBsh RNil WNil WNil false None ["llama"] "") [] ""
            [ensureNewline; colorWarn] = Fault index_minus_one.
Proof.
  apply (echo_panics_on_empty
           (mkBsh RNil WNil WNil false None ["llama"] "") [] ""
           [ensureNewline; colorWarn]).
  - apply elem_of_cons. now left.
  - intros H. apply elem_of_cons in H as [H | H]; [discriminate |].
    apply list_elem_of_singleton in H. discriminate.
  - split; [reflexivity |]. intros H.
    apply list_elem_of_singleton in H. discriminate.
Defined.

Lemma echo_flags_no_newline opts fl :
  ensureNewline ∉ opts ->
  fl_newline (fold_left echo_flag opts fl) = fl_newline fl.
Proof.
  revert fl. induction opts as [| v opts IH]; intros fl Hn; [reflexivity |].
  apply not_elem_of_cons in Hn as [Hv Hn]. simpl. rewrite (IH _ Hn).
  destruct v; try reflexivity. congruence.
Qed.

(** With colours off, by the context or by [NO_COLOR], what [echo] prints
    holds only bytes of the message, stars, and a newline if one was asked
    for: no escape sequence is added, and no newline unless asked for.
    When a newline is asked for, as every caller but [Ask] and [Askf]
    does, the text ends with one. *)
Theorem echo_plain_text b environ str opts out :
  DisableColor b = true \/ is_Some (os_LookupEnv environ "NO_COLOR") ->
  echo_text b environ str opts = Ret out ->
  (ensureNewline ∈ opts -> last_byte out = Some newline) /\
  (forall c, has_byte c out = true ->
     c = "*"%char \/ (c = newline /\ ensureNewline ∈ opts) \/
     has_byte c str = true).
Proof.
  intros Hoff Hout.
  destruct (echo_text_shape b environ str opts out Hout)
    as (body & Hbody & Hlast & Hcol).
  cbn zeta in Hbody.
  assert (Hob : out = body).
  { destruct Hcol as [-> | (Hd & Hno & _)]; [reflexivity |].
    destruct Hoff as [Hd' | [x Hx]]; congruence. }
  subst out. split.
  { intros Hnl. apply Hlast. unfold echo_flags. apply echo_flags_newline.
    now left. }
  assert (Hstr1 : forall c,
    has_byte c (if fl_filter (echo_flags opts)
                then echo_filtered (echoFilters b) str else str) = true ->
    c = "*"%char \/ has_byte c str = true).
  { destruct (fl_filter (echo_flags opts)); [| now right].
    apply (echo_filtered_ind
             (fun s => forall c, has_byte c s = true ->
                         c = "*"%char \/ has_byte c str = true)).
    - now right.
    - intros s t Hc Hs c Hb.
      destruct (ascii_dec c "*"%char) as [-> | Hne]; [now left |].
      apply Hs. now apply (censored_has_byte c s t). }
  intros c Hb. destruct Hbody as [-> | (Hfl & _ & ->)].
  - destruct (Hstr1 c Hb); auto.
  - rewrite has_byte_app in Hb. apply orb_true_iff in Hb as [Hb | Hb].
    + destruct (Hstr1 c Hb); auto.
    + rewrite has_byte_cons, orb_false_r in Hb.
      apply Ascii.eqb_eq in Hb. right. left. split; [now symmetry |].
      destruct (decide (ensureNewline ∈ opts)) as [Hin | Hnin];
        [exact Hin |].
      unfold echo_flags in Hfl.
      rewrite (echo_flags_no_newline opts _ Hnin) in Hfl. discriminate.
Qed.

Lemma echo_plain_text_witness :
  last_byte ("****** llama gopher" +:+ String newline "") = Some newline.
Proof.
  apply (echo_plain_text
           (mkBsh RNil WNil WNil false None ["alpha"] "") [("NO_COLOR", "")]
           "alpha llama gopher" [ensureNewline; colorEcho]
           ("****** llama gopher" +:+ String newline "")).
  - right. now exists "".
  - reflexivity.
  - apply elem_of_cons. now left.
Defined.

(** ** Console lines are quiet *)

Lemma quiet_refl w : quiet w w.
Proof. now constructor. Qed.

Lemma quiet_trans w1 w2 w3 : quiet w1 w2 -> quiet w2 w3 -> quiet w1 w3.
Proof.
  intros [] []. constructor; etransitivity; eassumption.
Qed.

Lemma emit_echo_quiet str opts w :
  quiet w (snd (emit (EvEcho str opts) w)).
Proof. constructor; simpl; try reflexivity; now log_simpl. Qed.

Lemma append_nonempty s t : s <> "" -> s +:+ t <> "".
Proof.
  destruct s as [| a s]; [congruence |]. intros _.
  rewrite string_app_cons. discriminate.
Qed.

Lemma literal_nonempty a s t : String a s +:+ t <> "".
Proof. now apply append_nonempty. Qed.

(** A message that is not empty is rendered: [echo] returns. *)
Lemma echo_text_returns b environ str opts :
  str <> "" -> exists out, echo_text b environ str opts = Ret out.
Proof.
  intros Hne. unfold echo_text.
  set (str1 := if fl_filter (echo_flags opts) then _ else str).
  assert (Hne1 : str1 <> "").
  { unfold str1. destruct (fl_filter (echo_flags opts)); [| exact Hne].
    apply echo_filtered_nonempty. now left. }
  destruct (fl_newline (echo_flags opts)); [| eexists; reflexivity].
  destruct (last_byte str1) as [c |] eqn:Hl; [eexists; reflexivity |].
  now apply last_byte_None in Hl.
Qed.

Lemma echo_returns str opts w :
  str <> "" -> echo str opts w = emit (EvEcho str opts) w.
Proof.
  intros Hne. unfold echo.
  destruct (echo_text_returns (w_bsh w) (w_environ w) str opts Hne)
    as (out & ->).
  reflexivity.
Qed.

(** Whatever the message, [echo] prints its line or panics at once. *)
Lemma echo_outcome str opts w :
  echo str opts w = emit (EvEcho str opts) w \/
  exists p, echo str opts w = (Fault p, w).
Proof.
  unfold echo. destruct (echo_text _ _ str opts) as [out | p];
    [now left | right; now exists p].
Qed.

Lemma echo_quiet str opts w : quiet w (snd (echo str opts w)).
Proof.
  destruct (echo_outcome str opts w) as [-> | (p & ->)];
    [apply emit_echo_quiet | apply quiet_refl].
Qed.

Lemma IsVerbose_spec w :
  exists v w', IsVerbose w = (Ret v, w') /\ quiet w w'.
Proof.
  unfold IsVerbose, bind, modify_world, get_world, ret.
  destruct (String.length (verboseEnvVar (w_bsh w)) =? 0)%nat;
    eexists _, _; (split; [reflexivity |]); now constructor.
Qed.

Lemma Verbosef_spec msg w :
  msg <> "" ->
  exists w', Verbosef msg w = (Ret tt, w') /\ quiet w w'.
Proof.
  intros Hne.
  destruct (IsVerbose_spec w) as (v & w1 & Hv & Hq).
  unfold Verbosef, bind. rewrite Hv. destruct v; simpl.
  - rewrite (echo_returns _ _ _ Hne). eexists. split; [reflexivity |].
    eapply quiet_trans; [exact Hq | apply emit_echo_quiet].
  - eexists. split; [reflexivity | exact Hq].
Qed.

Lemma Verbose_spec str w :
  str <> "" ->
  exists w', Verbose str w = (Ret tt, w') /\ quiet w w'.
Proof. apply Verbosef_spec. Qed.

Lemma Warnf_spec msg w :
  msg <> "" ->
  exists w', Warnf msg w = (Ret tt, w') /\ quiet w w'.
Proof.
  intros Hne. unfold Warnf. rewrite (echo_returns _ _ _ Hne).
  eexists. split; [reflexivity | apply emit_echo_quiet].
Qed.

(** Whatever the message, a console line leaves the world quiet. *)
Lemma Verbosef_quiet msg w : quiet w (snd (Verbosef msg w)).
Proof.
  destruct (IsVerbose_spec w) as (v & w1 & Hv & Hq).
  unfold Verbosef, bind. rewrite Hv. destruct v; simpl; [| exact Hq].
  eapply quiet_trans; [exact Hq | apply echo_quiet].
Qed.

Lemma quiet_kept w w' : quiet w w' -> kept w w'.
Proof. intros []. now constructor. Qed.

Lemma kept_refl w : kept w w.
Proof. now constructor. Qed.

Lemma kept_trans w1 w2 w3 : kept w1 w2 -> kept w2 w3 -> kept w1 w3.
Proof. intros [] []. constructor; etransitivity; eassumption. Qed.

(** ** What the output of a process can change *)

Lemma deliver_all_cons x ch chunks w :
  deliver_all x (ch :: chunks) w =
  deliver_all x chunks
    (deliver (if fst ch then cmd_Stderr x else cmd_Stdout x) (snd ch) w).
Proof. reflexivity. Qed.

Lemma deliver_frame wr text w :
  w_cmds (deliver wr text w) = w_cmds w /\
  w_ints (deliver wr text w) = w_ints w /\
  w_environ (deliver wr text w) = w_environ w /\
  w_bsh (deliver wr text w) = w_bsh w /\
  stores (w_log (deliver wr text w)) = stores (w_log w) /\
  runs (w_log (deliver wr text w)) = runs (w_log w) /\
  handled (w_log (deliver wr text w)) = handled (w_log w) /\
  length (w_builders (deliver wr text w)) = length (w_builders w).
Proof.
  destruct wr; simpl; repeat split; try reflexivity; try now log_simpl.
  apply length_alter.
Qed.

Lemma deliver_all_frame x chunks w :
  w_cmds (deliver_all x chunks w) = w_cmds w /\
  w_ints (deliver_all x chunks w) = w_ints w /\
  w_environ (deliver_all x chunks w) = w_environ w /\
  w_bsh (deliver_all x chunks w) = w_bsh w /\
  stores (w_log (deliver_all x chunks w)) = stores (w_log w) /\
  runs (w_log (deliver_all x chunks w)) = runs (w_log w) /\
  handled (w_log (deliver_all x chunks w)) = handled (w_log w) /\
  length (w_builders (deliver_all x chunks w)) = length (w_builders w).
Proof.
  revert w. induction chunks as [|ch chunks IH]; intros w.
  - repeat split.
  - rewrite deliver_all_cons.
    destruct (IH (deliver (if fst ch then cmd_Stderr x else cmd_Stdout x)
                          (snd ch) w))
      as (H1 & H2 & H3 & H4 & H5 & H6 & H7 & H8).
    destruct (deliver_frame (if fst ch then cmd_Stderr x else cmd_Stdout x)
                            (snd ch) w)
      as (G1 & G2 & G3 & G4 & G5 & G6 & G7 & G8).
    repeat split; etransitivity; eassumption.
Qed.

(** A process whose two output streams are one builder appends to it
    every chunk it writes, in the order written. *)
Lemma deliver_all_builder x b chunks w :
  cmd_Stdout x = WBuf b -> cmd_Stderr x = WBuf b ->
  w_builders (deliver_all x chunks w) =
  alter (fun s => s +:+ fold_right String.append "" (map snd chunks)) b
        (w_builders w).
Proof.
  intros Hout Herr. revert w.
  induction chunks as [|ch chunks IH]; intros w.
  - simpl. symmetry. apply list_alter_id. intros s. apply string_app_nil_r.
  - rewrite deliver_all_cons, IH.
    replace (if fst ch then cmd_Stderr x else cmd_Stdout x) with (WBuf b)
      by (destruct (fst ch); congruence).
    simpl. rewrite list_alter_twice.
    apply list_alter_ext; [| reflexivity].
    intros s _. apply string_app_assoc.
Qed.

(** ** The helpers, step by step *)

Lemma bind_deref {B} c w this (k : Command -> Act B) :
  w_cmds w !! c = Some this -> bind (deref c) k w = k this w.
Proof. intros Hc. unfold bind, deref. now rewrite Hc. Qed.

Lemma bind_deref_nil {B} c w (k : Command -> Act B) :
  w_cmds w !! c = None -> bind (deref c) k w = (Fault nil_dereference, w).
Proof. intros Hc. unfold bind, deref. now rewrite Hc. Qed.

Lemma fill_spec this x w :
  exists w', fill this x w = (Ret (filled this (w_environ w) x), w') /\
             quiet w w'.
Proof.
  unfold fill, filled, bind.
  destruct (0 <? length (env this))%nat.
  - destruct (Verbosef_spec ("+Env: " +:+ fmt_v (env this)) w
                (literal_nonempty _ _ _))
      as (w' & Hv & Hq).
    rewrite Hv. simpl. rewrite (q_environ _ _ Hq).
    eexists. split; [reflexivity | exact Hq].
  - simpl. eexists. split; [reflexivity | apply quiet_refl].
Qed.

Lemma storeExitStatus_written this e w n code :
  exitStatus this = Some n -> extractExitStatus e = (code, None) ->
  storeExitStatus this e w =
  (Ret tt, set_log (w_log w ++ [EvStore n code])
                   (set_ints (<[n := code]> (w_ints w)) w)).
Proof. intros Hn He. unfold storeExitStatus. now rewrite Hn, He. Qed.

Lemma storeExitStatus_skipped this e w :
  exitStatus this = None \/ snd (extractExitStatus e) <> None ->
  storeExitStatus this e w = (Ret tt, w).
Proof.
  unfold storeExitStatus. intros [Hn | He].
  - now rewrite Hn.
  - destruct (exitStatus this); [| reflexivity].
    destruct (extractExitStatus e) as [code [e' |]]; [reflexivity |].
    now contradiction He.
Qed.

Lemma storeExitStatus_ret this e w :
  fst (storeExitStatus this e w) = Ret tt.
Proof.
  unfold storeExitStatus.
  destruct (exitStatus this); [| reflexivity].
  destruct (extractExitStatus e) as [code [e' |]]; reflexivity.
Qed.

Lemma storeExitStatus_frame this e w :
  let w' := snd (storeExitStatus this e w) in
  w_cmds w' = w_cmds w /\ w_builders w' = w_builders w /\
  w_environ w' = w_environ w /\ w_bsh w' = w_bsh w /\
  runs (w_log w') = runs (w_log w) /\
  handled (w_log w') = handled (w_log w).
Proof.
  unfold storeExitStatus.
  destruct (exitStatus this); [| now repeat split].
  destruct (extractExitStatus e) as [code [e' |]]; [now repeat split |].
  simpl. repeat split; now log_simpl.
Qed.

(** ** The error handler *)

Lemma Panic_handler e w h :
  fnErr (w_bsh w) = Some h ->
  Panic e w =
  (match h_call h e with None => Ret tt | Some p => Fault p end,
   set_log (w_log w ++ [EvHandler (h_id h) e]) w).
Proof.
  intros Hh. unfold Panic, bind, get_world. rewrite Hh. simpl.
  now destruct (h_call h e).
Qed.

Lemma Panic_default e w :
  fnErr (w_bsh w) = None -> Panic e w = (Fault (PanicError e), w).
Proof. intros Hh. unfold Panic, bind, get_world. now rewrite Hh. Qed.

Lemma Panic_kept e w : kept w (snd (Panic e w)).
Proof.
  destruct (fnErr (w_bsh w)) as [h |] eqn:Hh.
  - rewrite (Panic_handler _ _ _ Hh). simpl.
    constructor; simpl; try reflexivity; now log_simpl.
  - rewrite (Panic_default _ _ Hh). apply kept_refl.
Qed.

Section Facts.

Context (parse : string -> list string * goerror)
        (os : World -> exec_Cmd -> ProcResult).

(** ** The strategies *)

(** Every execution of a strategy takes one of four courses. *)
Lemma strategy_cases direct c w :
  match w_cmds w !! c with
  | None => strategy parse os direct c w = (Fault nil_dereference, w)
  | Some this =>
      match launch parse direct this with
      | ParseFailed e => strategy parse os direct c w = (Ret (Some e), w)
      | NoProgram =>
          exists w1, quiet w w1 /\
            strategy parse os direct c w = (Fault slice_bounds_out_of_range, w1)
      | Start name rest =>
          exists w1, quiet w w1 /\
            let x := filled this (w_environ w) (exec_Command name rest) in
            strategy parse os direct c w =
            (Ret (pr_err (os w1 x)), finished os this x w1)
      end
  end.
Proof.
  assert (Hstart : forall this label name rest,
    label <> "" ->
    exists w1, quiet w w1 /\
      (Verbosef (label +:+ raw this) ;;;
       x <- fill this (exec_Command name rest) ;;
       e <- exec_Run os x ;;
       storeExitStatus this e ;;; ret e) w =
      (Ret (pr_err (os w1 (filled this (w_environ w) (exec_Command name rest)))),
       finished os this (filled this (w_environ w) (exec_Command name rest)) w1)).
  { intros this label name rest Hlabel.
    destruct (Verbosef_spec (label +:+ raw this) w
                (append_nonempty _ _ Hlabel)) as (w0 & Hv & Hq0).
    destruct (fill_spec this (exec_Command name rest) w0) as (w1 & Hf & Hq1).
    exists w1. split; [eapply quiet_trans; eassumption |].
    unfold bind at 1. rewrite Hv. unfold bind at 1. rewrite Hf.
    rewrite (q_environ _ _ Hq0).
    unfold bind at 1, exec_Run, finished. unfold bind, ret.
    set (x := filled this (w_environ w) (exec_Command name rest)).
    set (w2 := deliver_all x _ _).
    pose proof (storeExitStatus_ret this (pr_err (os w1 x)) w2) as Hs.
    destruct (storeExitStatus this (pr_err (os w1 x)) w2) as [res w3].
    simpl in Hs. subst res. reflexivity. }
  unfold strategy, launch.
  destruct (w_cmds w !! c) as [this |] eqn:Hc.
  - destruct direct.
    + unfold run. rewrite (bind_deref _ _ _ _ Hc).
      destruct (parse (raw this)) as [args [e |]].
      { destruct args; reflexivity. }
      destruct args as [| name rest].
      * destruct (Verbosef_spec ("Exec: " +:+ raw this) w
                    (literal_nonempty _ _ _)) as (w0 & Hv & Hq0).
        exists w0. split; [exact Hq0 |]. unfold bind. now rewrite Hv.
      * now apply Hstart.
    + unfold bash. rewrite (bind_deref _ _ _ _ Hc). now apply Hstart.
  - destruct direct; [unfold run | unfold bash];
      now rewrite (bind_deref_nil _ _ _ Hc).
Qed.

(** The world a started process leaves, seen from the world before. *)
Lemma finished_facts this x w w1 :
  quiet w w1 ->
  let e := pr_err (os w1 x) in
  let W := finished os this x w1 in
  w_cmds W = w_cmds w /\
  w_environ W = w_environ w /\
  fnErr (w_bsh W) = fnErr (w_bsh w) /\
  length (w_builders W) = length (w_builders w) /\
  runs (w_log W) = runs (w_log w) ++ [x] /\
  handled (w_log W) = handled (w_log w) /\
  match exitStatus this, extractExitStatus e with
  | Some n, (code, None) =>
      w_ints W = <[n := code]> (w_ints w) /\
      stores (w_log W) = stores (w_log w) ++ [(n, code)]
  | _, _ =>
      w_ints W = w_ints w /\ stores (w_log W) = stores (w_log w)
  end.
Proof.
  intros Hq e W. subst W. unfold finished. fold e.
  set (w2 := deliver_all x _ _).
  destruct (deliver_all_frame x (pr_writes (os w1 x))
              (set_log (w_log w1 ++ [EvRun x]) w1))
    as (D1 & D2 & D3 & D4 & D5 & D6 & D7 & D8).
  fold w2 in D1, D2, D3, D4, D5, D6, D7, D8. simpl in D1, D2, D3, D4, D5, D6, D7, D8.
  rewrite runs_snoc in D6. rewrite stores_snoc in D5.
  rewrite handled_snoc in D7. simpl in D5, D6, D7. rewrite app_nil_r in D5, D7.
  destruct Hq as [Q1 Q2 Q3 Q4 Q5 Q6 Q7 Q8].
  destruct (storeExitStatus_frame this e w2) as (S1 & S2 & S3 & S4 & S5 & S6).
  repeat split.
  - congruence.
  - congruence.
  - rewrite S4, D4. exact Q5.
  - rewrite S2, D8. now rewrite Q3.
  - rewrite S5, D6. now rewrite Q7.
  - rewrite S6, D7. exact Q8.
  - destruct (exitStatus this) as [n |] eqn:Hn.
    + destruct (extractExitStatus e) as [code [e' |]] eqn:He.
      * rewrite storeExitStatus_skipped
          by (right; rewrite He; discriminate).
        simpl. split; congruence.
      * rewrite (storeExitStatus_written _ _ _ _ _ Hn He). simpl.
        rewrite stores_snoc. simpl. split; congruence.
    + rewrite storeExitStatus_skipped by (left; exact Hn).
      simpl. split; congruence.
Qed.

(** ** Escalation *)

Lemma escalate_nil c prefix w : escalate c prefix None w = (Ret tt, w).
Proof. reflexivity. Qed.

Lemma escalate_error c prefix e w this :
  prefix <> "" ->
  w_cmds w !! c = Some this ->
  exists w1, quiet w w1 /\ escalate c prefix (Some e) w = Panic (Some e) w1.
Proof.
  intros Hne Hc. unfold escalate, deref. unfold bind at 1. rewrite Hc.
  destruct (Warnf_spec (prefix +:+ raw this) w (append_nonempty _ _ Hne))
    as (w1 & Hw & Hq).
  exists w1. split; [exact Hq |]. unfold bind. now rewrite Hw.
Qed.


(** An error is escalated after one warning that names the command. *)
Lemma escalate_error_exact c prefix e w this :
  prefix <> "" ->
  w_cmds w !! c = Some this ->
  escalate c prefix (Some e) w =
  Panic (Some e)
    (set_log (w_log w ++ [EvEcho (prefix +:+ raw this)
                            [ensureNewline; colorWarn]]) w).
Proof.
  intros Hne Hc. unfold escalate. rewrite (bind_deref _ _ _ _ Hc).
  unfold bind, Warnf.
  now rewrite (echo_returns _ _ _ (append_nonempty _ _ Hne)).
Qed.

Lemma warning_prefix_nonempty direct : warning_prefix direct <> "".
Proof. now destruct direct. Qed.

Lemma escalate_kept c prefix e w : kept w (snd (escalate c prefix e w)).
Proof.
  destruct e as [e |]; [| apply kept_refl].
  unfold escalate, deref. unfold bind at 1.
  destruct (w_cmds w !! c) as [this |] eqn:Hc; [| apply kept_refl].
  unfold bind, Warnf.
  destruct (echo_outcome (prefix +:+ raw this) [ensureNewline; colorWarn] w)
    as [-> | (p & ->)]; [| apply kept_refl].
  eapply kept_trans; [apply quiet_kept, emit_echo_quiet | apply Panic_kept].
Qed.

End Facts.

(** ** The exit status extractor *)

Lemma errors_As_carries e code :
  errors_As_ExitError e = Some code <-> carries e code.
Proof.
  split.
  - induction e as [c | msg | msg inner IH]; simpl; intros H.
    + injection H as ->. constructor.
    + discriminate.
    + constructor. now apply IH.
  - induction 1; simpl; [reflexivity | assumption].
Qed.

Lemma extractExitStatus_error_code e0 code e :
  extractExitStatus e0 = (code, Some e) -> code = -1 /\ e0 = Some e.
Proof.
  unfold extractExitStatus. destruct e0 as [e1 |]; [| discriminate].
  destruct (errors_As_ExitError e1); [discriminate |].
  intros H. injection H as <- <-. now split.
Qed.

(** C1, as the code has it: no error gives (0, nil); an error carrying an
    exit code gives (that code, nil); an error carrying none gives
    (-1, the error). Hence code 0 comes only with a nil error and a
    non-nil error only with code -1. *)
Theorem extractExitStatus_spec :
  extractExitStatus None = (0, None) /\
  (forall e code, carries e code ->
     extractExitStatus (Some e) = (code, None)) /\
  (forall e, (forall code, ~ carries e code) ->
     extractExitStatus (Some e) = (-1, Some e)) /\
  (forall e0, fst (extractExitStatus e0) = 0 ->
     snd (extractExitStatus e0) = None) /\
  (forall e0, snd (extractExitStatus e0) <> None ->
     fst (extractExitStatus e0) = -1).
Proof.
  split; [reflexivity |]. split; [| split; [| split]].
  - intros e code H. apply errors_As_carries in H.
    unfold extractExitStatus. now rewrite H.
  - intros e H. unfold extractExitStatus.
    destruct (errors_As_ExitError e) as [code |] eqn:He; [| reflexivity].
    apply errors_As_carries in He. now destruct (H code).
  - intros e0. destruct (extractExitStatus e0) as [code [e |]] eqn:H;
      [| reflexivity].
    apply extractExitStatus_error_code in H as [-> _]. discriminate.
  - intros e0. destruct (extractExitStatus e0) as [code [e |]] eqn:H.
    + apply extractExitStatus_error_code in H as [-> _]. reflexivity.
    + intros Hn. now contradiction Hn.
Qed.

(** C1 as stated fails: an exit with code 3 is returned with a nil error,
    so a nil error does not mean exit code 0. *)
Lemma extractExitStatus_nonzero_without_error :
  extractExitStatus (exited 3) = (3, None) /\
  ~ (fst (extractExitStatus (exited 3)) = 0 <->
     snd (extractExitStatus (exited 3)) = None).
Proof.
  split; [reflexivity |]. simpl. intros [_ H]. specialize (H eq_refl).
  discriminate.
Qed.

(** ** The error handler of the context *)

Lemma SetErrorHandler_spec fn w :
  exists w1, quiet w w1 /\
    SetErrorHandler fn w = (Ret tt, set_bsh (set_fnErr fn (w_bsh w1)) w1).
Proof.
  destruct (Verbose_spec "Error handler changed" w ltac:(discriminate))
    as (w1 & Hv & Hq).
  exists w1. split; [exact Hq |].
  unfold SetErrorHandler, bind. now rewrite Hv.
Qed.

(** C6: [Panic] calls the handler that is set, with the error, and returns
    when the handler does; with no handler set it panics with the error.
    [SetErrorHandler] replaces whatever was set, so that the next [Panic]
    reaches the new handler only; one [Panic] calls at most one handler. *)
Theorem error_handler_policy (w : World) (e : goerror) :
  (forall h, fnErr (w_bsh w) = Some h ->
     Panic e w =
     (match h_call h e with None => Ret tt | Some p => Fault p end,
      set_log (w_log w ++ [EvHandler (h_id h) e]) w)) /\
  (fnErr (w_bsh w) = None -> Panic e w = (Fault (PanicError e), w)) /\
  (forall fn,
     fst (SetErrorHandler fn w) = Ret tt /\
     fnErr (w_bsh (snd (SetErrorHandler fn w))) = fn /\
     handled (w_log (snd (SetErrorHandler fn w))) = handled (w_log w)) /\
  (forall h',
     fst (Panic e (snd (SetErrorHandler (Some h') w))) =
       match h_call h' e with None => Ret tt | Some p => Fault p end /\
     handled (w_log (snd (Panic e (snd (SetErrorHandler (Some h') w))))) =
       handled (w_log w) ++ [(h_id h', e)]) /\
  fst (Panic e (snd (SetErrorHandler None w))) = Fault (PanicError e) /\
  (length (handled (w_log (snd (Panic e w)))) <=
   S (length (handled (w_log w))))%nat.
Proof.
  split; [intros h Hh; now apply Panic_handler |].
  split; [intros Hh; now apply Panic_default |].
  split.
  { intros fn. destruct (SetErrorHandler_spec fn w) as (w1 & Hq & ->).
    simpl. repeat split. apply (q_handled _ _ Hq). }
  split.
  { intros h'. destruct (SetErrorHandler_spec (Some h') w) as (w1 & Hq & ->).
    cbn [fst snd]. rewrite (Panic_handler e _ h') by reflexivity.
    cbn [fst snd]. split; [reflexivity |].
    simpl. rewrite handled_snoc. now rewrite (q_handled _ _ Hq). }
  split.
  { destruct (SetErrorHandler_spec None w) as (w1 & Hq & ->).
    cbn [fst snd]. now rewrite Panic_default. }
  destruct (fnErr (w_bsh w)) as [h |] eqn:Hh.
  - rewrite (Panic_handler _ _ _ Hh). simpl. rewrite handled_snoc.
    rewrite length_app. simpl. lia.
  - rewrite (Panic_default _ _ Hh). simpl. lia.
Qed.

(** ** From the strategies to the runners *)

Lemma bind_kept {A B} (m : Act A) (k : A -> Act B) w :
  (forall a w', kept w' (snd (k a w'))) ->
  kept (snd (m w)) (snd (bind m k w)).
Proof.
  intros Hk. unfold bind. destruct (m w) as [[a | p] w']; simpl.
  - apply Hk.
  - apply kept_refl.
Qed.

Lemma ret_kept {A} (a : A) w : kept w (snd (ret a w)).
Proof. apply kept_refl. Qed.

Lemma Builder_String_kept b w : kept w (snd (Builder_String b w)).
Proof.
  unfold Builder_String. destruct (w_builders w !! b); apply kept_refl.
Qed.

(** The first three lines of [RunStr] and [BashStr]. *)
Lemma capture_bind {B} c w this (k : nat -> Act B) :
  w_cmds w !! c = Some this ->
  (b <- new_Builder ;;
   assign c (set_out (WBuf b)) ;;;
   assign c (set_err (WBuf b)) ;;;
   k b) w =
  k (length (w_builders w)) (captured c this w).
Proof.
  intros Hc. pose proof (lookup_lt_Some _ _ _ Hc) as Hlt.
  unfold bind at 1, new_Builder. unfold assign.
  unfold bind at 1. rewrite (bind_deref c _ this) by exact Hc.
  unfold modify_world at 1.
  unfold bind at 1.
  rewrite (bind_deref c _ (set_out (WBuf (length (w_builders w))) this))
    by (simpl; now apply list_lookup_insert_eq).
  unfold modify_world. unfold captured. simpl.
  unfold set_cmds. simpl. now rewrite list_insert_insert_eq.
Qed.

Section RunnerFacts.

Context (parse : string -> list string * goerror)
        (os : World -> exec_Cmd -> ProcResult).

(** A strategy that returns has left the commands, the handler and the
    number of builders as they were. *)
Lemma strategy_returns direct c w e w1 :
  strategy parse os direct c w = (Ret e, w1) ->
  exists this, w_cmds w !! c = Some this /\
    w_cmds w1 = w_cmds w /\
    fnErr (w_bsh w1) = fnErr (w_bsh w) /\
    length (w_builders w1) = length (w_builders w).
Proof.
  intros Hs. pose proof (strategy_cases parse os direct c w) as Hc.
  destruct (w_cmds w !! c) as [this |]; [| congruence].
  exists this. split; [reflexivity |].
  destruct (launch parse direct this) as [e0 | | name rest].
  - rewrite Hc in Hs. injection Hs as _ <-. now repeat split.
  - destruct Hc as (w0 & _ & Hc). congruence.
  - destruct Hc as (w0 & Hq & Hc). simpl in Hc. rewrite Hc in Hs.
    injection Hs as _ <-.
    destruct (finished_facts os this
                (filled this (w_environ w) (exec_Command name rest)) w w0 Hq)
      as (F1 & _ & F3 & F4 & _).
    now repeat split.
Qed.

Lemma start_world_lookup r c this w :
  w_cmds w !! c = Some this ->
  w_cmds (start_world r c this w) !! c = Some (start_Command r this w).
Proof.
  intros Hc. unfold start_world, start_Command.
  destruct (rebinds r); [| exact Hc].
  simpl. apply list_lookup_insert_eq. eapply lookup_lt_Some, Hc.
Qed.

(** After its strategy a runner may only warn and call the handler. *)
Lemma world_after_kept r c this w :
  w_cmds w !! c = Some this ->
  kept (snd (strategy parse os (is_direct r) c (start_world r c this w)))
       (world_after parse os r c w).
Proof.
  intros Hc.
  destruct r; unfold world_after, start_world, strategy; simpl.
  - unfold Run. apply bind_kept. intros. apply escalate_kept.
  - unfold RunStr. rewrite (capture_bind c w this) by exact Hc.
    apply bind_kept. intros a w'.
    eapply kept_trans; [apply escalate_kept |]. apply bind_kept.
    intros. apply Builder_String_kept.
  - unfold RunErr. apply kept_refl.
  - unfold RunExitStatus. apply bind_kept. intros a w'.
    destruct (extractExitStatus a) as [n e'].
    eapply kept_trans; [apply escalate_kept |]. apply bind_kept.
    intros. apply ret_kept.
  - unfold Bash. apply bind_kept. intros. apply escalate_kept.
  - unfold BashStr. rewrite (capture_bind c w this) by exact Hc.
    apply bind_kept. intros a w'.
    eapply kept_trans; [apply escalate_kept |]. apply bind_kept.
    intros. apply Builder_String_kept.
  - unfold BashErr. apply kept_refl.
  - unfold BashExitStatus. apply bind_kept. intros a w'.
    destruct (extractExitStatus a) as [n e'].
    eapply kept_trans; [apply escalate_kept |]. apply bind_kept.
    intros. apply ret_kept.
Qed.

End RunnerFacts.

(** ** The direct strategy on a malformed command *)

(** C3: when the tokenizer rejects the command, [run] returns its error at
    once. The world is left exactly as it was: no process was run, no
    stream was touched, no line was logged and no handler was called. *)
Theorem run_parse_failure
  (parse : string -> list string * goerror)
  (os : World -> exec_Cmd -> ProcResult)
  (c : nat) (w : World) (this : Command) (args : list string) (e : error) :
  w_cmds w !! c = Some this ->
  parse (raw this) = (args, Some e) ->
  run parse os c w = (Ret (Some e), w).
Proof.
  intros Hc Hp. unfold run. rewrite (bind_deref _ _ _ _ Hc).
  now rewrite Hp.
Qed.

Lemma run_parse_failure_witness :
  w_cmds (sample_world "echo 'hi" None) !! 0%nat
    = Some (sample_Command "echo 'hi") /\
  sample_Parse (raw (sample_Command "echo 'hi"))
    = ([], Some (PlainError "unterminated quote")) /\
  run sample_Parse sample_os 0 (sample_world "echo 'hi" None)
    = (Ret (Some (PlainError "unterminated quote")),
       sample_world "echo 'hi" None).
Proof.
  split; [reflexivity |]. split; [reflexivity |].
  apply (run_parse_failure sample_Parse sample_os 0
           (sample_world "echo 'hi" None) (sample_Command "echo 'hi") []);
    reflexivity.
Defined.

(** ** What the two strategies start *)

Lemma filled_fields this environ x :
  cmd_Path (filled this environ x) = cmd_Path x /\
  cmd_Args (filled this environ x) = cmd_Args x /\
  cmd_Env (filled this environ x) =
    (if (0 <? length (env this))%nat
     then Some (os_Environ environ ++ env this) else cmd_Env x) /\
  cmd_Dir (filled this environ x) = dir this /\
  cmd_Stdin (filled this environ x) = in_ this /\
  cmd_Stdout (filled this environ x) = out this /\
  cmd_Stderr (filled this environ x) = err this.
Proof.
  unfold filled. destruct (0 <? length (env this))%nat; now repeat split.
Qed.

Lemma strategy_runs parse os direct c w this name rest :
  w_cmds w !! c = Some this ->
  launch parse direct this = Start name rest ->
  runs (w_log (snd (strategy parse os direct c w))) =
  runs (w_log w) ++ [filled this (w_environ w) (exec_Command name rest)].
Proof.
  intros Hc Hl. pose proof (strategy_cases parse os direct c w) as H.
  rewrite Hc, Hl in H. destruct H as (w1 & Hq & H). simpl in H.
  rewrite H. cbn [snd].
  now destruct (finished_facts os this
                  (filled this (w_environ w) (exec_Command name rest))
                  w w1 Hq) as (_ & _ & _ & _ & F & _).
Qed.

(** C5: [bash] runs exactly one process, the program [bash] with the two
    arguments [-c] and the raw command, whatever the tokenizer would make
    of that command; [run] starts the first token with the others as
    arguments. The environment, the directory and the three streams are
    taken from the command in the same way by both. *)
Theorem bash_delegates
  (parse : string -> list string * goerror)
  (os : World -> exec_Cmd -> ProcResult)
  (c : nat) (w : World) (this : Command) :
  w_cmds w !! c = Some this ->
  exists x,
    runs (w_log (snd (bash os c w))) = runs (w_log w) ++ [x] /\
    cmd_Path x = "bash" /\
    cmd_Args x = ["bash"; "-c"; raw this] /\
    cmd_Env x = (if (0 <? length (env this))%nat
                 then Some (os_Environ (w_environ w) ++ env this)
                 else None) /\
    cmd_Dir x = dir this /\
    cmd_Stdin x = in_ this /\
    cmd_Stdout x = out this /\
    cmd_Stderr x = err this /\
    forall name rest, parse (raw this) = (name :: rest, None) ->
      exists y,
        runs (w_log (snd (run parse os c w))) = runs (w_log w) ++ [y] /\
        cmd_Path y = name /\
        cmd_Args y = name :: rest /\
        cmd_Env y = cmd_Env x /\
        cmd_Dir y = cmd_Dir x /\
        cmd_Stdin y = cmd_Stdin x /\
        cmd_Stdout y = cmd_Stdout x /\
        cmd_Stderr y = cmd_Stderr x.
Proof.
  intros Hc.
  exists (filled this (w_environ w) (exec_Command "bash" ["-c"; raw this])).
  destruct (filled_fields this (w_environ w)
              (exec_Command "bash" ["-c"; raw this]))
    as (B1 & B2 & B3 & B4 & B5 & B6 & B7).
  split.
  { apply (strategy_runs parse os false c w this "bash" ["-c"; raw this] Hc).
    reflexivity. }
  repeat (split; [assumption |]).
  intros name rest Hp.
  exists (filled this (w_environ w) (exec_Command name rest)).
  destruct (filled_fields this (w_environ w) (exec_Command name rest))
    as (R1 & R2 & R3 & R4 & R5 & R6 & R7).
  split.
  { apply (strategy_runs parse os true c w this name rest Hc).
    unfold launch. now rewrite Hp. }
  split; [exact R1 |]. split; [exact R2 |].
  split; [now rewrite R3, B3 |].
  repeat split; congruence.
Qed.

Lemma bash_delegates_witness :
  exists x,
    runs (w_log (snd (bash sample_os 0 (sample_world "echo 'hi" None))))
      = [x] /\
    cmd_Args x = ["bash"; "-c"; "echo 'hi"] /\
    cmd_Stdout x = os_Stdout.
Proof.
  destruct (bash_delegates sample_Parse sample_os 0
              (sample_world "echo 'hi" None) (sample_Command "echo 'hi")
              eq_refl)
    as (x & H1 & _ & H3 & _ & _ & _ & H7 & _).
  exists x. repeat split; assumption.
Defined.

(** ** The modifiers *)

Lemma modify_assign c w this (f : Command -> Command) :
  w_cmds w !! c = Some this ->
  (assign c f ;;; ret c) w = (Ret c, set_cmds (<[c := f this]> (w_cmds w)) w).
Proof.
  intros Hc. unfold assign, bind at 1.
  now rewrite (bind_deref _ _ _ _ Hc).
Qed.

Lemma changed_In f this this' : f ∈ changed this this' ->
  (f = f_raw /\ raw this <> raw this') \/
  (f = f_dir /\ dir this <> dir this') \/
  (f = f_env /\ env this <> env this') \/
  (f = f_in /\ in_ this <> in_ this') \/
  (f = f_out /\ out this <> out this') \/
  (f = f_err /\ err this <> err this') \/
  (f = f_exitStatus /\ exitStatus this <> exitStatus this').
Proof.
  unfold changed. rewrite !elem_of_app.
  repeat case_bool_decide; rewrite ?elem_of_nil, ?list_elem_of_singleton;
    intuition (subst; auto).
Qed.

(** C8, as the code has it: a modifier returns the command it was called
    on, gives the field it assigns the value its body computes (the
    argument; for [Env] the variables held so far followed by the
    argument; for [ExpandEnv] the expansion of [raw]), and changes no
    other field. That is one field for every modifier except [OutErr],
    which assigns two, [out] and [err]. *)
Theorem modifier_frame
  (expand : list (string * string) -> string -> string)
  (m : Modifier) (c : nat) (w : World) (this : Command) :
  w_cmds w !! c = Some this ->
  exists this',
    modify expand m c w = (Ret c, set_cmds (<[c := this']> (w_cmds w)) w) /\
    match m with
    | mIn r => in_ this' = r
    | mOut wr => out this' = wr
    | mErr wr => err this' = wr
    | mOutErr wr => out this' = wr /\ err this' = wr
    | mExitStatus n => exitStatus this' = n
    | mExpandEnv => raw this' = expand (w_environ w) (raw this)
    | mEnv vars => env this' = env this ++ vars
    | mDir d => dir this' = d
    end /\
    (forall f, f ∈ changed this this' -> f ∈ assigned m) /\
    (length (assigned m) = 1%nat \/
     (exists wr, m = mOutErr wr) /\ assigned m = [f_out; f_err]).
Proof.
  intros Hc. pose proof (lookup_lt_Some _ _ _ Hc) as Hlt.
  destruct m; simpl;
    try (eexists; split; [apply (modify_assign c w this _ Hc) |];
         split; [reflexivity |];
         split; [| now left];
         intros f Hf; apply changed_In in Hf; simpl in Hf;
         rewrite list_elem_of_singleton; intuition congruence).
  - exists (set_err wr (set_out wr this)). split.
    + unfold OutErr, assign. unfold bind at 1.
      rewrite (bind_deref _ _ _ _ Hc). unfold modify_world at 1.
      unfold bind at 1.
      rewrite (bind_deref c _ (set_out wr this))
        by (simpl; now apply list_lookup_insert_eq).
      unfold modify_world, bind, ret. simpl. unfold set_cmds. simpl.
      now rewrite list_insert_insert_eq.
    + split; [now split |]. split; [| right; eauto].
      intros f Hf. apply changed_In in Hf. simpl in Hf.
      rewrite !elem_of_cons. intuition congruence.
Qed.

Lemma modifier_frame_witness :
  exists this',
    modify sample_ExpandEnv (mDir "/tmp") 0 (sample_world "ls" None) =
      (Ret 0%nat,
       set_cmds (<[0%nat := this']> (w_cmds (sample_world "ls" None)))
                (sample_world "ls" None)) /\
    dir this' = "/tmp" /\
    forall f, f ∈ changed (sample_Command "ls") this' -> f ∈ [f_dir].
Proof.
  destruct (modifier_frame sample_ExpandEnv (mDir "/tmp") 0
              (sample_world "ls" None) (sample_Command "ls") eq_refl)
    as (this' & H1 & H2 & H3 & _).
  exists this'. repeat split; assumption.
Defined.

(** C8 as stated fails for [OutErr]: it changes two fields. *)
Lemma OutErr_changes_two_fields :
  fst (OutErr 0 (WBuf 0) (sample_world "ls" None)) = Ret 0%nat /\
  (changed (sample_Command "ls") <$>
     w_cmds (snd (OutErr 0 (WBuf 0) (sample_world "ls" None))) !! 0%nat)
  = Some [f_out; f_err].
Proof. split; reflexivity. Qed.

(** ** The exit status runners *)

Lemma exited_extract N : extractExitStatus (exited N) = (N, None).
Proof.
  unfold exited. destruct (Z.eqb_spec N 0) as [-> |]; reflexivity.
Qed.

(** C2, as the code has it: when the strategy returns the outcome [e],
    [RunExitStatus] and [BashExitStatus] look at the error the extractor
    returns. With no error, the code is returned as it is, zero or not, in
    the world the strategy left: no warning, no call of the handler. With
    an error, the code is -1; one warning that names the command is
    printed, then the error goes to [Panic], and -1 is returned if [Panic]
    returns. *)
Theorem exit_status_projection
  (parse : string -> list string * goerror)
  (os : World -> exec_Cmd -> ProcResult)
  (direct : bool) (c : nat) (w : World) (e : goerror) (w1 : World) :
  strategy parse os direct c w = (Ret e, w1) ->
  match extractExitStatus e with
  | (n, None) =>
      (if direct then RunExitStatus parse os c else BashExitStatus os c) w
      = (Ret n, w1)
  | (n, Some e') =>
      n = -1 /\ e = Some e' /\
      exists this,
        w_cmds w !! c = Some this /\
        (if direct then RunExitStatus parse os c else BashExitStatus os c) w
        = (Panic (Some e') ;;; ret n)
            (set_log (w_log w1 ++
                        [EvEcho (warning_prefix direct +:+ raw this)
                                [ensureNewline; colorWarn]]) w1)
  end.
Proof.
  intros Hs.
  destruct (strategy_returns parse os direct c w e w1 Hs)
    as (this & Hc & Hc1 & _).
  assert (Hc' : w_cmds w1 !! c = Some this) by now rewrite Hc1.
  destruct (extractExitStatus e) as [n [e' |]] eqn:He.
  - apply extractExitStatus_error_code in He as Hn. destruct Hn as [-> ->].
    split; [reflexivity |]. split; [reflexivity |].
    exists this. split; [exact Hc |].
    pose proof (escalate_error_exact c (warning_prefix direct) e' w1 this
                  (warning_prefix_nonempty direct) Hc') as Hesc.
    destruct direct; unfold strategy in Hs.
    + unfold RunExitStatus. unfold bind at 1. rewrite Hs, He.
      unfold bind at 1. cbn [warning_prefix] in Hesc. rewrite Hesc.
      reflexivity.
    + unfold BashExitStatus. unfold bind at 1. rewrite Hs, He.
      unfold bind at 1. cbn [warning_prefix] in Hesc. rewrite Hesc.
      reflexivity.
  - destruct direct; unfold strategy in Hs.
    + unfold RunExitStatus, bind at 1. now rewrite Hs, He.
    + unfold BashExitStatus, bind at 1. now rewrite Hs, He.
Qed.

Lemma exit_status_projection_witness :
  fst (RunExitStatus sample_Parse sample_os 0
         (sample_world "make test" (Some sample_handler))) = Ret (-1) /\
  warnings (w_log (snd (RunExitStatus sample_Parse sample_os 0
                          (sample_world "make test" (Some sample_handler)))))
  = ["unexpected error in make test"] /\
  handled (w_log (snd (RunExitStatus sample_Parse sample_os 0
                         (sample_world "make test" (Some sample_handler)))))
  = [(7%nat,
      Some (PlainError "executable file not found in $PATH"))].
Proof.
  destruct (exit_status_projection sample_Parse sample_os true 0
              (sample_world "make test" (Some sample_handler))
              (Some (PlainError "executable file not found in $PATH"))
              _ eq_refl) as (_ & _ & this & Hthis & Heq).
  injection Hthis as <-. lazy iota in Heq. rewrite Heq.
  repeat split.
Defined.

(** C2 as stated fails: a process ended by a signal is reported as an
    [*exec.ExitError] whose [ExitCode()] is -1. The extracted code is then
    -1 with a nil error, and [RunExitStatus] returns -1 without calling
    [Panic]: with no handler set it returns, and with a handler set the
    handler is not called. *)
Lemma exit_status_minus_one_not_escalated :
  extractExitStatus (Some (ExitError (-1))) = (-1, None) /\
  fst (RunExitStatus sample_Parse sample_os 0 (sample_world "killed" None))
  = Ret (-1) /\
  fst (RunExitStatus sample_Parse sample_os 0
         (sample_world "killed" (Some sample_handler)))
  = Ret (-1) /\
  handled (w_log (snd (RunExitStatus sample_Parse sample_os 0
                         (sample_world "killed" (Some sample_handler)))))
  = [].
Proof. repeat split; reflexivity. Qed.

(** ** The exit status sink *)

Lemma start_world_frame r c this w :
  w_ints (start_world r c this w) = w_ints w /\
  w_log (start_world r c this w) = w_log w /\
  exitStatus (start_Command r this w) = exitStatus this /\
  raw (start_Command r this w) = raw this.
Proof.
  unfold start_world, start_Command. destruct (rebinds r); now repeat split.
Qed.

(** What a strategy does to the integer cells: nothing, or one store of
    the extracted code through the sink of the command. *)
Lemma strategy_sink parse os direct c w this :
  w_cmds w !! c = Some this ->
  (w_ints (snd (strategy parse os direct c w)) = w_ints w /\
   stores (w_log (snd (strategy parse os direct c w))) = stores (w_log w)) \/
  (exists w1 x n code,
     exitStatus this = Some n /\
     extractExitStatus (pr_err (os w1 x)) = (code, None) /\
     w_ints (snd (strategy parse os direct c w)) = <[n := code]> (w_ints w) /\
     stores (w_log (snd (strategy parse os direct c w))) =
       stores (w_log w) ++ [(n, code)]).
Proof.
  intros Hc. pose proof (strategy_cases parse os direct c w) as H.
  rewrite Hc in H.
  destruct (launch parse direct this) as [e | | name rest] eqn:Hl.
  - left. rewrite H. now split.
  - left. destruct H as (w1 & Hq & ->). cbn [snd].
    split; [apply (q_ints _ _ Hq) | apply (q_stores _ _ Hq)].
  - destruct H as (w1 & Hq & H). cbn zeta in H. rewrite H. cbn [snd].
    pose proof (finished_facts os this
                  (filled this (w_environ w) (exec_Command name rest))
                  w w1 Hq) as F.
    cbn zeta in F. destruct F as (_ & _ & _ & _ & _ & _ & F).
    destruct (exitStatus this) as [n |] eqn:Hn; [| now left].
    destruct (extractExitStatus _) as [code [e' |]] eqn:He; [now left |].
    right. destruct F as [F1 F2].
    exists w1, (filled this (w_environ w) (exec_Command name rest)), n, code.
    now repeat split.
Qed.

Section Sink.

Context (parse : string -> list string * goerror)
        (os : World -> exec_Cmd -> ProcResult).

(** No runner writes through a pointer more than once. *)
Lemma sink_written_at_most_once r c w this :
  w_cmds w !! c = Some this ->
  (length (stores (w_log (world_after parse os r c w))) <=
   S (length (stores (w_log w))))%nat.
Proof.
  intros Hc.
  pose proof (start_world_lookup r c this w Hc) as Hc0.
  destruct (start_world_frame r c this w) as (_ & Hlog & _ & _).
  destruct (world_after_kept parse os r c this w Hc) as [_ _ _ _ _ Ks _].
  rewrite Ks.
  destruct (strategy_sink parse os (is_direct r) c _ _ Hc0)
    as [[_ Hs] | (w1 & x & n & code & _ & _ & _ & Hs)];
    rewrite Hs, Hlog; [lia |].
  rewrite length_app. simpl. lia.
Qed.

(** What a runner starts: the process [x] made of the program [launch]
    names and of the fields of the command, in a world [w1] that differs
    from the one the runner began in by console lines at most. *)
Lemma runner_started r c w this name rest :
  w_cmds w !! c = Some this ->
  launch parse (is_direct r) this = Start name rest ->
  exists w1,
    quiet (start_world r c this w) w1 /\
    strategy parse os (is_direct r) c (start_world r c this w) =
    (Ret (pr_err (os w1 (filled (start_Command r this w) (w_environ w)
                           (exec_Command name rest)))),
     finished os (start_Command r this w)
       (filled (start_Command r this w) (w_environ w)
          (exec_Command name rest)) w1).
Proof.
  intros Hc Hl.
  pose proof (start_world_lookup r c this w Hc) as Hc0.
  assert (Hl0 : launch parse (is_direct r) (start_Command r this w)
                = Start name rest).
  { rewrite <- Hl. unfold launch, start_Command.
    now destruct (rebinds r). }
  assert (Henv : w_environ (start_world r c this w) = w_environ w).
  { unfold start_world. now destruct (rebinds r). }
  pose proof (strategy_cases parse os (is_direct r) c
                (start_world r c this w)) as H.
  rewrite Hc0, Hl0 in H. destruct H as (w1 & Hq & H). cbn zeta in H.
  rewrite Henv in H. now exists w1.
Qed.

(** C4: the command has the sink [n], and the process it starts ([x], in
    the statement) runs to completion with exit code [N], zero or not.
    Then, whichever of the eight runners was called and whatever the
    handler did, that process is the one process run, the cell [n] holds
    [N] in the world the runner leaves, and that store is the only one
    made. *)
Theorem sink_holds_exit_code r c w this n N name rest :
  w_cmds w !! c = Some this ->
  exitStatus this = Some n ->
  launch parse (is_direct r) this = Start name rest ->
  let x := filled (start_Command r this w) (w_environ w)
             (exec_Command name rest) in
  (forall w1, quiet (start_world r c this w) w1 ->
              pr_err (os w1 x) = exited N) ->
  runs (w_log (world_after parse os r c w)) = runs (w_log w) ++ [x] /\
  w_ints (world_after parse os r c w) !! n = Some N /\
  stores (w_log (world_after parse os r c w)) = stores (w_log w) ++ [(n, N)].
Proof.
  intros Hc Hn Hl x Hos.
  destruct (start_world_frame r c this w) as (Hints & Hlog & Hn0 & _).
  destruct (world_after_kept parse os r c this w Hc) as [_ Ki _ _ _ Ks Kr].
  rewrite Ki, Ks, Kr.
  destruct (runner_started r c w this name rest Hc Hl) as (w1 & Hq & H).
  fold x in H. rewrite H. cbn [snd].
  pose proof (finished_facts os (start_Command r this w) x _ w1 Hq) as F.
  cbn zeta in F. destruct F as (_ & _ & _ & _ & Fr & _ & F).
  rewrite Hn0, Hn, (Hos w1 Hq), exited_extract in F. destruct F as [F1 F2].
  rewrite Fr, F1, F2, Hints, Hlog.
  split; [reflexivity |]. split; [apply lookup_insert_eq | reflexivity].
Qed.

(** C9, as the code has it: the command has the sink [n], and for the
    outcome of the process it starts the extractor returns an error, that
    is, no [*exec.ExitError] lies on the chain of the error. Then no
    runner writes through the sink: the cells, the cell [n] among them,
    are as they were, and no store is recorded. The same holds when no
    process is started at all. *)
Theorem sink_untouched_without_exit_code r c w this n :
  w_cmds w !! c = Some this ->
  exitStatus this = Some n ->
  (forall name rest w1,
     launch parse (is_direct r) this = Start name rest ->
     quiet (start_world r c this w) w1 ->
     snd (extractExitStatus
            (pr_err (os w1 (filled (start_Command r this w) (w_environ w)
                              (exec_Command name rest))))) <> None) ->
  w_ints (world_after parse os r c w) !! n = w_ints w !! n /\
  w_ints (world_after parse os r c w) = w_ints w /\
  stores (w_log (world_after parse os r c w)) = stores (w_log w).
Proof.
  intros Hc Hn Hos.
  pose proof (start_world_lookup r c this w Hc) as Hc0.
  destruct (start_world_frame r c this w) as (Hints & Hlog & Hn0 & _).
  destruct (world_after_kept parse os r c this w Hc) as [_ Ki _ _ _ Ks _].
  rewrite Ki, Ks.
  assert (H : w_ints (snd (strategy parse os (is_direct r) c
                             (start_world r c this w))) = w_ints w /\
              stores (w_log (snd (strategy parse os (is_direct r) c
                                    (start_world r c this w)))) =
              stores (w_log w)).
  { destruct (launch parse (is_direct r) this) as [e | | name rest] eqn:Hl.
    - pose proof (strategy_cases parse os (is_direct r) c
                    (start_world r c this w)) as H.
      rewrite Hc0 in H.
      replace (launch parse (is_direct r) (start_Command r this w))
        with (ParseFailed e) in H
        by (rewrite <- Hl; unfold launch, start_Command;
            now destruct (rebinds r)).
      rewrite H. cbn [snd]. rewrite Hints, Hlog. now split.
    - pose proof (strategy_cases parse os (is_direct r) c
                    (start_world r c this w)) as H.
      rewrite Hc0 in H.
      replace (launch parse (is_direct r) (start_Command r this w))
        with NoProgram in H
        by (rewrite <- Hl; unfold launch, start_Command;
            now destruct (rebinds r)).
      destruct H as (w1 & Hq & ->). cbn [snd].
      rewrite (q_ints _ _ Hq), (q_stores _ _ Hq), Hints, Hlog. now split.
    - destruct (runner_started r c w this name rest Hc Hl) as (w1 & Hq & H).
      rewrite H. cbn [snd].
      pose proof (finished_facts os (start_Command r this w)
                    (filled (start_Command r this w) (w_environ w)
                       (exec_Command name rest)) _ w1 Hq) as F.
      cbn zeta in F. destruct F as (_ & _ & _ & _ & _ & _ & F).
      specialize (Hos name rest w1 eq_refl Hq).
      rewrite Hn0, Hn in F.
      destruct (extractExitStatus _) as [code [e' |]];
        [| now contradiction Hos].
      destruct F as [F1 F2]. rewrite F1, F2, Hints, Hlog. now split. }
  destruct H as [Hi Hs]. rewrite Hi, Hs. now repeat split.
Qed.

End Sink.

Lemma sink_holds_exit_code_witness :
  runs (w_log (world_after sample_Parse sample_os rRunStr 0
                 (sample_world "fail now" (Some sample_handler)))) =
  [mkExecCmd "fail" ["fail"; "now"] None "" os_Stdin (WBuf 0) (WBuf 0)] /\
  w_ints (world_after sample_Parse sample_os rRunStr 0
            (sample_world "fail now" (Some sample_handler))) !! 5%nat
  = Some 3 /\
  stores (w_log (world_after sample_Parse sample_os rRunStr 0
                   (sample_world "fail now" (Some sample_handler))))
  = [(5%nat, 3)].
Proof.
  apply (sink_holds_exit_code sample_Parse sample_os rRunStr 0
           (sample_world "fail now" (Some sample_handler))
           (sample_Command "fail now") 5%nat 3 "fail" ["now"]).
  - reflexivity.
  - reflexivity.
  - reflexivity.
  - intros w1 _. reflexivity.
Defined.

Lemma sink_untouched_without_exit_code_witness :
  w_ints (world_after sample_Parse sample_os rRunExitStatus 0
            (sample_world "make test" (Some sample_handler))) !! 5%nat
  = Some 42 /\
  stores (w_log (world_after sample_Parse sample_os rRunExitStatus 0
                   (sample_world "make test" (Some sample_handler)))) = [].
Proof.
  destruct (sink_untouched_without_exit_code sample_Parse sample_os
              rRunExitStatus 0
              (sample_world "make test" (Some sample_handler))
              (sample_Command "make test") 5%nat eq_refl eq_refl)
    as (H1 & _ & H3).
  - intros name rest w1 Hl _. injection Hl as <- <-. discriminate.
  - split; [exact H1 | exact H3].
Defined.

(** C9 as stated fails for a process ended by a signal: its error is an
    [*exec.ExitError] whose [ExitCode()] is -1, which is no exit code of
    the process; the extractor returns it with a nil error, and the sink
    is written: the cell that held 42 holds -1. *)
Lemma sink_written_after_signal :
  pr_err (sample_os (sample_world "killed" None)
            (exec_Command "killed" [])) = Some (ExitError (-1)) /\
  extractExitStatus (Some (ExitError (-1))) = (-1, None) /\
  w_ints (sample_world "killed" None) !! 5%nat = Some 42 /\
  w_ints (world_after sample_Parse sample_os rRunErr 0
            (sample_world "killed" None)) !! 5%nat = Some (-1) /\
  stores (w_log (world_after sample_Parse sample_os rRunErr 0
                   (sample_world "killed" None))) = [(5%nat, -1)].
Proof. repeat split; reflexivity. Qed.

(** ** The runners that capture the text *)

Section Capture.

Context (parse : string -> list string * goerror)
        (os : World -> exec_Cmd -> ProcResult).

Lemma capture_run direct c w this :
  w_cmds w !! c = Some this ->
  Str_runner parse os direct c w =
  (e <- strategy parse os direct c ;;
   escalate c (warning_prefix direct) e ;;;
   Builder_String (length (w_builders w))) (captured c this w).
Proof.
  intros Hc. unfold Str_runner, strategy, warning_prefix.
  destruct direct; [unfold RunStr | unfold BashStr];
    now rewrite (capture_bind c w this) by exact Hc.
Qed.

Lemma captured_lookup c this w :
  w_cmds w !! c = Some this ->
  w_cmds (captured c this w) !! c =
  Some (set_err (WBuf (length (w_builders w)))
          (set_out (WBuf (length (w_builders w))) this)).
Proof. apply (start_world_lookup rRunStr c this w). Qed.

(** The builder of a finished process whose two streams are bound to it. *)
Lemma finished_builder this x w w1 b :
  quiet w w1 ->
  cmd_Stdout x = WBuf b -> cmd_Stderr x = WBuf b ->
  w_builders (finished os this x w1) =
  alter (fun s => s +:+ output (os w1 x)) b (w_builders w).
Proof.
  intros Hq Hout Herr. unfold finished.
  destruct (storeExitStatus_frame this (pr_err (os w1 x))
              (deliver_all x (pr_writes (os w1 x))
                 (set_log (w_log w1 ++ [EvRun x]) w1)))
    as (_ & S2 & _).
  rewrite S2, (deliver_all_builder x b _ _ Hout Herr). simpl.
  now rewrite (q_builders _ _ Hq).
Qed.

(** Reading the builder once the error, if any, was escalated. *)
Lemma read_after_escalate c prefix e b W s :
  w_builders W !! b = Some s ->
  kept W (snd ((escalate c prefix e ;;; Builder_String b) W)) /\
  (forall s', fst ((escalate c prefix e ;;; Builder_String b) W) = Ret s' ->
     s' = s) /\
  (fst (escalate c prefix e W) = Ret tt ->
   fst ((escalate c prefix e ;;; Builder_String b) W) = Ret s).
Proof.
  intros Hb. pose proof (escalate_kept c prefix e W) as Hk.
  unfold bind. destruct (escalate c prefix e W) as [[[] | p] W2].
  - cbn [snd fst] in *. unfold Builder_String.
    rewrite (k_builders _ _ Hk), Hb. cbn [snd fst].
    split; [exact Hk |]. split; [| reflexivity].
    intros s' H. now injection H.
  - cbn [snd fst] in *. split; [exact Hk |]. split; discriminate.
Qed.

(** C7: [RunStr] and [BashStr] start their process with stdout and stderr
    both bound to one builder, new and so distinct from whatever the
    command had as [out] and [err]; the command keeps that binding. The
    builder receives all the process writes, and its content is what the
    runner returns whenever it returns, which it does when the process
    reports no error. *)
Theorem both_streams_captured direct c w this name rest :
  w_cmds w !! c = Some this ->
  launch parse direct this = Start name rest ->
  exists w1 x,
    runs (w_log (snd (Str_runner parse os direct c w))) =
      runs (w_log w) ++ [x] /\
    cmd_Stdout x = WBuf (length (w_builders w)) /\
    cmd_Stderr x = WBuf (length (w_builders w)) /\
    w_builders w !! length (w_builders w) = None /\
    w_cmds (snd (Str_runner parse os direct c w)) !! c =
      Some (set_err (WBuf (length (w_builders w)))
              (set_out (WBuf (length (w_builders w))) this)) /\
    w_builders (snd (Str_runner parse os direct c w))
      !! length (w_builders w) = Some (output (os w1 x)) /\
    (forall s, fst (Str_runner parse os direct c w) = Ret s ->
       s = output (os w1 x)) /\
    (pr_err (os w1 x) = None ->
     fst (Str_runner parse os direct c w) = Ret (output (os w1 x))).
Proof.
  intros Hc Hl. rewrite (capture_run direct c w this Hc).
  set (b := length (w_builders w)).
  set (this0 := set_err (WBuf b) (set_out (WBuf b) this)).
  pose proof (captured_lookup c this w Hc) as Hc0. fold b this0 in Hc0.
  assert (Hl0 : launch parse direct this0 = Start name rest) by exact Hl.
  pose proof (strategy_cases parse os direct c (captured c this w)) as H.
  rewrite Hc0, Hl0 in H. destruct H as (w1 & Hq & H). cbn zeta in H.
  set (x := filled this0 (w_environ (captured c this w))
              (exec_Command name rest)) in *.
  destruct (filled_fields this0 (w_environ (captured c this w))
              (exec_Command name rest))
    as (_ & _ & _ & _ & _ & Hout & Herr).
  fold x in Hout, Herr. simpl in Hout, Herr.
  exists w1, x.
  set (W := finished os this0 x w1) in *.
  assert (Hrun :
    (e <- strategy parse os direct c ;;
     escalate c (warning_prefix direct) e ;;; Builder_String b)
      (captured c this w) =
    (escalate c (warning_prefix direct) (pr_err (os w1 x)) ;;;
     Builder_String b) W).
  { unfold bind at 1. now rewrite H. }
  rewrite Hrun. clear Hrun.
  destruct (finished_facts os this0 x _ w1 Hq)
    as (F1 & _ & _ & _ & F5 & _). fold W in F1, F5.
  assert (HbW : w_builders W !! b = Some (output (os w1 x))).
  { unfold W. rewrite (finished_builder this0 x _ w1 b Hq Hout Herr).
    rewrite list_lookup_alter_eq. simpl.
    rewrite (list_lookup_middle (w_builders w) [] "" b eq_refl).
    reflexivity. }
  destruct (read_after_escalate c (warning_prefix direct)
              (pr_err (os w1 x)) b W _ HbW) as (Hk & Hret & Hok).
  split. { rewrite (k_runs _ _ Hk), F5. reflexivity. }
  split; [exact Hout |]. split; [exact Herr |].
  split. { apply lookup_ge_None. unfold b. lia. }
  split. { rewrite (k_cmds _ _ Hk), F1. exact Hc0. }
  split. { rewrite (k_builders _ _ Hk). exact HbW. }
  split; [exact Hret |].
  intros He. apply Hok. now rewrite He.
Qed.

(** C10: the strategy of [RunStr] or [BashStr] fails with the error [e],
    leaving the world [w1], and the handler of the context returns on
    [e]. Then the handler is called with [e] and the runner returns the
    text the builder holds in [w1]. *)
Theorem captured_text_after_failure direct c w this e w1 h :
  w_cmds w !! c = Some this ->
  strategy parse os direct c (captured c this w) = (Ret (Some e), w1) ->
  fnErr (w_bsh w) = Some h ->
  h_call h (Some e) = None ->
  exists s,
    fst (Str_runner parse os direct c w) = Ret s /\
    w_builders w1 !! length (w_builders w) = Some s /\
    w_builders (snd (Str_runner parse os direct c w))
      !! length (w_builders w) = Some s /\
    handled (w_log (snd (Str_runner parse os direct c w))) =
      handled (w_log w1) ++ [(h_id h, Some e)].
Proof.
  intros Hc Hs Hh Hret. rewrite (capture_run direct c w this Hc).
  destruct (strategy_returns parse os direct c _ _ _ Hs)
    as (this0 & Hc0 & Hc1 & Hf1 & Hlen).
  assert (Hb : exists s, w_builders w1 !! length (w_builders w) = Some s).
  { apply lookup_lt_is_Some_2. rewrite Hlen. simpl.
    rewrite length_app. simpl. lia. }
  destruct Hb as (s & Hb). exists s.
  assert (Hrun :
    (e0 <- strategy parse os direct c ;;
     escalate c (warning_prefix direct) e0 ;;;
     Builder_String (length (w_builders w))) (captured c this w) =
    (escalate c (warning_prefix direct) (Some e) ;;;
     Builder_String (length (w_builders w))) w1).
  { unfold bind at 1. now rewrite Hs. }
  rewrite Hrun. clear Hrun.
  assert (Hc1' : w_cmds w1 !! c = Some this0) by now rewrite Hc1.
  destruct (escalate_error c (warning_prefix direct) e w1 this0
              (warning_prefix_nonempty direct) Hc1')
    as (w2 & Hq & Hesc).
  assert (Hh2 : fnErr (w_bsh w2) = Some h).
  { rewrite (q_fnErr _ _ Hq), Hf1. exact Hh. }
  unfold bind. rewrite Hesc, (Panic_handler _ _ _ Hh2), Hret.
  unfold Builder_String. cbn [w_builders set_log].
  rewrite (q_builders _ _ Hq), Hb. cbn [fst snd w_builders w_log set_log].
  rewrite (q_builders _ _ Hq), handled_snoc, (q_handled _ _ Hq).
  now repeat split.
Qed.

End Capture.

Lemma both_streams_captured_witness :
  fst (Str_runner sample_Parse sample_os false 0
         (sample_world "echo hi | wc -l" None)) = Ret "hi" /\
  (cmd_Stdout <$> runs (w_log (snd (Str_runner sample_Parse sample_os false 0
                          (sample_world "echo hi | wc -l" None)))))
  = [WBuf 0].
Proof.
  destruct (both_streams_captured sample_Parse sample_os false 0
              (sample_world "echo hi | wc -l" None)
              (sample_Command "echo hi | wc -l")
              "bash" ["-c"; "echo hi | wc -l"] eq_refl eq_refl)
    as (w1 & x & H1 & H2 & _).
  split; [reflexivity |]. rewrite H1. simpl. now rewrite H2.
Defined.

Lemma captured_text_after_failure_witness :
  exists s,
    fst (Str_runner sample_Parse sample_os true 0
           (sample_world "fail now" (Some sample_handler))) = Ret s /\
    s = "out;err;".
Proof.
  destruct (captured_text_after_failure sample_Parse sample_os true 0
              (sample_world "fail now" (Some sample_handler))
              (sample_Command "fail now") (ExitError 3)
              (snd (strategy sample_Parse sample_os true 0
                      (captured 0 (sample_Command "fail now")
                         (sample_world "fail now" (Some sample_handler)))))
              sample_handler eq_refl eq_refl eq_refl eq_refl)
    as (s & H1 & H2 & _).
  exists s. split; [exact H1 |].
  simpl in H2. now injection H2.
Defined.

(** ** Pushing and popping filters *)

Lemma set_bsh_same w : set_bsh (w_bsh w) w = w.
Proof. now destruct w. Qed.

Lemma set_echoFilters_same b : set_echoFilters (echoFilters b) b = b.
Proof. now destruct b. Qed.

Lemma push_all_spec l w :
  push_all l w =
  (Ret tt,
   set_bsh (set_echoFilters (echoFilters (w_bsh w) ++ l) (w_bsh w)) w).
Proof.
  revert w. induction l as [| s l IH]; intros w.
  - simpl. now rewrite app_nil_r, set_echoFilters_same, set_bsh_same.
  - simpl push_all. unfold bind, PushEchoFilter, modify_world.
    rewrite IH. simpl. now rewrite <- app_assoc.
Qed.

Lemma PopEchoFilter_snoc w l s :
  echoFilters (w_bsh w) = l ++ [s] ->
  PopEchoFilter w = (Ret tt, set_bsh (set_echoFilters l (w_bsh w)) w).
Proof.
  intros H. unfold PopEchoFilter. rewrite H.
  destruct (l ++ [s]) as [| a l'] eqn:Hl.
  - now destruct l.
  - rewrite <- Hl, length_app. simpl.
    replace (length l + 1 - 1)%nat with (length l) by lia.
    now rewrite take_app_length.
Qed.

Lemma pop_n_spec l w base :
  echoFilters (w_bsh w) = base ++ l ->
  pop_n (length l) w =
  (Ret tt, set_bsh (set_echoFilters base (w_bsh w)) w).
Proof.
  revert w. induction l as [| s l IH] using rev_ind; intros w H.
  - rewrite app_nil_r in H. simpl. rewrite <- H.
    now rewrite set_echoFilters_same, set_bsh_same.
  - rewrite length_app. simpl length.
    replace (length l + 1)%nat with (S (length l)) by lia.
    simpl pop_n. unfold bind.
    rewrite (PopEchoFilter_snoc w (base ++ l) s) by now rewrite <- app_assoc.
    rewrite IH by reflexivity. reflexivity.
Qed.

Lemma bind_assoc {A B C} (m : Act A) (k : A -> Act B) (j : B -> Act C) w :
  bind (bind m k) j w = bind m (fun a => bind (k a) j) w.
Proof. unfold bind. now destruct (m w) as [[a | p] w']. Qed.

Lemma bind_ext {A B} (m : Act A) (k k' : A -> Act B) w :
  (forall a w', k a w' = k' a w') -> bind m k w = bind m k' w.
Proof.
  intros H. unfold bind. destruct (m w) as [[a | p] w']; [apply H | reflexivity].
Qed.

Lemma pop_n_succ n w :
  pop_n (S n) w = (pop_n n ;;; PopEchoFilter) w.
Proof.
  revert w. induction n as [| n IH]; intros w.
  - simpl. unfold bind, ret. now destruct (PopEchoFilter w) as [[[] | p] w1].
  - change (pop_n (S (S n)) w) with ((PopEchoFilter ;;; pop_n (S n)) w).
    change (pop_n (S n)) with (PopEchoFilter ;;; pop_n n) at 2.
    rewrite bind_assoc. apply bind_ext. intros _ w'. apply IH.
Qed.

Lemma push_all_pop_n l w :
  (push_all l ;;; pop_n (length l)) w = (Ret tt, w).
Proof.
  unfold bind. rewrite push_all_spec.
  rewrite (pop_n_spec l _ (echoFilters (w_bsh w))) by reflexivity.
  destruct w as [b cs ints bs environ log]. now destruct b.
Qed.

(** Filters are a stack: popping as many filters as were pushed gives the
    world back as it was, and with no filter left one more pop is a
    run-time error. *)
Theorem echo_filters_balanced (l : list string) (w : World) :
  (push_all l ;;; pop_n (length l)) w = (Ret tt, w) /\
  (echoFilters (w_bsh w) = [] ->
   (push_all l ;;; pop_n (S (length l))) w = (Fault slice_out_of_range, w)).
Proof.
  split; [apply push_all_pop_n |].
  intros He. pose proof (push_all_pop_n l w) as H.
  unfold bind in *. destruct (push_all l w) as [[[] | p] w1]; [| discriminate].
  rewrite pop_n_succ. unfold bind. rewrite H.
  unfold PopEchoFilter. now rewrite He.
Qed.

(** * Verbosity *)

Lemma os_LookupEnv_env_set environ key value :
  os_LookupEnv (env_set environ key value) key = Some value.
Proof.
  induction environ as [| [k v] rest IH]; simpl.
  - now rewrite String.eqb_refl.
  - destruct (String.eqb k key) eqn:Hk; simpl.
    + now rewrite String.eqb_refl.
    + now rewrite Hk.
Qed.

Lemma strconv_ParseBool_FormatBool v :
  strconv_ParseBool (strconv_FormatBool v) = (v, true).
Proof. now destruct v. Qed.

Lemma has_byte_NUL_FormatBool v :
  has_byte "000"%char (strconv_FormatBool v) = false.
Proof. now destruct v. Qed.

Lemma valid_env_key_length key :
  valid_env_key key = true -> (String.length key =? 0)%nat = false.
Proof. destruct key; [discriminate | reflexivity]. Qed.

Lemma length_zero_empty s : (String.length s =? 0)%nat = true -> s = "".
Proof. destruct s; [reflexivity | discriminate]. Qed.

(** [SetVerbose] on a usable variable name, and [IsVerbose] right after. *)
Lemma SetVerbose_spec v w :
  verboseEnvVar (w_bsh w) = "" \/
  valid_env_key (verboseEnvVar (w_bsh w)) = true ->
  exists w',
    SetVerbose v w = (Ret tt, w') /\
    IsVerbose w' = (Ret v, w') /\
    w_log w' = w_log w /\
    verboseEnvVar (w_bsh w') =
      (if String.eqb (verboseEnvVar (w_bsh w)) "" then mageVerboseEnvVar
       else verboseEnvVar (w_bsh w)).
Proof.
  intros Hname.
  assert (Hgo : forall w0 : World,
    valid_env_key (verboseEnvVar (w_bsh w0)) = true ->
    exists w',
      (w1 <- get_world ;;
       os_Setenv (verboseEnvVar (w_bsh w1)) (strconv_FormatBool v) ;;;
       ret tt) w0 = (Ret tt, w') /\
      IsVerbose w' = (Ret v, w') /\
      w_log w' = w_log w0 /\
      verboseEnvVar (w_bsh w') = verboseEnvVar (w_bsh w0)).
  { intros w0 Hv. eexists. split; [| split; [| split]].
    - unfold bind, get_world, os_Setenv, ret.
      rewrite Hv, has_byte_NUL_FormatBool. reflexivity.
    - unfold IsVerbose, bind, modify_world, get_world, ret. simpl.
      rewrite (valid_env_key_length _ Hv). simpl.
      unfold os_Getenv. rewrite os_LookupEnv_env_set.
      now rewrite strconv_ParseBool_FormatBool.
    - reflexivity.
    - reflexivity. }
  unfold SetVerbose. unfold bind at 1, modify_world.
  destruct (String.length (verboseEnvVar (w_bsh w)) =? 0)%nat eqn:Hlen.
  - apply length_zero_empty in Hlen. rewrite Hlen. simpl String.eqb.
    destruct (Hgo (set_bsh (set_verboseEnvVar mageVerboseEnvVar (w_bsh w)) w)
                eq_refl) as (w' & H1 & H2 & H3 & H4).
    exists w'. now repeat split.
  - destruct Hname as [He | Hv]; [rewrite He in Hlen; discriminate |].
    destruct (Hgo w Hv) as (w' & H1 & H2 & H3 & H4).
    exists w'. repeat split; try assumption.
    rewrite H4. destruct (String.eqb_spec (verboseEnvVar (w_bsh w)) "") as [He |];
      [rewrite He in Hlen; discriminate | reflexivity].
Qed.

Lemma SetVerbose_filters v w :
  echoFilters (w_bsh (snd (SetVerbose v w))) = echoFilters (w_bsh w).
Proof.
  unfold SetVerbose, bind, modify_world, get_world, os_Setenv, ret.
  destruct (String.length (verboseEnvVar (w_bsh w)) =? 0)%nat; cbn;
    match goal with
    | |- context [if ?b then _ else _] => now destruct b
    end.
Qed.

(** A line asked for with its newline: [echo] prints it, or panics when
    there is nothing to end with a newline. *)
Lemma echo_line str opts w :
  ensureNewline ∈ opts -> ignoreFilter ∉ opts ->
  echo str opts w =
  if bool_decide (str = "" /\ "" ∉ echoFilters (w_bsh w))
  then (Fault index_minus_one, w)
  else emit (EvEcho str opts) w.
Proof.
  intros Hnl Hf. unfold echo, echo_text, echo_flags.
  rewrite (echo_flags_filter opts _ Hf).
  rewrite (echo_flags_newline opts _ (or_introl Hnl)). cbn [fl_filter].
  destruct (last_byte (echo_filtered (echoFilters (w_bsh w)) str))
    as [ch |] eqn:Hl.
  - rewrite bool_decide_eq_false_2; [reflexivity |].
    intros [-> Hn]. rewrite (echo_filtered_empty _ Hn) in Hl. discriminate.
  - rewrite bool_decide_eq_true_2; [reflexivity |].
    apply last_byte_None in Hl. split.
    + destruct (String.eqb_spec str "") as [-> | Hs]; [reflexivity |].
      exfalso.
      now apply (echo_filtered_nonempty (echoFilters (w_bsh w)) str); [left |].
    + intros Hin.
      now apply (echo_filtered_nonempty (echoFilters (w_bsh w)) str);
        [right |].
Qed.

(** What [SetVerbose] sets, [IsVerbose] reads: after [SetVerbose v],
    [IsVerbose] returns [v]. [Verbosef] then prints nothing when [v] is
    false. When [v] is true it prints its line, unless the message is
    empty and no filter is the empty string: then it panics, as [echo]
    does, and prints nothing. The name of the variable must be one
    [os.Setenv] accepts, or still unset. *)
Theorem SetVerbose_IsVerbose (v : bool) (w : World) (msg : string) :
  verboseEnvVar (w_bsh w) = "" \/
  valid_env_key (verboseEnvVar (w_bsh w)) = true ->
  let nothing := bool_decide (msg = "" /\ "" ∉ echoFilters (w_bsh w)) in
  fst ((SetVerbose v ;;; IsVerbose) w) = Ret v /\
  fst ((SetVerbose v ;;; Verbosef msg) w) =
    (if v && nothing then Fault index_minus_one else Ret tt) /\
  w_log (snd ((SetVerbose v ;;; Verbosef msg) w)) =
    w_log w ++
    (if v && negb nothing
     then [EvEcho msg [ensureNewline; colorVerbose]] else []).
Proof.
  intros Hname nothing.
  destruct (SetVerbose_spec v w Hname) as (w' & H1 & H2 & H3 & _).
  pose proof (SetVerbose_filters v w) as Hf. rewrite H1 in Hf. cbn [snd] in Hf.
  split; [unfold bind; now rewrite H1, H2 |].
  unfold bind at 1 2. rewrite H1. unfold Verbosef, bind. rewrite H2.
  destruct v; cbn [negb andb fst snd].
  2: { unfold ret. cbn [fst snd]. rewrite H3, app_nil_r. now split. }
  rewrite (echo_line msg [ensureNewline; colorVerbose] w').
  - rewrite Hf. fold nothing.
    destruct nothing; cbn [negb fst snd];
      [rewrite H3, app_nil_r; now split |].
    cbn. rewrite H3. now split.
  - apply elem_of_cons. now left.
  - intros H. apply elem_of_cons in H as [H | H]; [discriminate |].
    apply list_elem_of_singleton in H. discriminate.
Qed.

Lemma SetVerbose_IsVerbose_witness :
  fst ((SetVerbose true ;;; IsVerbose) (sample_world "ls" None)) = Ret true /\
  fst ((SetVerbose true ;;; Verbosef "") (sample_world "ls" None)) =
    Fault index_minus_one /\
  w_log (snd ((SetVerbose true ;;; Verbosef "") (sample_world "ls" None))) =
    [].
Proof.
  apply (SetVerbose_IsVerbose true (sample_world "ls" None) "").
  now left.
Defined.

(** [SetVerboseEnvVarName] changes the variable and keeps the verbosity:
    [IsVerbose] returns afterwards what it returned before. The new name
    must be one [os.Setenv] accepts; the empty name stands for the
    default. *)
Theorem SetVerboseEnvVarName_keeps (s : string) (w : World) :
  s = "" \/ valid_env_key s = true ->
  fst ((SetVerboseEnvVarName s ;;; IsVerbose) w) = fst (IsVerbose w) /\
  verboseEnvVar (w_bsh (snd (SetVerboseEnvVarName s w))) =
    (if String.eqb s "" then mageVerboseEnvVar else s).
Proof.
  intros Hs. destruct (IsVerbose_spec w) as (was & w0 & Hv & _).
  rewrite Hv. cbn [fst].
  destruct (SetVerbose_spec was
              (set_bsh (set_verboseEnvVar s (w_bsh w0)) w0) Hs)
    as (w' & H1 & H2 & _ & H4).
  assert (Hn : SetVerboseEnvVarName s w = (Ret tt, w')).
  { unfold SetVerboseEnvVarName. unfold bind at 1. rewrite Hv.
    unfold bind at 1, modify_world. exact H1. }
  split.
  - unfold bind. now rewrite Hn, H2.
  - rewrite Hn. exact H4.
Qed.

Lemma SetVerboseEnvVarName_keeps_witness :
  fst ((SetVerboseEnvVarName "BSH_VERBOSE_TEST" ;;; IsVerbose)
         (sample_world "ls" None)) = Ret false.
Proof.
  apply (SetVerboseEnvVarName_keeps "BSH_VERBOSE_TEST"
           (sample_world "ls" None)).
  now right.
Defined.

(** * The runners, one by one *)

Lemma forget_bind {A B} (m : Act A) (k : A -> Act B) w :
  forget (bind m k) w = bind m (fun a => forget (k a)) w.
Proof. unfold forget, bind. now destruct (m w) as [[a | p] w']. Qed.

Lemma forget_ret {A} (a : A) w : forget (ret a) w = (Ret tt, w).
Proof. reflexivity. Qed.

Lemma forget_unit (m : Act unit) w : forget m w = m w.
Proof. unfold forget. now destruct (m w) as [[[] | p] w']. Qed.

Lemma world_after_runner parse os r c w :
  world_after parse os r c w = snd (runner parse os r c w) /\
  runner_outcome parse os r c w = outcome (runner parse os r c w).
Proof.
  unfold world_after, runner_outcome, runner, outcome, forget.
  destruct r;
    match goal with
    | |- context [match ?m w with _ => _ end] =>
        destruct (m w) as [[a | p] w']
    end; now split.
Qed.

Lemma forget_capture {B} c w this (k : nat -> Act B) :
  w_cmds w !! c = Some this ->
  forget (b <- new_Builder ;;
          assign c (set_out (WBuf b)) ;;;
          assign c (set_err (WBuf b)) ;;;
          k b) w =
  forget (k (length (w_builders w))) (captured c this w).
Proof.
  intros Hc. unfold forget at 1. rewrite (capture_bind c w this k Hc).
  reflexivity.
Qed.

(** Every runner is its strategy followed by its tail. *)
Lemma runner_normal_form parse os r c w this :
  w_cmds w !! c = Some this ->
  runner parse os r c w =
  (e <- strategy parse os (is_direct r) c ;;
   runner_tail r c (length (w_builders w)) e) (start_world r c this w).
Proof.
  intros Hc. unfold runner, start_world, strategy.
  destruct r; cbn [rebinds is_direct runner_tail].
  - unfold Run. rewrite forget_unit. reflexivity.
  - unfold RunStr.
    rewrite (forget_capture c w this
               (fun b => e <- run parse os c ;;
                         escalate c "unexpected error in " e ;;;
                         Builder_String b) Hc).
    rewrite forget_bind. apply bind_ext. intros e w'. now rewrite forget_bind.
  - unfold RunErr, forget, bind, ret.
    now destruct (run parse os c w) as [[a | p] w'].
  - unfold RunExitStatus. rewrite forget_bind. apply bind_ext. intros e w'.
    destruct (extractExitStatus e) as [n e']. cbn [snd].
    rewrite forget_bind. unfold bind, forget, ret.
    now destruct (escalate c _ e' w') as [[[] | p] w''].
  - unfold Bash. rewrite forget_unit. reflexivity.
  - unfold BashStr.
    rewrite (forget_capture c w this
               (fun b => e <- bash os c ;;
                         escalate c "unexpected error in bash -c " e ;;;
                         Builder_String b) Hc).
    rewrite forget_bind. apply bind_ext. intros e w'. now rewrite forget_bind.
  - unfold BashErr, forget, bind, ret.
    now destruct (bash os c w) as [[a | p] w'].
  - unfold BashExitStatus. rewrite forget_bind. apply bind_ext. intros e w'.
    destruct (extractExitStatus e) as [n e']. cbn [snd].
    rewrite forget_bind. unfold bind, forget, ret.
    now destruct (escalate c _ e' w') as [[[] | p] w''].
Qed.

(** ** Warnings *)

Lemma warnings_snoc l ev :
  warnings (l ++ [ev]) =
  warnings l ++
  match ev with
  | EvEcho str opts =>
      if bool_decide (opts = [ensureNewline; colorWarn]) then [str] else []
  | _ => []
  end.
Proof.
  unfold warnings. rewrite omap_app. destruct ev; try reflexivity.
  simpl. now destruct (bool_decide (opts = [ensureNewline; colorWarn])).
Qed.

Lemma preserves_bind {A B X} (f : World -> X) (m : Act A) (k : A -> Act B) :
  preserves f m -> (forall a, preserves f (k a)) -> preserves f (bind m k).
Proof.
  intros Hm Hk w. unfold bind. specialize (Hm w).
  destruct (m w) as [[a | p] w']; simpl in *; [| exact Hm].
  now rewrite Hk.
Qed.

Lemma preserves_ret {A X} (f : World -> X) (a : A) : preserves f (ret a).
Proof. now intros w. Qed.

Lemma preserves_panic {A X} (f : World -> X) p : preserves f (@panic A p).
Proof. now intros w. Qed.

Lemma preserves_deref {X} (f : World -> X) c : preserves f (deref c).
Proof. intros w. unfold deref. now destruct (w_cmds w !! c). Qed.

Lemma preserves_Verbosef msg :
  preserves (fun w => warnings (w_log w)) (Verbosef msg).
Proof.
  intros w. unfold Verbosef, IsVerbose, bind, modify_world, get_world, ret.
  simpl.
  destruct (String.length (verboseEnvVar (w_bsh w)) =? 0)%nat; simpl;
    destruct (negb _); simpl; try reflexivity;
    match goal with
    | |- context [echo ?m ?o ?w0] =>
        destruct (echo_outcome m o w0) as [-> | (p & ->)]
    end; try reflexivity; simpl; now rewrite warnings_snoc, app_nil_r.
Qed.

Lemma preserves_fill this x :
  preserves (fun w => warnings (w_log w)) (fill this x).
Proof.
  unfold fill. apply preserves_bind; [| intros; apply preserves_ret].
  destruct (0 <? length (env this))%nat; [| apply preserves_ret].
  apply preserves_bind; [apply preserves_Verbosef |].
  intros _. apply preserves_bind; [now intros w | intros; apply preserves_ret].
Qed.

Lemma deliver_all_warnings x chunks w :
  warnings (w_log (deliver_all x chunks w)) = warnings (w_log w).
Proof.
  revert w. induction chunks as [| ch chunks IH]; intros w; [reflexivity |].
  rewrite deliver_all_cons, IH.
  destruct (if fst ch then cmd_Stderr x else cmd_Stdout x); simpl;
    try reflexivity; now rewrite warnings_snoc, app_nil_r.
Qed.

Lemma preserves_exec_Run os x :
  preserves (fun w => warnings (w_log w)) (exec_Run os x).
Proof.
  intros w. unfold exec_Run. cbn [snd]. rewrite deliver_all_warnings.
  simpl. now rewrite warnings_snoc, app_nil_r.
Qed.

Lemma preserves_storeExitStatus this e :
  preserves (fun w => warnings (w_log w)) (storeExitStatus this e).
Proof.
  intros w. unfold storeExitStatus.
  destruct (exitStatus this); [| reflexivity].
  destruct (extractExitStatus e) as [code [e' |]]; [reflexivity |].
  simpl. now rewrite warnings_snoc, app_nil_r.
Qed.

(** No strategy warns. *)
Lemma preserves_strategy parse os direct c :
  preserves (fun w => warnings (w_log w)) (strategy parse os direct c).
Proof.
  assert (Htail : forall this x,
    preserves (fun w => warnings (w_log w))
      (x0 <- fill this x ;;
       e <- exec_Run os x0 ;; storeExitStatus this e ;;; ret e)).
  { intros this x. apply preserves_bind; [apply preserves_fill |].
    intros x0. apply preserves_bind; [apply preserves_exec_Run |].
    intros e. apply preserves_bind; [apply preserves_storeExitStatus |].
    intros; apply preserves_ret. }
  unfold strategy. destruct direct; [unfold run | unfold bash];
    (apply preserves_bind; [apply preserves_deref |]); intros this.
  - destruct (parse (raw this)) as [args [e |]]; [apply preserves_ret |].
    apply preserves_bind; [apply preserves_Verbosef |]. intros _.
    destruct args; [apply preserves_panic | apply Htail].
  - apply preserves_bind; [apply preserves_Verbosef |]. intros _.
    apply Htail.
Qed.

(** No strategy calls the error handler. *)
Lemma strategy_handled parse os direct c w :
  handled (w_log (snd (strategy parse os direct c w))) = handled (w_log w).
Proof.
  pose proof (strategy_cases parse os direct c w) as H.
  destruct (w_cmds w !! c) as [this |]; [| now rewrite H].
  destruct (launch parse direct this) as [e | | name rest].
  - now rewrite H.
  - destruct H as (w1 & Hq & ->). apply (q_handled _ _ Hq).
  - destruct H as (w1 & Hq & H). cbn zeta in H. rewrite H. cbn [snd].
    now destruct (finished_facts os this
                    (filled this (w_environ w) (exec_Command name rest))
                    w w1 Hq) as (_ & _ & _ & _ & _ & F & _).
Qed.


Lemma start_world_bsh r c this w :
  w_bsh (start_world r c this w) = w_bsh w /\
  w_builders (start_world r c this w) =
    (if rebinds r then w_builders w ++ [""] else w_builders w).
Proof. unfold start_world. now destruct (rebinds r). Qed.

(** ** The tail of a runner *)

Lemma forget_Builder_String b w :
  is_Some (w_builders w !! b) -> forget (Builder_String b) w = (Ret tt, w).
Proof.
  intros [s Hs]. unfold forget, Builder_String. now rewrite Hs.
Qed.

Lemma runner_tail_nil r c b w :
  (rebinds r = true -> is_Some (w_builders w !! b)) ->
  runner_tail r c b None w = (Ret tt, w).
Proof.
  intros Hb. destruct r; try reflexivity;
    unfold runner_tail, bind; rewrite escalate_nil;
    apply forget_Builder_String, Hb; reflexivity.
Qed.



(** The builder of a capturing runner is there when the strategy ends. *)
Lemma strategy_keeps_builder parse os r c w this e W :
  strategy parse os (is_direct r) c (start_world r c this w) = (Ret e, W) ->
  rebinds r = true -> is_Some (w_builders W !! length (w_builders w)).
Proof.
  intros Hs Hr.
  destruct (strategy_returns parse os _ c _ _ _ Hs) as (_ & _ & _ & _ & Hlen).
  apply lookup_lt_is_Some_2. rewrite Hlen.
  destruct (start_world_bsh r c this w) as [_ Hb]. rewrite Hb, Hr.
  rewrite length_app. simpl. lia.
Qed.

Section Outcomes.

Context (parse : string -> list string * goerror)
        (os : World -> exec_Cmd -> ProcResult).

(** A command whose text yields no token: every runner of the direct
    strategy panics with the run-time error of slicing the empty token
    list, slice bounds out of range [1:0]. No process is run, and the
    error handler is not called, whether one is set or not. *)
Theorem run_without_tokens r c w this :
  w_cmds w !! c = Some this ->
  is_direct r = true ->
  parse (raw this) = ([], None) ->
  runner_outcome parse os r c w = Some slice_bounds_out_of_range /\
  runs (w_log (world_after parse os r c w)) = runs (w_log w) /\
  handled (w_log (world_after parse os r c w)) = handled (w_log w).
Proof.
  intros Hc Hd Hp.
  destruct (world_after_runner parse os r c w) as [-> ->].
  rewrite (runner_normal_form parse os r c w this Hc).
  pose proof (start_world_lookup r c this w Hc) as Hc0.
  destruct (start_world_frame r c this w) as (_ & Hlog & _ & Hraw).
  pose proof (strategy_cases parse os (is_direct r) c
                (start_world r c this w)) as H.
  rewrite Hc0 in H. unfold launch in H. rewrite Hd, Hraw, Hp in H.
  rewrite Hd.
  destruct H as (w1 & Hq & H). unfold bind, outcome. rewrite H. cbn [fst snd].
  rewrite (q_runs _ _ Hq), (q_handled _ _ Hq), Hlog. now repeat split.
Qed.


(** The process the command starts ([x], in the statement) reports no
    error: every runner returns, without a warning and without calling
    the error handler; the runners of the exit status return 0. *)
Theorem success_is_silent r c w this name rest :
  w_cmds w !! c = Some this ->
  launch parse (is_direct r) this = Start name rest ->
  let x := filled (start_Command r this w) (w_environ w)
             (exec_Command name rest) in
  (forall w1, quiet (start_world r c this w) w1 -> pr_err (os w1 x) = None) ->
  runner_outcome parse os r c w = None /\
  runs (w_log (world_after parse os r c w)) = runs (w_log w) ++ [x] /\
  handled (w_log (world_after parse os r c w)) = handled (w_log w) /\
  warnings (w_log (world_after parse os r c w)) = warnings (w_log w) /\
  (r = rRunExitStatus -> fst (RunExitStatus parse os c w) = Ret 0) /\
  (r = rBashExitStatus -> fst (BashExitStatus os c w) = Ret 0).
Proof.
  intros Hc Hl x Hos.
  destruct (start_world_frame r c this w) as (_ & Hlog & _ & _).
  destruct (runner_started parse os r c w this name rest Hc Hl)
    as (w1 & Hq & H).
  fold x in H. rewrite (Hos w1 Hq) in H.
  pose proof (strategy_handled parse os (is_direct r) c
                (start_world r c this w)) as Hh.
  pose proof (preserves_strategy parse os (is_direct r) c
                (start_world r c this w)) as Hw.
  cbn beta in Hw. rewrite H in Hh, Hw. cbn [snd] in Hh, Hw.
  rewrite Hlog in Hh, Hw.
  destruct (finished_facts os (start_Command r this w) x _ w1 Hq)
    as (_ & _ & _ & _ & Fr & _).
  rewrite Hlog in Fr.
  assert (Hrun : runner parse os r c w =
                 (Ret tt, finished os (start_Command r this w) x w1)).
  { rewrite (runner_normal_form parse os r c w this Hc).
    unfold bind. rewrite H. apply runner_tail_nil.
    apply (strategy_keeps_builder parse os r c w this None _ H). }
  destruct (world_after_runner parse os r c w) as [-> ->].
  rewrite Hrun. unfold outcome. cbn [fst snd].
  split; [reflexivity |]. split; [exact Fr |].
  split; [exact Hh |]. split; [exact Hw |].
  split; intros ->; cbn [is_direct start_world rebinds] in H;
    unfold strategy in H.
  - unfold RunExitStatus, bind. now rewrite H.
  - unfold BashExitStatus, bind. now rewrite H.
Qed.


End Outcomes.

Lemma run_without_tokens_witness :
  runner_outcome sample_Parse sample_os rRunStr 0
    (sample_world "" (Some sample_handler)) = Some slice_bounds_out_of_range.
Proof.
  apply (run_without_tokens sample_Parse sample_os rRunStr 0
           (sample_world "" (Some sample_handler)) (sample_Command ""));
    reflexivity.
Defined.

Lemma success_is_silent_witness :
  runner_outcome sample_Parse sample_os rBashExitStatus 0
    (sample_world "echo hi" (Some sample_handler)) = None /\
  handled (w_log (world_after sample_Parse sample_os rBashExitStatus 0
                    (sample_world "echo hi" (Some sample_handler)))) = [] /\
  fst (BashExitStatus sample_os 0
         (sample_world "echo hi" (Some sample_handler))) = Ret 0.
Proof.
  destruct (success_is_silent sample_Parse sample_os rBashExitStatus 0
              (sample_world "echo hi" (Some sample_handler))
              (sample_Command "echo hi") "bash" ["-c"; "echo hi"]
              eq_refl eq_refl)
    as (H1 & _ & H3 & _ & _ & H6).
  - intros w1 _. reflexivity.
  - split; [exact H1 |]. split; [exact H3 | exact (H6 eq_refl)].
Defined.


(** * Building a command *)

Lemma modify_spec expand m c w :
  modify expand m c w =
  match w_cmds w !! c with
  | Some this =>
      (Ret c,
       set_cmds (<[c := effect expand (w_environ w) m this]> (w_cmds w)) w)
  | None => (Fault nil_dereference, w)
  end.
Proof.
  destruct (w_cmds w !! c) as [this |] eqn:Hc.
  - pose proof (lookup_lt_Some _ _ _ Hc) as Hlt.
    destruct m; simpl modify; simpl effect;
      try (apply (modify_assign c w this _ Hc)).
    + unfold OutErr, assign. unfold bind at 1.
      rewrite (bind_deref _ _ _ _ Hc). unfold modify_world at 1.
      unfold bind at 1.
      rewrite (bind_deref c _ (set_out wr this))
        by (simpl; now apply list_lookup_insert_eq).
      unfold modify_world, bind, ret. simpl. unfold set_cmds. simpl.
      now rewrite list_insert_insert_eq.
    + unfold ExpandEnv, bind at 1, get_world.
      apply (modify_assign c w this
               (fun t => set_raw (expand (w_environ w) (raw t)) t) Hc).
    + apply (modify_assign c w this
               (fun t => set_env (env t ++ vars) t) Hc).
  - destruct m; simpl modify;
      unfold In, Out, Err, OutErr, ExitStatus, ExpandEnv, Env, Dir, assign;
      try (unfold bind at 1; now rewrite (bind_deref_nil _ _ _ Hc)).
    unfold bind at 1, get_world. unfold bind at 1.
    now rewrite (bind_deref_nil _ _ _ Hc).
Qed.

(** Two modifiers in a row. *)
Lemma modify_twice expand m1 m2 c w :
  (modify expand m1 c ;;; modify expand m2 c) w =
  match w_cmds w !! c with
  | Some this =>
      (Ret c,
       set_cmds (<[c := effect expand (w_environ w) m2
                          (effect expand (w_environ w) m1 this)]> (w_cmds w))
                w)
  | None => (Fault nil_dereference, w)
  end.
Proof.
  unfold bind. rewrite modify_spec.
  destruct (w_cmds w !! c) as [this |] eqn:Hc; [| reflexivity].
  pose proof (lookup_lt_Some _ _ _ Hc) as Hlt.
  rewrite modify_spec. simpl w_cmds. rewrite list_lookup_insert_eq by exact Hlt.
  simpl. unfold set_cmds. simpl. now rewrite list_insert_insert_eq.
Qed.

(** The modifiers may be chained in any order: two of them that assign
    different fields give the same command whichever comes first, also on
    a nil command, where both orders panic. *)
Theorem modifiers_commute
  (expand : list (string * string) -> string -> string)
  (m1 m2 : Modifier) (c : nat) (w : World) :
  independent m1 m2 = true ->
  (modify expand m1 c ;;; modify expand m2 c) w =
  (modify expand m2 c ;;; modify expand m1 c) w.
Proof.
  intros Hi. rewrite !modify_twice.
  destruct (w_cmds w !! c) as [this |]; [| reflexivity].
  f_equal. f_equal. f_equal.
  destruct m1, m2; try discriminate Hi; reflexivity.
Qed.

Lemma modifiers_commute_witness :
  (modify sample_ExpandEnv (mDir "/tmp") 0 ;;;
   modify sample_ExpandEnv (mEnv ["A=1"]) 0) (sample_world "ls" None) =
  (modify sample_ExpandEnv (mEnv ["A=1"]) 0 ;;;
   modify sample_ExpandEnv (mDir "/tmp") 0) (sample_world "ls" None).
Proof.
  apply (modifiers_commute sample_ExpandEnv (mDir "/tmp") (mEnv ["A=1"]) 0
           (sample_world "ls" None)).
  reflexivity.
Defined.

(** [Env] accumulates: two calls are one call with the variables of both,
    in order; every other modifier called twice keeps only what the
    second call assigns, [ExpandEnv] apart. *)
Theorem Env_appends
  (expand : list (string * string) -> string -> string)
  (c : nat) (w : World) (vars1 vars2 : list string) :
  (Env c vars1 ;;; Env c vars2) w = Env c (vars1 ++ vars2) w /\
  forall m1 m2,
    assigned m1 = assigned m2 -> m2 <> mExpandEnv ->
    (forall v, m2 <> mEnv v) ->
    (modify expand m1 c ;;; modify expand m2 c) w = modify expand m2 c w.
Proof.
  split.
  - change (Env c vars1) with (modify expand (mEnv vars1) c).
    change (Env c vars2) with (modify expand (mEnv vars2) c).
    change (Env c (vars1 ++ vars2))
      with (modify expand (mEnv (vars1 ++ vars2)) c).
    rewrite modify_twice, modify_spec.
    destruct (w_cmds w !! c) as [this |]; [| reflexivity].
    simpl. now rewrite <- app_assoc.
  - intros m1 m2 Ha Hx Hv. rewrite modify_twice, modify_spec.
    destruct (w_cmds w !! c) as [this |]; [| reflexivity].
    destruct m1, m2; try discriminate Ha; try congruence;
      try reflexivity.
Qed.

(** What [In], [Out], [Err] and [OutErr] bind is what [StdIn], [StdOut]
    and [StdErr] return; [Out] leaves stderr alone and [Err] stdout. *)
Theorem streams_read_back (c : nat) (w : World) (this : Command)
  (r : Reader) (wr : Writer) :
  w_cmds w !! c = Some this ->
  fst ((In c r ;;; StdIn c) w) = Ret r /\
  fst ((Out c wr ;;; StdOut c) w) = Ret wr /\
  fst ((Err c wr ;;; StdErr c) w) = Ret wr /\
  fst ((OutErr c wr ;;; StdOut c) w) = Ret wr /\
  fst ((OutErr c wr ;;; StdErr c) w) = Ret wr /\
  fst ((Out c wr ;;; StdErr c) w) = Ret (err this) /\
  fst ((Err c wr ;;; StdOut c) w) = Ret (out this).
Proof.
  intros Hc. pose proof (lookup_lt_Some _ _ _ Hc) as Hlt.
  assert (H : forall m (g : nat -> Act Writer) (proj : Command -> Writer),
            (forall w0 that, w_cmds w0 !! c = Some that ->
                             g c w0 = (Ret (proj that), w0)) ->
            fst ((modify (fun _ s => s) m c ;;; g c) w) =
            Ret (proj (effect (fun _ s => s) (w_environ w) m this))).
  { intros m g proj Hg. unfold bind. rewrite modify_spec, Hc.
    rewrite (Hg _ (effect (fun _ s => s) (w_environ w) m this));
      [reflexivity |].
    simpl. now apply list_lookup_insert_eq. }
  assert (Hout : forall w0 that, w_cmds w0 !! c = Some that ->
                   StdOut c w0 = (Ret (out that), w0)).
  { intros w0 that H0. unfold StdOut. now rewrite (bind_deref _ _ _ _ H0). }
  assert (Herr : forall w0 that, w_cmds w0 !! c = Some that ->
                   StdErr c w0 = (Ret (err that), w0)).
  { intros w0 that H0. unfold StdErr. now rewrite (bind_deref _ _ _ _ H0). }
  split.
  { unfold bind. change (In c r) with (modify (fun _ s => s) (mIn r) c).
    rewrite modify_spec, Hc. unfold StdIn.
    rewrite (bind_deref c _ (set_in r this));
      [reflexivity | simpl; now apply list_lookup_insert_eq]. }
  split; [exact (H (mOut wr) StdOut out Hout) |].
  split; [exact (H (mErr wr) StdErr err Herr) |].
  split; [exact (H (mOutErr wr) StdOut out Hout) |].
  split; [exact (H (mOutErr wr) StdErr err Herr) |].
  split; [exact (H (mOut wr) StdErr err Herr) |].
  exact (H (mErr wr) StdOut out Hout).
Qed.

Lemma streams_read_back_witness :
  fst ((OutErr 0 WNil ;;; StdErr 0) (sample_world "ls" None)) = Ret WNil.
Proof.
  apply (streams_read_back 0 (sample_world "ls" None) (sample_Command "ls")
           os_Stdin WNil eq_refl).
Defined.

(** A command made by [Cmd] is new and leaves the others as they are; it
    holds the text given, no directory, no variable and no sink, and none
    of its streams is nil: each is the stream of the context, or the
    standard one where the context has none. *)
Theorem Cmd_defaults (command : string) (w : World) :
  exists this,
    Cmd command w = (Ret (length (w_cmds w)), set_cmds (w_cmds w ++ [this]) w) /\
    w_cmds w !! length (w_cmds w) = None /\
    (forall c that, w_cmds w !! c = Some that ->
                    (w_cmds w ++ [this]) !! c = Some that) /\
    (raw this = command /\ dir this = "" /\ env this = [] /\
     exitStatus this = None) /\
    (in_ this <> RNil /\ out this <> WNil /\ err this <> WNil) /\
    (in_ this = Stdin (w_bsh w) \/
     Stdin (w_bsh w) = RNil /\ in_ this = os_Stdin) /\
    (out this = Stdout (w_bsh w) \/
     Stdout (w_bsh w) = WNil /\ out this = os_Stdout) /\
    (err this = Stderr (w_bsh w) \/
     Stderr (w_bsh w) = WNil /\ err this = os_Stderr).
Proof.
  eexists. split; [reflexivity |].
  split; [apply lookup_ge_None; lia |].
  split; [intros c that H; now apply lookup_app_l_Some |].
  split; [now repeat split |]. simpl.
  unfold ensureStdin, ensureStdout, ensureStderr.
  destruct (Stdin (w_bsh w)), (Stdout (w_bsh w)), (Stderr (w_bsh w));
    repeat split; try discriminate; auto.
Qed.

(** * Files and folders *)

Lemma lift_Verbosef msg s :
  msg <> "" ->
  exists w', lift (Verbosef msg) s = (Ret tt, mkSys w' (sys_calls s)) /\
             quiet (sys_world s) w'.
Proof.
  intros Hne.
  destruct (Verbosef_spec msg (sys_world s) Hne) as (w' & Hv & Hq).
  exists w'. split; [| exact Hq]. unfold lift. now rewrite Hv.
Qed.

Lemma sPanic_spec e s :
  sPanic e s =
  (fst (Panic (Some (as_error e)) (sys_world s)),
   mkSys (snd (Panic (Some (as_error e)) (sys_world s))) (sys_calls s)).
Proof.
  unfold sPanic, lift. now destruct (Panic _ (sys_world s)) as [r w'].
Qed.

Lemma new_calls_app {A} (m : SAct A) s l :
  sys_calls (snd (m s)) = sys_calls s ++ l -> new_calls m s = l.
Proof. intros H. unfold new_calls. rewrite H. apply drop_app_length. Qed.

Lemma quiet_handled w w' :
  quiet w w' -> handled (w_log w') = handled (w_log w).
Proof. now intros []. Qed.

(** One step of a file procedure, on a known state. *)
Ltac fs_step :=
  unfold defer, sbind, Close, syscall, sret;
  cbn [sys_calls sys_world fst snd is_ok];
  rewrite <- ?app_assoc; cbn [app].

Section FileFacts.

Context (os_Stat : list Syscall -> string -> Errno + FileInfo)
        (os_Open : list Syscall -> string -> option Errno)
        (file_Stat : list Syscall -> string -> Errno + FileInfo)
        (os_Create : list Syscall -> string -> option Errno)
        (os_OpenFile : list Syscall -> string -> option Errno)
        (io_Copy : list Syscall -> string -> string -> Z * option Errno)
        (io_Write : list Syscall -> string -> string -> option Errno)
        (os_Getwd : list Syscall -> string * option Errno)
        (os_Chdir : list Syscall -> string -> option Errno)
        (os_MkdirAll : list Syscall -> string -> option Errno)
        (os_TempDir : list (string * string) -> string)
        (os_MkdirTemp :
           list Syscall -> string -> string -> string * option Errno)
        (os_RemoveAll : list Syscall -> string -> option Errno).

(** What [copyImpl] returns and records, case by case of what the
    operating system answers. *)
Lemma copyImpl_eq src dst s :
  exists w', quiet (sys_world s) w' /\
  copyImpl os_Open file_Stat os_Create io_Copy src dst s =
  let h := sys_calls s in
  match os_Open h src with
  | Some errno =>
      (Ret (Some (if os_IsNotExist (PathError "open" src errno)
                  then PathError "open" src errno
                  else Errorf_w ("error opening src " +:+ src)
                         (PathError "open" src errno))),
       mkSys w' (h ++ [SysOpen src false]))
  | None =>
      match file_Stat (h ++ [SysOpen src true]) src with
      | inl errno =>
          (Ret (Some (Errorf_w ("error reading src " +:+ src)
                        (PathError "stat" src errno))),
           mkSys w' (h ++ [SysOpen src true; SysFstat src; SysClose src]))
      | inr fi =>
          if negb (fi_IsRegular fi)
          then (Ret (Some (Errorf (src +:+ " is not a regular file"))),
                mkSys w' (h ++ [SysOpen src true; SysFstat src; SysClose src]))
          else
            match os_Create (h ++ [SysOpen src true; SysFstat src]) dst with
            | Some errno =>
                (Ret (Some (Errorf_w ("error creating dst " +:+ dst)
                              (PathError "open" dst errno))),
                 mkSys w' (h ++ [SysOpen src true; SysFstat src;
                                 SysCreate dst false; SysClose src]))
            | None =>
                let copied :=
                  io_Copy (h ++ [SysOpen src true; SysFstat src;
                                 SysCreate dst true]) dst src in
                (Ret match snd copied with
                     | Some errno =>
                         Some (Errorf_w ("error copying from src " +:+ src
                                         +:+ " to dst " +:+ dst)
                                 (PathError "write" dst errno))
                     | None =>
                         if negb (fst copied =? fi_Size fi)
                         then Some (Errorf
                                (src +:+ " has " +:+ fmt_d (fi_Size fi)
                                 +:+ " byte(s), but the copy " +:+ dst
                                 +:+ " only has " +:+ fmt_d (fst copied)
                                 +:+ " byte(s)"))
                         else None
                     end,
                 mkSys w' (h ++ [SysOpen src true; SysFstat src;
                                 SysCreate dst true; SysCopy dst src;
                                 SysClose dst; SysClose src]))
            end
      end
  end.
Proof.
  destruct (lift_Verbosef ("Copy: " +:+ src +:+ " => " +:+ dst) s
              (literal_nonempty _ _ _))
    as (w' & Hv & Hq).
  exists w'. split; [exact Hq |].
  unfold copyImpl. unfold sbind at 1. rewrite Hv.
  unfold sbind at 1, syscall at 1. cbn [sys_calls sys_world]. cbn zeta.
  destruct (os_Open (sys_calls s) src) as [errno |]; cbn [is_ok].
  { now destruct (os_IsNotExist _). }
  unfold defer at 1, sbind at 1, syscall at 1. cbn [sys_calls sys_world].
  destruct (file_Stat (sys_calls s ++ [SysOpen src true]) src) as [errno | fi].
  { now fs_step. }
  destruct (negb (fi_IsRegular fi)).
  { now fs_step. }
  unfold sbind at 1, syscall at 1. cbn [sys_calls sys_world].
  rewrite <- ?app_assoc. cbn [app].
  destruct (os_Create (sys_calls s ++ [SysOpen src true; SysFstat src]) dst)
    as [errno |]; cbn [is_ok].
  { now fs_step. }
  fs_step.
  destruct (io_Copy _ dst src) as [n [errno |]]; cbn [fst snd].
  { now fs_step. }
  destruct (negb (n =? fi_Size fi)); now fs_step.
Qed.

(** [copyImpl] returns (it never panics and never calls the handler); the
    facts shared by the properties of [Copy] and [MustCopy]. *)
Lemma copyImpl_trace src dst s :
  exists w' e l,
    copyImpl os_Open file_Stat os_Create io_Copy src dst s =
    (Ret e, mkSys w' (sys_calls s ++ l)) /\
    quiet (sys_world s) w' /\
    closes l = rev (opens l) /\
    creations l =
    (if readable os_Open file_Stat (sys_calls s) src then [dst] else []) /\
    ((exists e', e = Some e' /\ os_IsNotExist e' = true) <->
     os_Open (sys_calls s) src = Some ENOENT) /\
    (os_Open (sys_calls s) src = Some ENOENT -> l = [SysOpen src false]).
Proof.
  destruct (copyImpl_eq src dst s) as (w' & Hq & Heq).
  exists w'. rewrite Heq. cbn zeta. unfold readable.
  destruct (os_Open (sys_calls s) src) as [errno |].
  { eexists _, _. split; [reflexivity |]. split; [exact Hq |].
    repeat split; try reflexivity.
    - intros (e' & He & Hn). destruct errno; cbn in He; now inversion He; subst.
    - intros H. inversion H. subst errno. eexists. now split. }
  destruct (file_Stat (sys_calls s ++ [SysOpen src true]) src) as [errno | fi].
  { eexists _, _. split; [reflexivity |]. split; [exact Hq |].
    repeat split; try reflexivity; try discriminate.
    intros (e' & He & Hn). now inversion He; subst. }
  destruct (fi_IsRegular fi); cbn [negb].
  2: { eexists _, _. split; [reflexivity |]. split; [exact Hq |].
       repeat split; try reflexivity; try discriminate.
       intros (e' & He & Hn). now inversion He; subst. }
  destruct (os_Create _ dst) as [errno |].
  { eexists _, _. split; [reflexivity |]. split; [exact Hq |].
    repeat split; try reflexivity; try discriminate.
    intros (e' & He & Hn). now inversion He; subst. }
  eexists _, _. split; [reflexivity |]. split; [exact Hq |].
  repeat split; try reflexivity; try discriminate.
  intros (e' & He & Hn).
  destruct (snd (io_Copy _ dst src)); [now inversion He; subst |].
  destruct (negb _); now inversion He; subst.
Qed.

Lemma Copy_eq src dst s e s' :
  copyImpl os_Open file_Stat os_Create io_Copy src dst s = (Ret e, s') ->
  Copy os_Open file_Stat os_Create io_Copy src dst s =
  match e with
  | None => (Ret true, s')
  | Some e' =>
      if os_IsNotExist e' then (Ret false, s')
      else (match fst (Panic (Some (as_error e')) (sys_world s')) with
            | Ret _ => Ret true
            | Fault p => Fault p
            end,
            mkSys (snd (Panic (Some (as_error e')) (sys_world s')))
                  (sys_calls s'))
  end.
Proof.
  intros H. unfold Copy. unfold sbind at 1. rewrite H.
  destruct e as [e' |]; [| reflexivity].
  destruct (os_IsNotExist e'); [reflexivity |].
  unfold sbind. rewrite sPanic_spec.
  now destruct (fst (Panic _ _)).
Qed.

Lemma MustCopy_eq src dst s e s' :
  copyImpl os_Open file_Stat os_Create io_Copy src dst s = (Ret e, s') ->
  MustCopy os_Open file_Stat os_Create io_Copy src dst s =
  match e with
  | None => (Ret tt, s')
  | Some e' =>
      (fst (Panic (Some (as_error e')) (sys_world s')),
       mkSys (snd (Panic (Some (as_error e')) (sys_world s'))) (sys_calls s'))
  end.
Proof.
  intros H. unfold MustCopy. unfold sbind at 1. rewrite H.
  destruct e as [e' |]; [| reflexivity]. apply sPanic_spec.
Qed.

(** [Copy] returns [false] exactly when [os.Open] answers that [src]
    does not exist. Then nothing else was asked of the operating system
    ([dst] is not touched) and the error handler was not called. Any other
    failure, a missing file met later included, is handed to [Panic]. *)
Theorem Copy_false_iff_missing src dst s :
  (fst (Copy os_Open file_Stat os_Create io_Copy src dst s) = Ret false <->
   os_Open (sys_calls s) src = Some ENOENT) /\
  (os_Open (sys_calls s) src = Some ENOENT ->
   new_calls (Copy os_Open file_Stat os_Create io_Copy src dst) s =
   [SysOpen src false] /\
   handled (w_log (sys_world
     (snd (Copy os_Open file_Stat os_Create io_Copy src dst s)))) =
   handled (w_log (sys_world s))).
Proof.
  destruct (copyImpl_trace src dst s)
    as (w' & e & l & Heq & Hq & _ & _ & Hiff & Hl).
  rewrite (Copy_eq _ _ _ _ _ Heq).
  assert (Hmiss : os_Open (sys_calls s) src = Some ENOENT ->
                  exists e', e = Some e' /\ os_IsNotExist e' = true)
    by apply Hiff.
  split; [split |].
  - intros H. apply Hiff. destruct e as [e' |]; [| discriminate H].
    destruct (os_IsNotExist e') eqn:Hn; [now exists e' |].
    cbn [fst] in H. now destruct (fst (Panic _ _)).
  - intros H. destruct (Hmiss H) as (e' & -> & Hn). now rewrite Hn.
  - intros H. destruct (Hmiss H) as (e' & He & Hn).
    split.
    + apply new_calls_app. rewrite (Copy_eq _ _ _ _ _ Heq), He, Hn.
      cbn [snd sys_calls]. now rewrite (Hl H).
    + rewrite He, Hn. cbn [snd sys_world]. now apply quiet_handled.
Qed.

Lemma Copy_calls src dst s e s' :
  copyImpl os_Open file_Stat os_Create io_Copy src dst s = (Ret e, s') ->
  sys_calls (snd (Copy os_Open file_Stat os_Create io_Copy src dst s)) =
  sys_calls s'.
Proof.
  intros H. rewrite (Copy_eq _ _ _ _ _ H).
  destruct e as [e' |]; [| reflexivity]. now destruct (os_IsNotExist e').
Qed.

Lemma MustCopy_calls src dst s e s' :
  copyImpl os_Open file_Stat os_Create io_Copy src dst s = (Ret e, s') ->
  sys_calls (snd (MustCopy os_Open file_Stat os_Create io_Copy src dst s)) =
  sys_calls s'.
Proof.
  intros H. rewrite (MustCopy_eq _ _ _ _ _ H). now destruct e.
Qed.

(** [Copy] and [MustCopy] create (and so truncate) [dst] only when
    [src] could be opened and is a regular file, and then exactly once: a
    missing, unreadable or irregular source leaves [dst] as it was. *)
Theorem dst_created_only_from_regular src dst s :
  creations (new_calls (Copy os_Open file_Stat os_Create io_Copy src dst) s) =
  (if readable os_Open file_Stat (sys_calls s) src then [dst] else []) /\
  creations
    (new_calls (MustCopy os_Open file_Stat os_Create io_Copy src dst) s) =
  (if readable os_Open file_Stat (sys_calls s) src then [dst] else []).
Proof.
  destruct (copyImpl_trace src dst s)
    as (w' & e & l & Heq & _ & _ & Hcr & _).
  split.
  - rewrite (new_calls_app _ s l); [exact Hcr |].
    now rewrite (Copy_calls _ _ _ _ _ Heq).
  - rewrite (new_calls_app _ s l); [exact Hcr |].
    now rewrite (MustCopy_calls _ _ _ _ _ Heq).
Qed.

(** What [writeImpl] returns and records when at most one of [str] and
    [data] is given. *)
Lemma writeImpl_eq path str data append s :
  (0 <? String.length str)%nat && (0 <? String.length data)%nat = false ->
  exists w', quiet (sys_world s) w' /\
  writeImpl os_Create os_OpenFile io_Write path str data append s =
  let h := sys_calls s in
  let contents := if (0 <? String.length str)%nat then str else data in
  let attempt ok :=
    if append then SysOpenAppend path ok else SysCreate path ok in
  match (if append then os_OpenFile h path else os_Create h path) with
  | Some errno =>
      (Ret (Some (PathError "open" path errno)),
       mkSys w' (h ++ [attempt false]))
  | None =>
      (Ret (path_error "write" path
              (io_Write (h ++ [attempt true]) path contents)),
       mkSys w' (h ++ [attempt true; SysWrite path contents; SysClose path]))
  end.
Proof.
  intros Hg. unfold writeImpl. rewrite Hg. cbn zeta.
  destruct append.
  - destruct (lift_Verbosef ("Append to file: " +:+ path) s
              (literal_nonempty _ _ _))
      as (w' & Hv & Hq).
    exists w'. split; [exact Hq |].
    unfold sbind at 1. unfold sbind at 1. rewrite Hv.
    unfold syscall at 1. cbn [sys_calls sys_world].
    destruct (os_OpenFile (sys_calls s) path) as [errno |]; cbn [is_ok];
      [reflexivity |].
    destruct (0 <? String.length str)%nat; fs_step;
      destruct (io_Write _ path _); cbn [path_error]; now fs_step.
  - destruct (lift_Verbosef ("Write to file: " +:+ path) s
              (literal_nonempty _ _ _))
      as (w' & Hv & Hq).
    exists w'. split; [exact Hq |].
    unfold sbind at 1. unfold sbind at 1. rewrite Hv.
    unfold syscall at 1. cbn [sys_calls sys_world].
    destruct (os_Create (sys_calls s) path) as [errno |]; cbn [is_ok];
      [reflexivity |].
    destruct (0 <? String.length str)%nat; fs_step;
      destruct (io_Write _ path _); cbn [path_error]; now fs_step.
Qed.

(** [writeImpl] returns, whatever it is given. *)
Lemma writeImpl_trace path str data append s :
  exists w' e l,
    writeImpl os_Create os_OpenFile io_Write path str data append s =
    (Ret e, mkSys w' (sys_calls s ++ l)) /\
    quiet (sys_world s) w' /\
    closes l = rev (opens l).
Proof.
  destruct ((0 <? String.length str)%nat && (0 <? String.length data)%nat)
    eqn:Hg.
  - exists (sys_world s), (Some should_never_happen), [].
    unfold writeImpl. rewrite Hg. rewrite app_nil_r.
    split; [now destruct s |]. split; [apply quiet_refl | reflexivity].
  - destruct (writeImpl_eq path str data append s Hg) as (w' & Hq & Heq).
    exists w'. rewrite Heq. cbn zeta.
    destruct (if append then os_OpenFile (sys_calls s) path
              else os_Create (sys_calls s) path).
    + eexists _, _. split; [reflexivity |]. split; [exact Hq |].
      now destruct append.
    + eexists _, _. split; [reflexivity |]. split; [exact Hq |].
      now destruct append.
Qed.

Lemma or_panic_calls (m : SAct (option fs_error)) s e s' :
  m s = (Ret e, s') ->
  sys_calls (snd ((x <~ m ;; or_panic x) s)) = sys_calls s'.
Proof.
  intros H. unfold sbind. rewrite H. destruct e as [e' |]; [| reflexivity].
  unfold or_panic. now rewrite sPanic_spec.
Qed.

(** No file helper leaves a file open: among the calls made by
    [Copy], [MustCopy], [writeImpl] and the writers built on it, every
    file opened is closed, the last opened first; this holds on every
    path, also when the error handler panics. *)
Theorem no_file_left_open src dst path str data append s :
  balanced (Copy os_Open file_Stat os_Create io_Copy src dst) s /\
  balanced (MustCopy os_Open file_Stat os_Create io_Copy src dst) s /\
  balanced (writeImpl os_Create os_OpenFile io_Write path str data append) s /\
  balanced (Write os_Create os_OpenFile io_Write path str) s /\
  balanced (WriteBytes os_Create os_OpenFile io_Write path data) s /\
  balanced (Append os_Create os_OpenFile io_Write path str) s /\
  balanced (AppendBytes os_Create os_OpenFile io_Write path data) s.
Proof.
  unfold balanced.
  destruct (copyImpl_trace src dst s) as (w' & e & l & Heq & _ & Hb & _).
  split; [| split; [| split; [| repeat split]]].
  - rewrite (new_calls_app _ s l); [exact Hb |].
    now rewrite (Copy_calls _ _ _ _ _ Heq).
  - rewrite (new_calls_app _ s l); [exact Hb |].
    now rewrite (MustCopy_calls _ _ _ _ _ Heq).
  - destruct (writeImpl_trace path str data append s)
      as (w1 & e1 & l1 & H1 & _ & Hb1).
    rewrite (new_calls_app _ s l1); [exact Hb1 |]. now rewrite H1.
  - destruct (writeImpl_trace path str "" false s)
      as (w1 & e1 & l1 & H1 & _ & Hb1).
    rewrite (new_calls_app _ s l1); [exact Hb1 |].
    unfold Write. now rewrite (or_panic_calls _ _ _ _ H1).
  - destruct (writeImpl_trace path "" data false s)
      as (w1 & e1 & l1 & H1 & _ & Hb1).
    rewrite (new_calls_app _ s l1); [exact Hb1 |].
    unfold WriteBytes. now rewrite (or_panic_calls _ _ _ _ H1).
  - destruct (writeImpl_trace path str "" true s)
      as (w1 & e1 & l1 & H1 & _ & Hb1).
    rewrite (new_calls_app _ s l1); [exact Hb1 |].
    unfold Append. now rewrite (or_panic_calls _ _ _ _ H1).
  - destruct (writeImpl_trace path "" data true s)
      as (w1 & e1 & l1 & H1 & _ & Hb1).
    rewrite (new_calls_app _ s l1); [exact Hb1 |].
    unfold AppendBytes. now rewrite (or_panic_calls _ _ _ _ H1).
Qed.

Lemma writer_facts path str data append x s :
  (0 <? String.length str)%nat && (0 <? String.length data)%nat = false ->
  (if (0 <? String.length str)%nat then str else data) = x ->
  exists r ok,
    fst (writeImpl os_Create os_OpenFile io_Write path str data append s) =
    Ret r /\
    (r = None \/ exists op errno, r = Some (PathError op path errno)) /\
    (r = None -> ok = true) /\
    new_calls (writeImpl os_Create os_OpenFile io_Write path str data append) s
    = (if append then SysOpenAppend path ok else SysCreate path ok)
      :: (if ok then [SysWrite path x; SysClose path] else []) /\
    handled (w_log (sys_world
      (snd (writeImpl os_Create os_OpenFile io_Write path str data append s))))
    = handled (w_log (sys_world s)).
Proof.
  intros Hg Hx.
  destruct (writeImpl_eq path str data append s Hg) as (w' & Hq & Heq).
  cbn zeta in Heq. rewrite Hx in Heq.
  destruct (if append then os_OpenFile (sys_calls s) path
            else os_Create (sys_calls s) path) as [errno |].
  - exists (Some (PathError "open" path errno)), false.
    rewrite Heq. cbn [fst snd sys_world].
    split; [reflexivity |]. split; [right; eauto |].
    split; [discriminate |].
    split; [| now apply quiet_handled].
    apply new_calls_app. now rewrite Heq.
  - eexists _, true.
    rewrite Heq. cbn [fst snd sys_world].
    split; [reflexivity |].
    split; [destruct (io_Write _ path x); cbn; eauto |].
    split; [reflexivity |].
    split; [| now apply quiet_handled].
    apply new_calls_app. now rewrite Heq.
Qed.

(** The writers that return the error ([WriteErr], [WriteBytesErr],
    [AppendErr], [AppendBytesErr]) never return the error of the guard of
    [writeImpl]: what they return is nil or the error of the operating
    system, as it is. Each opens the file once, also for empty contents
    (so [WriteErr] with no contents empties the file), hands exactly the
    contents given to [io.Copy], closes the file, and never calls the
    error handler. *)
Theorem writers_return_os_errors path x s :
  Forall
    (fun '(f, attempt) =>
       exists r ok,
         fst (f path x s) = Ret r /\
         (r = None \/ exists op errno, r = Some (PathError op path errno)) /\
         (r = None -> ok = true) /\
         new_calls (f path x) s =
         attempt ok :: (if ok then [SysWrite path x; SysClose path] else []) /\
         handled (w_log (sys_world (snd (f path x s)))) =
         handled (w_log (sys_world s)))
    [(WriteErr os_Create os_OpenFile io_Write, SysCreate path);
     (WriteBytesErr os_Create os_OpenFile io_Write, SysCreate path);
     (AppendErr os_Create os_OpenFile io_Write, SysOpenAppend path);
     (AppendBytesErr os_Create os_OpenFile io_Write, SysOpenAppend path)].
Proof.
  repeat constructor.
  - apply (writer_facts path x "" false x s);
      [apply andb_false_r | now destruct x].
  - now apply (writer_facts path "" x false x s).
  - apply (writer_facts path x "" true x s);
      [apply andb_false_r | now destruct x].
  - now apply (writer_facts path "" x true x s).
Qed.

(** What [Exists], [IsFile] and [IsDir] have in common. *)
Lemma Stat_quietly_eq path s :
  Stat_quietly os_Stat path s =
  let s1 := mkSys (sys_world s) (sys_calls s ++ [SysStat path]) in
  match os_Stat (sys_calls s) path with
  | inr fi => (Ret (Some fi), s1)
  | inl errno =>
      if os_IsNotExist (PathError "stat" path errno)
      then (Ret None, s1)
      else (match fst (Panic (Some (as_error (PathError "stat" path errno)))
                         (sys_world s)) with
            | Ret _ => Ret None
            | Fault p => Fault p
            end,
            mkSys (snd (Panic (Some (as_error (PathError "stat" path errno)))
                          (sys_world s)))
                  (sys_calls s ++ [SysStat path]))
  end.
Proof.
  unfold Stat_quietly. unfold sbind at 1, syscall at 1. cbn zeta.
  destruct (os_Stat (sys_calls s) path) as [errno | fi]; [| reflexivity].
  destruct (os_IsNotExist _); cbn [negb]; [reflexivity |].
  unfold sbind. rewrite sPanic_spec. cbn [sys_world sys_calls].
  now destruct (fst (Panic _ _)).
Qed.

(** On one state of the file system [Exists], [IsFile] and [IsDir] agree:
    they have the same effect, they panic together, and otherwise the path
    exists exactly when it is a file or a folder, never both. *)
Theorem stat_predicates_agree path s :
  snd (IsFile os_Stat path s) = snd (Exists os_Stat path s) /\
  snd (IsDir os_Stat path s) = snd (Exists os_Stat path s) /\
  match fst (Exists os_Stat path s) with
  | Ret b =>
      exists f d,
        fst (IsFile os_Stat path s) = Ret f /\
        fst (IsDir os_Stat path s) = Ret d /\
        b = f || d /\ f && d = false
  | Fault p =>
      fst (IsFile os_Stat path s) = Fault p /\
      fst (IsDir os_Stat path s) = Fault p
  end.
Proof.
  unfold Exists, IsFile, IsDir, sbind. rewrite Stat_quietly_eq. cbn zeta.
  destruct (os_Stat (sys_calls s) path) as [errno | fi].
  - destruct (os_IsNotExist _).
    + repeat split. now exists false, false.
    + destruct (fst (Panic _ _)); repeat split. now exists false, false.
  - repeat split. exists (negb (fi_IsDir fi)), (fi_IsDir fi).
    now destruct (fi_IsDir fi).
Qed.

(** [MustCopy] is [Copy] except for a source that does not exist: in every
    other case the two leave the same state, and [MustCopy] returns or
    panics as [Copy] does. *)
Theorem MustCopy_agrees_with_Copy src dst s :
  os_Open (sys_calls s) src <> Some ENOENT ->
  snd (MustCopy os_Open file_Stat os_Create io_Copy src dst s) =
  snd (Copy os_Open file_Stat os_Create io_Copy src dst s) /\
  fst (MustCopy os_Open file_Stat os_Create io_Copy src dst s) =
  match fst (Copy os_Open file_Stat os_Create io_Copy src dst s) with
  | Ret _ => Ret tt
  | Fault p => Fault p
  end.
Proof.
  intros Hopen.
  destruct (copyImpl_trace src dst s)
    as (w' & e & l & Heq & _ & _ & _ & Hiff & _).
  rewrite (Copy_eq _ _ _ _ _ Heq), (MustCopy_eq _ _ _ _ _ Heq).
  destruct e as [e' |]; [| now split].
  destruct (os_IsNotExist e') eqn:Hn.
  - exfalso. apply Hopen, Hiff. now exists e'.
  - cbn [fst snd]. split; [reflexivity |].
    now destruct (fst (Panic _ _)) as [[] |].
Qed.

(** With a handler that returns, [Panic] returns and keeps the handler. *)
Lemma sPanic_returns e s h :
  fnErr (w_bsh (sys_world s)) = Some h ->
  (forall e', h_call h e' = None) ->
  exists w', sPanic e s = (Ret tt, mkSys w' (sys_calls s)) /\
             fnErr (w_bsh w') = Some h.
Proof.
  intros Hh Hret. rewrite sPanic_spec, (Panic_handler _ _ _ Hh), Hret.
  eexists. split; [reflexivity |]. exact Hh.
Qed.

Lemma Getwd_returns s h :
  fnErr (w_bsh (sys_world s)) = Some h ->
  (forall e, h_call h e = None) ->
  exists w', Getwd os_Getwd s =
             (Ret (fst (os_Getwd (sys_calls s))),
              mkSys w' (sys_calls s ++ [SysGetwd])) /\
             fnErr (w_bsh w') = Some h.
Proof.
  intros Hh Hret. unfold Getwd. unfold sbind at 1, syscall at 1.
  destruct (os_Getwd (sys_calls s)) as [dir [errno |]]; cbn [fst snd].
  - destruct (sPanic_returns (PathError "getwd" "" errno)
                (mkSys (sys_world s) (sys_calls s ++ [SysGetwd])) h Hh Hret)
      as (w' & Hp & Hh').
    exists w'. unfold sbind. rewrite Hp. now split.
  - exists (sys_world s). now split.
Qed.

Lemma Exists_returns path s h :
  fnErr (w_bsh (sys_world s)) = Some h ->
  (forall e, h_call h e = None) ->
  exists w', Exists os_Stat path s =
             (Ret match os_Stat (sys_calls s) path with
                  | inr _ => true
                  | inl _ => false
                  end,
              mkSys w' (sys_calls s ++ [SysStat path])) /\
             fnErr (w_bsh w') = Some h.
Proof.
  intros Hh Hret. unfold Exists, sbind. rewrite Stat_quietly_eq. cbn zeta.
  destruct (os_Stat (sys_calls s) path) as [errno | fi].
  - destruct (os_IsNotExist _).
    + exists (sys_world s). now split.
    + rewrite (Panic_handler _ _ _ Hh), Hret. cbn [fst snd].
      eexists. split; [reflexivity |]. exact Hh.
  - exists (sys_world s). now split.
Qed.

Lemma MkdirAll_returns dir s h :
  fnErr (w_bsh (sys_world s)) = Some h ->
  (forall e, h_call h e = None) ->
  exists w', MkdirAll os_MkdirAll dir s =
             (Ret tt, mkSys w' (sys_calls s ++ [SysMkdirAll dir])) /\
             fnErr (w_bsh w') = Some h.
Proof.
  intros Hh Hret.
  destruct (lift_Verbosef ("MkdirAll: " +:+ dir) s
              (literal_nonempty _ _ _)) as (w1 & Hv & Hq).
  assert (Hh1 : fnErr (w_bsh w1) = Some h) by (rewrite <- Hh; apply Hq).
  unfold MkdirAll. unfold sbind at 1. rewrite Hv.
  unfold sbind, syscall. cbn [sys_calls sys_world].
  destruct (os_MkdirAll (sys_calls s) dir) as [errno |].
  - destruct (sPanic_returns (PathError "mkdir" dir errno)
                (mkSys w1 (sys_calls s ++ [SysMkdirAll dir])) h Hh1 Hret)
      as (w' & Hp & Hh').
    exists w'. now split.
  - exists w1. now split.
Qed.

Lemma Chdir_returns dir s h :
  fnErr (w_bsh (sys_world s)) = Some h ->
  (forall e, h_call h e = None) ->
  exists w', Chdir os_Chdir dir s =
             (Ret tt, mkSys w' (sys_calls s ++ [SysChdir dir])) /\
             fnErr (w_bsh w') = Some h.
Proof.
  intros Hh Hret.
  destruct (lift_Verbosef ("Chdir: " +:+ dir) s
              (literal_nonempty _ _ _)) as (w1 & Hv & Hq).
  assert (Hh1 : fnErr (w_bsh w1) = Some h) by (rewrite <- Hh; apply Hq).
  unfold Chdir. unfold sbind at 1. rewrite Hv.
  unfold sbind, syscall. cbn [sys_calls sys_world].
  destruct (os_Chdir (sys_calls s) dir) as [errno |].
  - destruct (sPanic_returns (PathError "chdir" dir errno)
                (mkSys w1 (sys_calls s ++ [SysChdir dir])) h Hh1 Hret)
      as (w' & Hp & Hh').
    exists w'. now split.
  - exists w1. now split.
Qed.

(** [Chdir] asks for the change of directory whatever the handler does. *)
Lemma Chdir_calls dir s :
  sys_calls (snd (Chdir os_Chdir dir s)) = sys_calls s ++ [SysChdir dir].
Proof.
  destruct (lift_Verbosef ("Chdir: " +:+ dir) s
              (literal_nonempty _ _ _)) as (w1 & Hv & Hq).
  unfold Chdir. unfold sbind at 1. rewrite Hv.
  unfold sbind, syscall. cbn [sys_calls sys_world].
  destruct (os_Chdir (sys_calls s) dir) as [errno |]; [| reflexivity].
  now rewrite sPanic_spec.
Qed.

(** [InDir] under a handler that returns reaches [fn]: the state [fn] is
    started in, and what is left to do. *)
Lemma InDir_enters path fn s h :
  fnErr (w_bsh (sys_world s)) = Some h ->
  (forall e, h_call h e = None) ->
  exists s1,
    sys_calls s1 =
    sys_calls s ++ [SysGetwd; SysStat path] ++
    match os_Stat (sys_calls s ++ [SysGetwd]) path with
    | inr _ => []
    | inl _ => [SysMkdirAll path]
    end ++ [SysChdir path] /\
    InDir os_Stat os_Getwd os_Chdir os_MkdirAll path fn s =
    defer (Chdir os_Chdir (fst (os_Getwd (sys_calls s)))) fn s1.
Proof.
  intros Hh Hret.
  destruct (Getwd_returns s h Hh Hret) as (w1 & Hg & Hh1).
  set (prev := fst (os_Getwd (sys_calls s))) in *.
  set (s1 := mkSys w1 (sys_calls s ++ [SysGetwd])) in *.
  destruct (Exists_returns path s1 h Hh1 Hret) as (w2 & He & Hh2).
  cbn [sys_calls s1] in He.
  set (s2 := mkSys w2 (sys_calls s ++ [SysGetwd] ++ [SysStat path])).
  assert (Hs2 : mkSys w2 ((sys_calls s ++ [SysGetwd]) ++ [SysStat path]) = s2)
    by (unfold s2; now rewrite <- app_assoc).
  rewrite Hs2 in He.
  unfold InDir. unfold sbind at 1. rewrite Hg.
  unfold sbind at 1. rewrite He.
  destruct (os_Stat (sys_calls s ++ [SysGetwd]) path) as [errno | fi];
    cbn [negb].
  - destruct (MkdirAll_returns path s2 h Hh2 Hret) as (w3 & Hm & Hh3).
    unfold sbind at 1. rewrite Hm.
    destruct (Chdir_returns path
                (mkSys w3 (sys_calls s2 ++ [SysMkdirAll path])) h Hh3 Hret)
      as (w4 & Hc & _).
    unfold sbind at 1. rewrite Hc. eexists. split; [| reflexivity].
    cbn [sys_calls s2]. now rewrite <- ?app_assoc.
  - unfold sbind at 1. unfold sret at 1.
    destruct (Chdir_returns path s2 h Hh2 Hret) as (w4 & Hc & _).
    unfold sbind at 1. rewrite Hc. eexists. split; [| reflexivity].
    cbn [sys_calls s2]. now rewrite <- ?app_assoc.
Qed.

(** What a deferred call adds after the body, when it always makes the
    one call [c]. *)
Lemma defer_calls {A} (d : SAct unit) (body : SAct A) c s :
  (forall s', sys_calls (snd (d s')) = sys_calls s' ++ [c]) ->
  sys_calls (snd (defer d body s)) = sys_calls (snd (body s)) ++ [c] /\
  (forall p, fst (body s) = Fault p -> exists q, fst (defer d body s) = Fault q).
Proof.
  intros Hd. unfold defer. destruct (body s) as [r s1]. cbn [fst snd].
  specialize (Hd s1).
  destruct (d s1) as [[[] | q] s2]; cbn [fst snd] in *.
  - split; [exact Hd |]. intros p ->. now exists p.
  - split; [exact Hd |]. intros p _. now exists q.
Qed.

(** [InDir] under a handler that returns: [fn] is started after the
    working directory was asked for, the folder looked up, made when the
    lookup did not find it, and entered. Whether [fn] returns or panics,
    exactly one more call follows it, the change back to the directory
    [os.Getwd] answered; and a panic of [fn] is not swallowed. *)
Theorem InDir_restores path fn s h :
  fnErr (w_bsh (sys_world s)) = Some h ->
  (forall e, h_call h e = None) ->
  exists s1,
    sys_calls s1 =
    sys_calls s ++ [SysGetwd; SysStat path] ++
    match os_Stat (sys_calls s ++ [SysGetwd]) path with
    | inr _ => []
    | inl _ => [SysMkdirAll path]
    end ++ [SysChdir path] /\
    sys_calls (snd (InDir os_Stat os_Getwd os_Chdir os_MkdirAll path fn s)) =
    sys_calls (snd (fn s1)) ++ [SysChdir (fst (os_Getwd (sys_calls s)))] /\
    (forall p, fst (fn s1) = Fault p ->
       exists q,
         fst (InDir os_Stat os_Getwd os_Chdir os_MkdirAll path fn s) =
         Fault q).
Proof.
  intros Hh Hret.
  destruct (InDir_enters path fn s h Hh Hret) as (s1 & Hcalls & Heq).
  exists s1. split; [exact Hcalls |]. rewrite Heq.
  apply defer_calls. intros s'. apply Chdir_calls.
Qed.

(** [RemoveAll] asks for the removal whatever the handler does. *)
Lemma RemoveAll_calls dir s :
  sys_calls (snd (RemoveAll os_RemoveAll dir s)) =
  sys_calls s ++ [SysRemoveAll dir].
Proof.
  destruct (lift_Verbosef ("RemoveAll: " +:+ dir) s
              (literal_nonempty _ _ _)) as (w1 & Hv & Hq).
  unfold RemoveAll. unfold sbind at 1. rewrite Hv.
  unfold sbind, syscall. cbn [sys_calls sys_world].
  destruct (os_RemoveAll (sys_calls s) dir) as [errno |]; [| reflexivity].
  now rewrite sPanic_spec.
Qed.

Lemma MkdirTemp_returns s h :
  fnErr (w_bsh (sys_world s)) = Some h ->
  (forall e, h_call h e = None) ->
  let ostmp := os_TempDir (w_environ (sys_world s)) in
  let tmpdir := fst (os_MkdirTemp (sys_calls s) ostmp "bsh_*") in
  exists w',
    MkdirTemp os_TempDir os_MkdirTemp os_RemoveAll s =
    (Ret (tmpdir, RemoveAll os_RemoveAll tmpdir),
     mkSys w' (sys_calls s ++ [SysMkdirTemp ostmp "bsh_*"])) /\
    fnErr (w_bsh w') = Some h.
Proof.
  intros Hh Hret ostmp tmpdir. unfold MkdirTemp. fold ostmp.
  unfold sbind at 1, syscall at 1. fold tmpdir.
  assert (Hpanic : exists w1,
            match snd (os_MkdirTemp (sys_calls s) ostmp "bsh_*") with
            | Some errno => sPanic (PathError "mkdir" ostmp errno)
            | None => sret ()
            end (mkSys (sys_world s)
                   (sys_calls s ++ [SysMkdirTemp ostmp "bsh_*"])) =
            (Ret tt, mkSys w1 (sys_calls s ++ [SysMkdirTemp ostmp "bsh_*"]))
            /\ fnErr (w_bsh w1) = Some h).
  { destruct (snd (os_MkdirTemp (sys_calls s) ostmp "bsh_*")) as [errno |].
    - apply (sPanic_returns _
               (mkSys (sys_world s)
                  (sys_calls s ++ [SysMkdirTemp ostmp "bsh_*"])) h Hh Hret).
    - exists (sys_world s). now split. }
  destruct Hpanic as (w1 & Hp & Hh1).
  unfold sbind at 1. rewrite Hp.
  destruct (lift_Verbosef ("MkdirTemp: " +:+ tmpdir)
              (mkSys w1 (sys_calls s ++ [SysMkdirTemp ostmp "bsh_*"]))
              (literal_nonempty _ _ _))
    as (w2 & Hv & Hq).
  unfold sbind at 1. rewrite Hv. cbn [sys_calls].
  exists w2. split; [reflexivity |].
  cbn [sys_world] in Hq. rewrite <- Hh1. apply Hq.
Qed.

(** [InTempDir] under a handler that returns: a folder is made under the
    folder [os.TempDir] names and entered, and [fn] runs in it. Whether
    [fn] returns or panics, exactly two more calls follow it: the change
    back to the directory [os.Getwd] answered, and then the removal of the
    folder made; a panic of [fn] is not swallowed. *)
Theorem InTempDir_cleans_up fn s h :
  fnErr (w_bsh (sys_world s)) = Some h ->
  (forall e, h_call h e = None) ->
  let ostmp := os_TempDir (w_environ (sys_world s)) in
  let made := SysMkdirTemp ostmp "bsh_*" in
  let tmpdir := fst (os_MkdirTemp (sys_calls s) ostmp "bsh_*") in
  let prev := fst (os_Getwd (sys_calls s ++ [made])) in
  exists s1,
    sys_calls s1 =
    sys_calls s ++ [made; SysGetwd; SysStat tmpdir] ++
    match os_Stat (sys_calls s ++ [made; SysGetwd]) tmpdir with
    | inr _ => []
    | inl _ => [SysMkdirAll tmpdir]
    end ++ [SysChdir tmpdir] /\
    sys_calls
      (snd (InTempDir os_Stat os_Getwd os_Chdir os_MkdirAll os_TempDir
              os_MkdirTemp os_RemoveAll fn s)) =
    sys_calls (snd (fn s1)) ++ [SysChdir prev; SysRemoveAll tmpdir] /\
    (forall p, fst (fn s1) = Fault p ->
       exists q,
         fst (InTempDir os_Stat os_Getwd os_Chdir os_MkdirAll os_TempDir
                os_MkdirTemp os_RemoveAll fn s) = Fault q).
Proof.
  intros Hh Hret ostmp made tmpdir prev.
  destruct (MkdirTemp_returns s h Hh Hret) as (w1 & Hm & Hh1).
  fold ostmp in Hm. fold made in Hm. fold tmpdir in Hm.
  destruct (InDir_enters tmpdir fn
              (mkSys w1 (sys_calls s ++ [made])) h Hh1 Hret)
    as (s1 & Hcalls & Heq).
  cbn [sys_calls] in Hcalls, Heq. fold prev in Heq.
  exists s1. split.
  { rewrite Hcalls, <- ?app_assoc. reflexivity. }
  unfold InTempDir. unfold sbind. rewrite Hm. cbn [fst snd].
  destruct (defer_calls (Chdir os_Chdir prev) fn (SysChdir prev) s1
              (fun s' => Chdir_calls prev s')) as (Hin & Hpanic).
  destruct (defer_calls (RemoveAll os_RemoveAll tmpdir)
              (InDir os_Stat os_Getwd os_Chdir os_MkdirAll tmpdir fn)
              (SysRemoveAll tmpdir) (mkSys w1 (sys_calls s ++ [made]))
              (fun s' => RemoveAll_calls tmpdir s')) as (Hout & Hpanic').
  rewrite Heq in Hout, Hpanic'.
  split.
  - rewrite Hout, Hin, <- app_assoc. reflexivity.
  - intros p Hp. destruct (Hpanic p Hp) as (q & Hq). now apply (Hpanic' q).
Qed.

End FileFacts.

Lemma MustCopy_agrees_with_Copy_witness :
  fst (MustCopy sample_Open sample_Stat sample_Create sample_io_Copy
         "locked" "b.txt" (sample_sys (Some sample_handler))) =
  match fst (Copy sample_Open sample_Stat sample_Create sample_io_Copy
               "locked" "b.txt" (sample_sys (Some sample_handler))) with
  | Ret _ => Ret tt
  | Fault p => Fault p
  end.
Proof.
  apply (MustCopy_agrees_with_Copy sample_Open sample_Stat sample_Create
           sample_io_Copy "locked" "b.txt" (sample_sys (Some sample_handler))).
  intros H. vm_compute in H. discriminate H.
Defined.

Lemma InDir_restores_witness :
  exists s1,
    sys_calls s1 = [SysGetwd; SysStat "new"; SysMkdirAll "new"; SysChdir "new"]
    /\
    sys_calls
      (snd (InDir sample_Stat sample_Getwd sample_Chdir sample_Chdir "new"
              sample_crash (sample_sys (Some sample_handler)))) =
    sys_calls (snd (sample_crash s1)) ++ [SysChdir "/home"] /\
    (forall p, fst (sample_crash s1) = Fault p ->
       exists q,
         fst (InDir sample_Stat sample_Getwd sample_Chdir sample_Chdir "new"
                sample_crash (sample_sys (Some sample_handler))) = Fault q).
Proof.
  apply (InDir_restores sample_Stat sample_Getwd sample_Chdir sample_Chdir
           "new" sample_crash (sample_sys (Some sample_handler))
           sample_handler); reflexivity.
Defined.

Lemma InTempDir_cleans_up_witness :
  exists s1,
    sys_calls s1 =
    [SysMkdirTemp "/tmp" "bsh_*"; SysGetwd; SysStat "/tmp/bsh_1";
     SysMkdirAll "/tmp/bsh_1"; SysChdir "/tmp/bsh_1"] /\
    sys_calls
      (snd (InTempDir sample_Stat sample_Getwd sample_Chdir sample_Chdir
              (fun _ => "/tmp") sample_MkdirTemp sample_Chdir sample_crash
              (sample_sys (Some sample_handler)))) =
    sys_calls (snd (sample_crash s1)) ++
    [SysChdir "/home"; SysRemoveAll "/tmp/bsh_1"] /\
    (forall p, fst (sample_crash s1) = Fault p ->
       exists q,
         fst (InTempDir sample_Stat sample_Getwd sample_Chdir sample_Chdir
                (fun _ => "/tmp") sample_MkdirTemp sample_Chdir sample_crash
                (sample_sys (Some sample_handler))) = Fault q).
Proof.
  apply (InTempDir_cleans_up sample_Stat sample_Getwd sample_Chdir
           sample_Chdir (fun _ => "/tmp") sample_MkdirTemp sample_Chdir
           sample_crash (sample_sys (Some sample_handler)) sample_handler);
    reflexivity.
Defined.

(** ** Copying a folder *)

Lemma appends_sret {A} P (a : A) : appends P (sret a).
Proof. intros s. exists []. now rewrite app_nil_r. Qed.

Lemma appends_bind {A B} P (m : SAct A) (k : A -> SAct B) :
  appends P m -> (forall a, appends P (k a)) -> appends P (sbind m k).
Proof.
  intros Hm Hk s. unfold sbind. destruct (Hm s) as (l & Hl & HP).
  destruct (m s) as [[a | p] s1]; cbn [snd] in *.
  - destruct (Hk a s1) as (l' & Hl' & HP'). exists (l ++ l').
    rewrite Hl', Hl, app_assoc, forallb_app, HP, HP'. now split.
  - now exists l.
Qed.

Lemma appends_sPanic P e : appends P (sPanic e).
Proof.
  intros s. exists []. rewrite sPanic_spec, app_nil_r. now split.
Qed.

Lemma appends_Verbosef P msg : appends P (lift (Verbosef msg)).
Proof.
  intros s. exists []. unfold lift.
  destruct (Verbosef msg (sys_world s)) as [r w']. rewrite app_nil_r.
  now split.
Qed.

Lemma appends_syscall {R} P (answer : list Syscall -> R) record :
  (forall r, P (record r) = true) -> appends P (syscall answer record).
Proof.
  intros H s. exists [record (answer (sys_calls s))]. split; [reflexivity |].
  cbn. now rewrite H.
Qed.

Lemma appends_defer {A} P (d : SAct unit) (body : SAct A) :
  appends P d -> appends P body -> appends P (defer d body).
Proof.
  intros Hd Hb s. unfold defer. destruct (Hb s) as (l & Hl & HP).
  destruct (body s) as [r s1]; cbn [snd] in *.
  destruct (Hd s1) as (l' & Hl' & HP'). exists (l ++ l').
  rewrite app_assoc, <- Hl, forallb_app, HP, HP'.
  destruct (d s1) as [[[] | q] s2]; cbn [snd] in *; now split.
Qed.

Ltac appends_step :=
  match goal with
  | |- appends _ (sbind _ _) => apply appends_bind; [| intros ?]
  | |- appends _ (sret _) => apply appends_sret
  | |- appends _ (sPanic _) => apply appends_sPanic
  | |- appends _ (lift (Verbosef _)) => apply appends_Verbosef
  | |- appends _ (syscall _ _) => apply appends_syscall; intros; reflexivity
  | |- appends _ (defer _ _) => apply appends_defer
  | |- appends _ (Close _) => unfold Close
  | |- appends _ (match ?x with _ => _ end) => destruct x
  end.

Lemma phased_writes {A} (m : SAct A) :
  appends (fun c => negb (is_lookup c)) m -> phased m.
Proof.
  intros H s. destruct (H s) as (l & Hl & HP). now exists [], l.
Qed.

Lemma phased_bind {A B} (m : SAct A) (k : A -> SAct B) :
  appends is_lookup m -> (forall a, phased (k a)) -> phased (sbind m k).
Proof.
  intros Hm Hk s. unfold sbind. destruct (Hm s) as (l & Hl & HP).
  destruct (m s) as [[a | p] s1]; cbn [snd] in *.
  - destruct (Hk a s1) as (l1 & l2 & Hl' & H1 & H2).
    exists (l ++ l1), l2.
    rewrite Hl', Hl, <- ?app_assoc, forallb_app, HP, H1. now repeat split.
  - exists l, []. rewrite app_nil_r. now repeat split.
Qed.

Section FolderFacts.

Context (os_Stat : list Syscall -> string -> Errno + FileInfo)
        (os_Open : list Syscall -> string -> option Errno)
        (file_Stat : list Syscall -> string -> Errno + FileInfo)
        (os_Create : list Syscall -> string -> option Errno)
        (io_Copy : list Syscall -> string -> string -> Z * option Errno)
        (os_MkdirAll : list Syscall -> string -> option Errno)
        (os_ReadDir : list Syscall -> string -> list DirEntry * option Errno)
        (filepath_Join : string -> string -> string).

Lemma appends_IsDir path : appends is_lookup (IsDir os_Stat path).
Proof. unfold IsDir, Stat_quietly. repeat appends_step. Qed.

Lemma appends_MkdirAll dir :
  appends (fun c => negb (is_lookup c)) (MkdirAll os_MkdirAll dir).
Proof. unfold MkdirAll. repeat appends_step. Qed.

Lemma appends_MustCopy src dst :
  appends (fun c => negb (is_lookup c))
    (MustCopy os_Open file_Stat os_Create io_Copy src dst).
Proof. unfold MustCopy, copyImpl. repeat appends_step. Qed.

Lemma appends_copy_entries toCopy :
  appends (fun c => negb (is_lookup c))
    (copy_entries os_Open file_Stat os_Create io_Copy os_MkdirAll toCopy).
Proof.
  induction toCopy as [| entry rest IH]; cbn [copy_entries].
  - apply appends_sret.
  - apply appends_bind; [| intros _; exact IH].
    destruct (isDir entry); [apply appends_MkdirAll | apply appends_MustCopy].
Qed.

Lemma appends_walk rec src dst contents :
  (forall src' dst' files, appends is_lookup (rec src' dst' files)) ->
  forall files, appends is_lookup (walk filepath_Join rec src dst contents files).
Proof.
  intros Hrec. induction contents as [| entry rest IH]; intros files;
    cbn [walk].
  - apply appends_sret.
  - destruct (de_IsDir entry); [| apply IH].
    apply appends_bind; [apply Hrec |].
    intros [files2 |]; [apply IH | apply appends_sret].
Qed.

Lemma appends_buildCopyList fuel :
  forall src dst files,
    appends is_lookup
      (buildCopyList os_ReadDir filepath_Join fuel src dst files).
Proof.
  induction fuel as [| fuel IH]; intros src dst files; cbn [buildCopyList].
  - apply appends_sret.
  - apply appends_bind; [repeat appends_step |]. intros r.
    apply appends_bind; [repeat appends_step |]. intros _.
    apply appends_walk. exact IH.
Qed.

(** [CopyContents] looks before it writes: it asks about the two folders
    and reads the whole tree under [src] first, and only then makes
    folders and copies files. No folder is read once the first change is
    made, so that copying into a folder under [src] cannot feed the
    listing; this holds on every path, panics included. *)
Theorem CopyContents_reads_before_writes fuel src dst :
  phased (CopyContents os_Stat os_Open file_Stat os_Create io_Copy os_MkdirAll
            os_ReadDir filepath_Join fuel src dst).
Proof.
  unfold CopyContents.
  apply phased_bind; [apply appends_IsDir |]. intros is_src.
  apply phased_bind; [repeat appends_step |]. intros _.
  apply phased_bind; [apply appends_IsDir |]. intros is_dst.
  apply phased_bind; [repeat appends_step |]. intros _.
  apply phased_bind; [apply appends_buildCopyList |]. intros [entries |].
  - apply phased_writes. apply appends_bind; [apply appends_copy_entries |].
    intros _. apply appends_sret.
  - apply phased_writes, appends_sret.
Qed.

(** What [buildCopyList] returns, when it returns a list. *)
Lemma walk_listing rec src dst contents :
  (forall src' dst' files s out s',
     rec src' dst' files s = (Ret (Some out), s') ->
     exists added,
       out = files ++ added /\
       listing os_ReadDir filepath_Join (sys_calls s) src' dst' added
         (sys_calls s')) ->
  forall files s out s',
    walk filepath_Join rec src dst contents files s = (Ret (Some out), s') ->
    exists added,
      out = files ++ added /\
      listing_entries os_ReadDir filepath_Join src dst (sys_calls s) contents
        added (sys_calls s').
Proof.
  intros Hrec. induction contents as [| entry rest IH];
    intros files s out s'; cbn [walk].
  - intros H. inversion H. subst. exists []. rewrite app_nil_r.
    split; [reflexivity | constructor].
  - destruct entry as [name is_dir]. cbn [de_Name de_IsDir].
    destruct is_dir.
    + unfold sbind.
      destruct (rec (filepath_Join src name) (filepath_Join dst name)
                  (files ++ [mkCopyEntry (filepath_Join src name)
                                         (filepath_Join dst name) true]) s)
        as [[[files2 |] | p] s1] eqn:Hr; try discriminate.
      intros H. apply IH in H. destruct H as (rest' & -> & Hrest).
      apply Hrec in Hr. destruct Hr as (inside & -> & Hin).
      exists (mkCopyEntry (filepath_Join src name) (filepath_Join dst name)
                true :: inside ++ rest').
      split; [now rewrite <- ?app_assoc |].
      now apply (listing_subfolder _ _ _ _ _ _ _ _ (sys_calls s1)).
    + intros H. apply IH in H. destruct H as (rest' & -> & Hrest).
      exists (mkCopyEntry (filepath_Join src name) (filepath_Join dst name)
                false :: rest').
      split; [now rewrite <- ?app_assoc | now constructor].
Qed.

Lemma buildCopyList_listing fuel :
  forall src dst files s out s',
    buildCopyList os_ReadDir filepath_Join fuel src dst files s =
    (Ret (Some out), s') ->
    exists added,
      out = files ++ added /\
      listing os_ReadDir filepath_Join (sys_calls s) src dst added
        (sys_calls s').
Proof.
  induction fuel as [| fuel IH]; intros src dst files s out s';
    cbn [buildCopyList].
  - discriminate.
  - unfold sbind at 1, syscall at 1. unfold sbind at 1.
    assert (Hcalls :
      sys_calls
        (snd (match snd (os_ReadDir (sys_calls s) src) with
              | Some errno => sPanic (PathError "open" src errno)
              | None => sret ()
              end (mkSys (sys_world s) (sys_calls s ++ [SysReadDir src]))))
      = sys_calls s ++ [SysReadDir src]).
    { destruct (snd (os_ReadDir (sys_calls s) src)); [| reflexivity].
      now rewrite sPanic_spec. }
    destruct (match snd (os_ReadDir (sys_calls s) src) with
              | Some errno => sPanic (PathError "open" src errno)
              | None => sret ()
              end _) as [[[] | p] s1]; [| discriminate].
    cbn [snd] in Hcalls. intros H.
    apply (walk_listing _ src dst _ IH) in H.
    destruct H as (added & -> & Hl). exists added. split; [reflexivity |].
    constructor. now rewrite <- Hcalls.
Qed.

(** A listing holds every entry that was read, with its two paths. *)
Lemma listing_entries_complete src dst h contents l h' :
  listing_entries os_ReadDir filepath_Join src dst h contents l h' ->
  forall entry,
    List.In entry contents ->
    List.In (mkCopyEntry (filepath_Join src (de_Name entry))
               (filepath_Join dst (de_Name entry)) (de_IsDir entry)) l.
Proof.
  induction 1 as [src dst h | src dst h name rest l h' _ IH
                 | src dst h name rest inside h1 l h' _ _ IH];
    intros entry Hin.
  - destruct Hin.
  - destruct Hin as [<- | Hin]; [now left | right; now apply IH].
  - destruct Hin as [<- | Hin]; [now left |].
    right. apply in_or_app. right. now apply IH.
Qed.

(** With fuel above the depth of the tree, the bound is not reached. *)
Lemma walk_total rec src dst contents :
  (forall entry files s,
     List.In entry contents -> de_IsDir entry = true ->
     fst (rec (filepath_Join src (de_Name entry))
              (filepath_Join dst (de_Name entry)) files s) <> Ret None) ->
  forall files s,
    fst (walk filepath_Join rec src dst contents files s) <> Ret None.
Proof.
  induction contents as [| entry rest IH]; intros Hrec files s; cbn [walk].
  - discriminate.
  - assert (Hrest : forall files s,
              fst (walk filepath_Join rec src dst rest files s) <> Ret None).
    { apply IH. intros e f s' Hin. apply Hrec. now right. }
    destruct (de_IsDir entry) eqn:Hd; [| apply Hrest].
    unfold sbind.
    pose proof (Hrec entry
                  (files ++ [mkCopyEntry (filepath_Join src (de_Name entry))
                               (filepath_Join dst (de_Name entry)) true])
                  s (or_introl eq_refl) Hd) as Hr.
    destruct (rec _ _ _ s) as [[[files2 |] | p] s1]; cbn [fst] in *.
    + apply Hrest.
    + now contradict Hr.
    + discriminate.
Qed.

Lemma buildCopyList_total (rank : string -> nat) :
  (forall h path entry,
     List.In entry (fst (os_ReadDir h path)) -> de_IsDir entry = true ->
     (rank (filepath_Join path (de_Name entry)) < rank path)%nat) ->
  forall fuel src dst files s,
    (rank src < fuel)%nat ->
    fst (buildCopyList os_ReadDir filepath_Join fuel src dst files s) <>
    Ret None.
Proof.
  intros Hrank. induction fuel as [| fuel IH]; intros src dst files s Hfuel;
    [lia |].
  cbn [buildCopyList]. unfold sbind at 1, syscall at 1. unfold sbind at 1.
  destruct (match snd (os_ReadDir (sys_calls s) src) with
            | Some errno => sPanic (PathError "open" src errno)
            | None => sret ()
            end _) as [[[] | p] s1]; [| discriminate].
  apply walk_total. intros entry files' s' Hin Hd. apply IH.
  specialize (Hrank _ _ _ Hin Hd). lia.
Qed.

(** Under a handler that returns nothing panics. *)
Lemma walk_returns h rec src dst contents :
  (forall src' dst' files s,
     fnErr (w_bsh (sys_world s)) = Some h ->
     exists r s', rec src' dst' files s = (Ret r, s') /\
                  fnErr (w_bsh (sys_world s')) = Some h) ->
  forall files s,
    fnErr (w_bsh (sys_world s)) = Some h ->
    exists r s', walk filepath_Join rec src dst contents files s = (Ret r, s') /\
                 fnErr (w_bsh (sys_world s')) = Some h.
Proof.
  intros Hrec. induction contents as [| entry rest IH]; intros files s Hh;
    cbn [walk].
  - now exists (Some files), s.
  - destruct (de_IsDir entry); [| now apply IH].
    unfold sbind.
    destruct (Hrec (filepath_Join src (de_Name entry))
                (filepath_Join dst (de_Name entry))
                (files ++ [mkCopyEntry (filepath_Join src (de_Name entry))
                             (filepath_Join dst (de_Name entry)) true]) s Hh)
      as (r & s1 & -> & Hh1).
    destruct r as [files2 |]; [now apply IH | now exists None, s1].
Qed.

Lemma buildCopyList_returns h :
  (forall e, h_call h e = None) ->
  forall fuel src dst files s,
    fnErr (w_bsh (sys_world s)) = Some h ->
    exists r s',
      buildCopyList os_ReadDir filepath_Join fuel src dst files s =
      (Ret r, s') /\
      fnErr (w_bsh (sys_world s')) = Some h.
Proof.
  intros Hret. induction fuel as [| fuel IH]; intros src dst files s Hh;
    cbn [buildCopyList].
  - now exists None, s.
  - unfold sbind at 1, syscall at 1. unfold sbind at 1.
    destruct (snd (os_ReadDir (sys_calls s) src)) as [errno |].
    + destruct (sPanic_returns (PathError "open" src errno)
                  (mkSys (sys_world s) (sys_calls s ++ [SysReadDir src]))
                  h Hh Hret) as (w' & -> & Hh').
      apply walk_returns; [apply IH | exact Hh'].
    + unfold sret at 1. apply walk_returns; [apply IH | exact Hh].
Qed.

(** [buildCopyList] on a tree of folders that ends ([rank] goes down from
    a folder to the folders in it), given fuel above the rank of [src]:
    the bound is not reached. It returns the entries it was given followed
    by the listing of what [os.ReadDir] answers under [src], every folder
    at once followed by what it holds and every entry paired with the same
    path under [dst]; in particular every entry [os.ReadDir] gives for
    [src] is listed. Or it panics, which it does not under a handler that
    returns. *)
Theorem buildCopyList_lists_tree (rank : string -> nat) fuel src dst files s :
  (forall h path entry,
     List.In entry (fst (os_ReadDir h path)) -> de_IsDir entry = true ->
     (rank (filepath_Join path (de_Name entry)) < rank path)%nat) ->
  (rank src < fuel)%nat ->
  ((exists p,
      fst (buildCopyList os_ReadDir filepath_Join fuel src dst files s) =
      Fault p) \/
   (exists added,
      fst (buildCopyList os_ReadDir filepath_Join fuel src dst files s) =
      Ret (Some (files ++ added)) /\
      listing os_ReadDir filepath_Join (sys_calls s) src dst added
        (sys_calls
           (snd (buildCopyList os_ReadDir filepath_Join fuel src dst files
                   s))) /\
      (forall entry,
         List.In entry (fst (os_ReadDir (sys_calls s) src)) ->
         List.In (mkCopyEntry (filepath_Join src (de_Name entry))
                    (filepath_Join dst (de_Name entry)) (de_IsDir entry))
           added))) /\
  (forall h,
     fnErr (w_bsh (sys_world s)) = Some h ->
     (forall e, h_call h e = None) ->
     exists out,
       fst (buildCopyList os_ReadDir filepath_Join fuel src dst files s) =
       Ret (Some out)).
Proof.
  intros Hrank Hfuel.
  pose proof (buildCopyList_total rank Hrank fuel src dst files s Hfuel)
    as Htotal.
  pose proof (buildCopyList_listing fuel src dst files s) as Hshape.
  split.
  - destruct (buildCopyList _ _ fuel src dst files s)
      as [[[out |] | p] s'].
    + right. destruct (Hshape out s' eq_refl) as (added & -> & Hl).
      exists added. cbn [fst snd]. split; [reflexivity |].
      split; [exact Hl |].
      inversion Hl as [h0 src0 dst0 l0 h0' Hentries]. subst.
      now apply (listing_entries_complete _ _ _ _ _ _ Hentries).
    + now contradict Htotal.
    + left. now exists p.
  - intros h Hh Hret.
    destruct (buildCopyList_returns h Hret fuel src dst files s Hh)
      as (r & s' & Heq & _).
    rewrite Heq in *. cbn [fst] in *.
    destruct r as [out |]; [now exists out | now contradict Htotal].
Qed.

End FolderFacts.

Lemma buildCopyList_lists_tree_witness :
  (exists p,
     fst (buildCopyList sample_ReadDir sample_Join 2 "dir" "out" []
            (sample_sys None)) = Fault p) \/
  (exists added,
     fst (buildCopyList sample_ReadDir sample_Join 2 "dir" "out" []
            (sample_sys None)) = Ret (Some ([] ++ added)) /\
     listing sample_ReadDir sample_Join [] "dir" "out" added
       [SysReadDir "dir"; SysReadDir "dir/sub"] /\
     (forall entry,
        List.In entry [mkDirEntry "f" false; mkDirEntry "sub" true] ->
        List.In (mkCopyEntry (sample_Join "dir" (de_Name entry))
                   (sample_Join "out" (de_Name entry)) (de_IsDir entry))
          added)).
Proof.
  apply (buildCopyList_lists_tree sample_ReadDir sample_Join sample_rank 2
           "dir" "out" [] (sample_sys None)).
  - intros h path entry.
    unfold sample_ReadDir, sample_rank, sample_Join.
    destruct (String.eqb path "dir") eqn:Hp.
    + apply String.eqb_eq in Hp. subst path.
      intros [<- | [<- | []]]; [discriminate |]. intros _. vm_compute. lia.
    + destruct (String.eqb path "dir/sub").
      * intros [<- | []]. discriminate.
      * intros [].
  - vm_compute. lia.
Defined.
